(** * XmlReader (src/engraving/rw/xmlreader.cpp): a shallow embedding

    The reader session of the score file format: attribute accessors and
    leaf-value decoders, the tick/track cursor, the registries of tuplets
    and user text styles, and the pool of connector fragments with its
    repair pass.

    Conventions.  A C++ [int] is a [Z]; arithmetic that would overflow is
    undefined in C++ and is not modelled.  A [double] is a primitive IEEE
    binary64 [float].  Objects reached through pointers live in explicit
    stores keyed by handles, so aliasing is visible.  Classes whose source is
    not part of xmlreader.cpp ([Fraction], [Location], [ConnectorInfoReader],
    [Tuplet]) are either taken as section variables or modelled under a
    comment that says so. *)

From Stdlib Require Import ZArith Lia Bool Ascii String Floats Sorting.Sorted.
From stdpp Require Import base tactics option list sorting strings gmap.

Local Open Scope Z_scope.

(** ** Qt primitives used by the reader

    [QString] is a [string] whose characters are the code units below 256
    (Latin-1); the conversions follow the Qt documentation: [toInt] reads
    an optionally signed decimal number surrounded by whitespace and yields
    0 when the text is not a number or does not fit an [int]. *)
Module Qt.

Definition INT_MAX : Z := 2147483647.
Definition INT_MIN : Z := -2147483648.

Definition QString := string.

Definition isEmpty (s : QString) : bool :=
  match s with EmptyString => true | String _ _ => false end.

(** [QChar::isSpace]: tab to carriage return, the space, and of the other
    separators those below 256, next line (U+0085) and the no-break space
    (U+00A0). *)
Definition is_space (c : ascii) : bool :=
  let n := nat_of_ascii c in
  ((9 <=? n)%nat && (n <=? 13)%nat) || (n =? 32)%nat
  || (n =? 133)%nat || (n =? 160)%nat.

Fixpoint skip_space (s : string) : string :=
  match s with
  | String c s' => if is_space c then skip_space s' else s
  | EmptyString => EmptyString
  end.

Fixpoint rev_string (acc s : string) : string :=
  match s with
  | EmptyString => acc
  | String c s' => rev_string (String c acc) s'
  end.

Definition trimmed (s : string) : string :=
  rev_string EmptyString (skip_space (rev_string EmptyString (skip_space s))).

Definition digit_of (c : ascii) : option Z :=
  let n := Z.of_nat (nat_of_ascii c) in
  if (48 <=? n) && (n <=? 57) then Some (n - 48) else None.

Fixpoint digits (acc : Z) (s : string) : option Z :=
  match s with
  | EmptyString => Some acc
  | String c s' =>
      match digit_of c with
      | Some d => digits (10 * acc + d) s'
      | None => None
      end
  end.

Definition in_int_or_zero (v : Z) : Z :=
  if (INT_MIN <=? v) && (v <=? INT_MAX) then v else 0.

Definition unsigned_or_zero (neg : bool) (body : string) : Z :=
  match body with
  | EmptyString => 0
  | _ =>
      match digits 0 body with
      | Some v => in_int_or_zero (if neg then - v else v)
      | None => 0
      end
  end.

(** [QString::toInt()], base 10, without the [ok] out-parameter. *)
Definition toInt (s : QString) : Z :=
  match trimmed s with
  | String "-"%char body => unsigned_or_zero true body
  | String "+"%char body => unsigned_or_zero false body
  | body => unsigned_or_zero false body
  end.

(** [QString::indexOf(QChar)]: position of the first occurrence, or -1. *)
Fixpoint indexOf (s : QString) (c : ascii) : Z :=
  match s with
  | EmptyString => -1
  | String d s' =>
      if Ascii.eqb d c then 0
      else let i := indexOf s' c in if i =? -1 then -1 else i + 1
  end.

(** [QString::leftRef(n)] and [QString::midRef(pos)]. *)
Fixpoint left (s : QString) (n : nat) : QString :=
  match n, s with
  | S n', String c s' => String c (left s' n')
  | _, _ => EmptyString
  end.

Fixpoint mid (s : QString) (pos : nat) : QString :=
  match pos, s with
  | S p', String _ s' => mid s' p'
  | _, _ => s
  end.

(** [QXmlStreamAttributes] is a vector of (name, value) pairs;
    [hasAttribute] and [value] look at the first entry with the name, and
    [value] of a missing name is the null string. *)
Definition QXmlStreamAttributes := list (string * string).

Fixpoint find_value (a : QXmlStreamAttributes) (s : string) : option string :=
  match a with
  | [] => None
  | (k, v) :: a' => if String.eqb k s then Some v else find_value a' s
  end.

Definition hasAttribute (a : QXmlStreamAttributes) (s : string) : bool :=
  match find_value a s with Some _ => true | None => false end.

Definition value (a : QXmlStreamAttributes) (s : string) : QString :=
  match find_value a s with Some v => v | None => EmptyString end.

End Qt.

(** ** Attribute accessors (xmlreader.cpp, lines 61-114) *)
Module Attr.
Import Qt.

(** What an accessor hands back.  The C++ accessors return plain values;
    the second constructor exists so that the behaviour the specification
    words ("missing required attribute") can be written down and compared. *)
Inductive result (A : Type) : Type :=
| Value (a : A)
| MissingRequiredAttribute.
Arguments Value {A} a.
Arguments MissingRequiredAttribute {A}.

Section Accessors.
(** [QStringRef::toDouble()], part of Qt. *)
Variable toDouble : QString -> float.

(** The attributes of the element the reader stands on. *)
Variable attributes : QXmlStreamAttributes.

Definition intAttribute (s : string) (_default : Z) : Z :=
  if hasAttribute attributes s then toInt (value attributes s)
  else _default.

Definition intAttribute1 (s : string) : Z :=
  toInt (value attributes s).

Definition doubleAttribute1 (s : string) : float :=
  toDouble (value attributes s).

Definition doubleAttribute (s : string) (_default : float) : float :=
  if hasAttribute attributes s then toDouble (value attributes s)
  else _default.

Definition attribute (s : string) (_default : QString) : QString :=
  if hasAttribute attributes s then value attributes s
  else _default.

(** The no-default accessors as results: they always produce a value. *)
Definition intAttribute1_result (s : string) : result Z :=
  Value (intAttribute1 s).

Definition doubleAttribute1_result (s : string) : result float :=
  Value (doubleAttribute1 s).

(** The no-default accessor as the specification words it: the parsed
    value when the key is present, a failure signal when it is absent. *)
Definition intAttribute1_spec (s : string) : result Z :=
  if hasAttribute attributes s then Value (toInt (value attributes s))
  else MissingRequiredAttribute.

Definition doubleAttribute1_spec (s : string) : result float :=
  if hasAttribute attributes s then Value (toDouble (value attributes s))
  else MissingRequiredAttribute.
End Accessors.

(** [key_absent] and [key_bound]: the two situations the claim speaks of. *)
Definition key_absent (a : QXmlStreamAttributes) (s : string) : Prop :=
  s ∉ a.*1.

Definition key_bound (a : QXmlStreamAttributes) (s v : string) : Prop :=
  exists pre post, a = pre ++ (s, v) :: post /\ s ∉ pre.*1.

Lemma find_value_absent a s : key_absent a s -> find_value a s = None.
Proof.
  unfold key_absent. induction a as [|[k v] a IH]; simpl; [done|].
  intros Hn. apply not_elem_of_cons in Hn as [Hk Ha].
  destruct (String.eqb_spec k s); [congruence | auto].
Qed.

Lemma find_value_bound a s v : key_bound a s v -> find_value a s = Some v.
Proof.
  intros (pre & post & -> & Hpre).
  induction pre as [|[k w] pre IH]; simpl in *.
  - by rewrite String.eqb_refl.
  - apply not_elem_of_cons in Hpre as [Hk Hpre].
    destruct (String.eqb_spec k s); [congruence | auto].
Qed.

Lemma toInt_null : toInt EmptyString = 0.
Proof. reflexivity. Qed.

(** C8, as the code has it: with a default, an accessor returns the
    converted value of the first attribute of that name and the default
    when there is none; without a default it returns a value in both
    cases, and for a missing key that value is the conversion of the null
    string (0 for [intAttribute]). *)
Theorem attribute_accessors (toDouble : QString -> float)
    (a : QXmlStreamAttributes) (s : string) :
  (forall v, key_bound a s v ->
     (forall d, intAttribute a s d = toInt v) /\
     (forall d, doubleAttribute toDouble a s d = toDouble v) /\
     (forall d, attribute a s d = v) /\
     intAttribute1_result a s = Value (toInt v) /\
     doubleAttribute1_result toDouble a s = Value (toDouble v)) /\
  (key_absent a s ->
     (forall d, intAttribute a s d = d) /\
     (forall d, doubleAttribute toDouble a s d = d) /\
     (forall d, attribute a s d = d) /\
     intAttribute1_result a s = Value 0 /\
     doubleAttribute1_result toDouble a s = Value (toDouble EmptyString)).
Proof.
  split.
  - intros v Hb. apply find_value_bound in Hb.
    unfold intAttribute, doubleAttribute, attribute, intAttribute1_result,
      doubleAttribute1_result, intAttribute1, doubleAttribute1,
      hasAttribute, value.
    rewrite Hb. done.
  - intros Ha. apply find_value_absent in Ha.
    unfold intAttribute, doubleAttribute, attribute, intAttribute1_result,
      doubleAttribute1_result, intAttribute1, doubleAttribute1,
      hasAttribute, value.
    rewrite Ha. done.
Qed.

(** The colour element [<color r="1" g="2" b="3"/>] has no attribute "a". *)
Definition color_attrs : QXmlStreamAttributes :=
  [("r", "1"); ("g", "2"); ("b", "3")]%string.

(** C8 as stated fails: asked for a key that is absent, the no-default
    accessor does not signal anything, it returns 0. *)
Lemma intAttribute1_absent_returns_zero :
  key_absent color_attrs "a" /\
  intAttribute1_result color_attrs "a" = Value 0 /\
  intAttribute1_result color_attrs "a" <> intAttribute1_spec color_attrs "a".
Proof.
  split; [|split].
  - unfold key_absent, color_attrs. simpl.
    rewrite !not_elem_of_cons. repeat split; try discriminate.
    apply not_elem_of_nil.
  - reflexivity.
  - discriminate.
Qed.

(** The theorem applies to the colour element: "g" is bound to "2" behind
    "r", and "a" is absent. *)
Lemma attribute_accessors_witness :
  key_bound color_attrs "g" "2" /\ key_absent color_attrs "a" /\
  intAttribute color_attrs "g" 255 = 2 /\
  intAttribute color_attrs "a" 255 = 255.
Proof.
  assert (Hb : key_bound color_attrs "g" "2").
  { exists [("r", "1")]%string, [("b", "3")]%string. split; [reflexivity|].
    simpl. rewrite not_elem_of_cons. split; [discriminate|].
    apply not_elem_of_nil. }
  assert (Ha : key_absent color_attrs "a").
  { unfold key_absent, color_attrs. simpl.
    rewrite !not_elem_of_cons. repeat split; try discriminate.
    apply not_elem_of_nil. }
  split; [exact Hb|]. split; [exact Ha|].
  pose proof (attribute_accessors (fun _ => 0%float) color_attrs "g") as [Hg _].
  pose proof (attribute_accessors (fun _ => 0%float) color_attrs "a") as [_ Hab].
  destruct (Hg "2"%string Hb) as (Hi & _).
  destruct (Hab Ha) as (Hd & _).
  split; [exact (Hi 255) | exact (Hd 255)].
Defined.

End Attr.

(** ** Rational time values

    Modelled from the spec: class [Fraction] (libmscore/fraction.h) is not
    part of xmlreader.cpp.  The specification describes it as a rational
    time value given by two integers, reduced to lowest terms by
    [reduced]/[reduce], with an integer-tick reading ([ticks]) and a way
    back ([fromTicks]).  [division] is the number of ticks in a quarter
    note, so a whole note has [4 * division] ticks; its value is not fixed
    by xmlreader.cpp and stays a parameter. *)
Module Frac.

Record Fraction : Type := mkFraction { numerator : Z; denominator : Z }.

#[global] Instance Fraction_eq_dec : EqDecision Fraction.
Proof. solve_decision. Defined.

(** [operator==] compares values, not representations. *)
Definition eqb (a b : Fraction) : bool :=
  numerator a * denominator b =? numerator b * denominator a.

Definition add (a b : Fraction) : Fraction :=
  mkFraction (numerator a * denominator b + numerator b * denominator a)
             (denominator a * denominator b).

Definition sub (a b : Fraction) : Fraction :=
  mkFraction (numerator a * denominator b - numerator b * denominator a)
             (denominator a * denominator b).

Definition reduced (a : Fraction) : Fraction :=
  let g := Z.gcd (numerator a) (denominator a) in
  mkFraction (numerator a / g) (denominator a / g).

(** Integer ticks, rounded to the nearest tick. *)
Definition ticks (division : Z) (a : Fraction) : Z :=
  let sgn := if numerator a <? 0 then -1 else 1 in
  sgn * ((sgn * numerator a * (division * 4) + Z.quot (denominator a) 2)
           ÷ denominator a).

Definition fromTicks (division : Z) (t : Z) : Fraction :=
  reduced (mkFraction t (division * 4)).

(** Well-formed: a positive denominator.  Canonical: also lowest terms. *)
Definition wf (a : Fraction) : Prop := 0 < denominator a.

Definition canonical (a : Fraction) : Prop :=
  0 < denominator a /\ Z.gcd (numerator a) (denominator a) = 1.

Definition equiv (a b : Fraction) : Prop :=
  numerator a * denominator b = numerator b * denominator a.

End Frac.

(** ** Leaf-value decoders (xmlreader.cpp, lines 208-224 and 330-339)

    The element the reader stands on is given by its attributes and by the
    text [readElementText()] returns for it.  The [Q_ASSERT] on the token
    type speaks about the token stream and has no counterpart here. *)
Module Leaf.
Import Qt Attr Frac.

Section Decoders.
Variable division : Z.
Variable toDouble : QString -> float.

Definition readFraction (attributes : QXmlStreamAttributes)
    (text : QString) : Fraction :=
  let z := toInt (attribute attributes "z" "0") in
  let n := toInt (attribute attributes "n" "1") in
  let s := text in
  if negb (isEmpty s) then
    let i := indexOf s "/" in
    if i =? -1 then fromTicks division (toInt s)
    else
      let z := toInt (left s (Z.to_nat i)) in
      let n := toInt (mid s (Z.to_nat (i + 1))) in
      mkFraction z n
  else mkFraction z n.

Definition readDouble (text : QString) (min max : float) : float :=
  let val := toDouble text in
  if (val <? min)%float then min
  else if (max <? val)%float then max
  else val.
End Decoders.

(** [<move z="1" n="4"/>] and an element that spells the defaults out. *)
Definition old_style : QXmlStreamAttributes := [("z", "1"); ("n", "4")]%string.

(** A non-negative tick count survives the trip through [fromTicks]. *)
Lemma ticks_fromTicks division t :
  0 < division -> 0 <= t -> ticks division (fromTicks division t) = t.
Proof.
  intros Hd Ht. unfold ticks, fromTicks, reduced. simpl.
  set (w := division * 4). assert (Hw : 0 < w) by (unfold w; lia).
  set (g := Z.gcd t w).
  assert (Hg : 0 < g).
  { pose proof (Z.gcd_nonneg t w).
    destruct (Z.eq_dec g 0) as [E|]; [|unfold g in *; lia].
    apply Z.gcd_eq_0_r in E. lia. }
  destruct (Z.gcd_divide_l t w) as [a Ha].
  destruct (Z.gcd_divide_r t w) as [b Hb].
  fold g in Ha, Hb.
  assert (Ea : t / g = a) by (rewrite Ha at 1; apply Z.div_mul; lia).
  assert (Eb : w / g = b) by (rewrite Hb at 1; apply Z.div_mul; lia).
  rewrite Ea, Eb.
  clearbody g w.
  assert (0 <= a) by (apply (Z.mul_nonneg_cancel_r a g); lia).
  assert (0 < b) by (apply (Z.mul_pos_cancel_r b g); lia).
  destruct (Z.ltb_spec a 0); [lia|].
  rewrite Z.mul_1_l.
  replace (1 * a * w) with (a * g * b) by (rewrite Hb at 1; ring).
  rewrite <- Ha.
  rewrite (Z.quot_div_nonneg b 2) by lia.
  assert (0 <= b / 2) by (apply Z.div_pos; lia).
  rewrite Z.quot_div_nonneg by nia.
  rewrite Z.div_add_l by lia.
  rewrite (Z.div_small (b / 2) b); [lia|].
  split; [apply Z.div_pos; lia | apply Z.div_lt; lia].
Qed.

Lemma fromTicks_canonical division t :
  0 < division -> canonical (fromTicks division t).
Proof.
  intros Hd. unfold canonical, fromTicks, reduced. simpl.
  set (w := division * 4). assert (Hw : 0 < w) by (unfold w; lia).
  set (g := Z.gcd t w).
  assert (Hg : 0 < g).
  { pose proof (Z.gcd_nonneg t w).
    destruct (Z.eq_dec g 0) as [E|]; [|unfold g in *; lia].
    apply Z.gcd_eq_0_r in E. lia. }
  split.
  - destruct (Z.gcd_divide_r t w) as [b Hb]. fold g in Hb.
    replace (w / g) with b by (rewrite Hb at 1; symmetry; apply Z.div_mul; lia).
    clearbody g w. apply (Z.mul_pos_cancel_r b g); lia.
  - apply Z.gcd_div_gcd; [lia | reflexivity].
Qed.



(** *** Order of IEEE doubles, through their specification *)

Definition SF_is_nan (f : spec_float) : bool :=
  match f with S754_nan => true | _ => false end.

Lemma SFcompare_refl f : SF_is_nan f = false -> SFcompare f f = Some Eq.
Proof.
  destruct f as [s|s| |s m e]; simpl; try done.
  - by destruct s.
  - intros _. change (Pos.compare_cont Eq m m) with (Pos.compare m m).
    destruct s; by rewrite Z.compare_refl, Pos.compare_refl.
Qed.

Lemma SFcompare_swap a b :
  SFcompare b a = option_map CompOpp (SFcompare a b).
Proof.
  destruct a as [sa|sa| |sa ma ea], b as [sb|sb| |sb mb eb]; simpl; try done;
    repeat match goal with s : bool |- _ => destruct s end; simpl; try done;
    rewrite (Z.compare_antisym ea eb); destruct (ea ?= eb); simpl; try done;
    change (Pos.compare_cont Eq) with Pos.compare;
    by rewrite (Pos.compare_antisym ma mb).
Qed.

Lemma SFlt_le_trans a b c :
  SFltb a b = true -> SFleb b c = true -> SFltb a c = true.
Proof.
  unfold SFltb, SFleb.
  destruct a as [sa|sa| |sa ma ea], b as [sb|sb| |sb mb eb],
           c as [sc|sc| |sc mc ec]; simpl; try done;
    repeat match goal with s : bool |- _ => destruct s end; simpl; try done;
    change (Pos.compare_cont Eq) with Pos.compare;
    destruct (Z.compare_spec ea eb), (Z.compare_spec eb ec),
             (Z.compare_spec ea ec); simpl; try done; try lia;
    subst;
    destruct (Pos.compare_spec ma mb), (Pos.compare_spec mb mc),
             (Pos.compare_spec ma mc); simpl; try done; try lia.
Qed.

Lemma is_nan_SF x : is_nan x = SF_is_nan (Prim2SF x).
Proof.
  unfold is_nan. rewrite FloatAxioms.eqb_spec. unfold SFeqb.
  destruct (Prim2SF x) as [s|s| |s m e] eqn:E; simpl; try done.
  - by destruct s.
  - change (Pos.compare_cont Eq m m) with (Pos.compare m m).
    destruct s; by rewrite Z.compare_refl, Pos.compare_refl.
Qed.

Lemma leb_not_nan_l x y : (x <=? y)%float = true -> is_nan x = false.
Proof.
  rewrite FloatAxioms.leb_spec, is_nan_SF. unfold SFleb.
  by destruct (Prim2SF x).
Qed.

Lemma leb_not_nan_r x y : (x <=? y)%float = true -> is_nan y = false.
Proof.
  rewrite FloatAxioms.leb_spec, is_nan_SF. unfold SFleb.
  destruct (Prim2SF x), (Prim2SF y); simpl; done.
Qed.

Lemma leb_refl x : is_nan x = false -> (x <=? x)%float = true.
Proof.
  rewrite is_nan_SF, FloatAxioms.leb_spec. intros H. unfold SFleb.
  by rewrite SFcompare_refl.
Qed.

Lemma not_ltb_leb x y :
  is_nan x = false -> is_nan y = false ->
  (x <? y)%float = false -> (y <=? x)%float = true.
Proof.
  rewrite !is_nan_SF, FloatAxioms.ltb_spec, FloatAxioms.leb_spec. unfold SFltb, SFleb.
  rewrite (SFcompare_swap (Prim2SF x) (Prim2SF y)).
  destruct (Prim2SF x) as [sx|sx| |sx mx ex], (Prim2SF y) as [sy|sy| |sy my ey];
    simpl; try done;
    repeat match goal with s : bool |- _ => destruct s end; simpl; try done;
    destruct (ex ?= ey); simpl; try done;
    destruct (Pos.compare_cont Eq mx my); simpl; done.
Qed.

Lemma ltb_leb_not_ltb x y z :
  (x <? y)%float = true -> (z <=? x)%float = true -> (y <? z)%float = false.
Proof.
  rewrite !FloatAxioms.ltb_spec, FloatAxioms.leb_spec. intros Hxy Hzx.
  destruct (SFltb (Prim2SF y) (Prim2SF z)) eqn:Hyz; [|done].
  pose proof (SFlt_le_trans _ _ _ Hyz Hzx) as Hyx.
  unfold SFltb in Hxy, Hyx.
  rewrite (SFcompare_swap (Prim2SF x) (Prim2SF y)) in Hyx.
  destruct (SFcompare (Prim2SF x) (Prim2SF y)) as [[]|]; simpl in *; done.
Qed.

Lemma leb_not_ltb x y : (y <=? x)%float = true -> (x <? y)%float = false.
Proof.
  rewrite FloatAxioms.ltb_spec, FloatAxioms.leb_spec. unfold SFltb, SFleb.
  rewrite (SFcompare_swap (Prim2SF x) (Prim2SF y)).
  by destruct (SFcompare (Prim2SF x) (Prim2SF y)) as [[]|].
Qed.

Lemma nan_not_ltb_l x y : is_nan x = true -> (x <? y)%float = false.
Proof.
  rewrite is_nan_SF, FloatAxioms.ltb_spec. unfold SFltb.
  by destruct (Prim2SF x).
Qed.

Lemma nan_not_ltb_r x y : is_nan y = true -> (x <? y)%float = false.
Proof.
  rewrite is_nan_SF, FloatAxioms.ltb_spec. unfold SFltb.
  by destruct (Prim2SF x), (Prim2SF y).
Qed.

(** C10, as the code has it, for [min <= max].  A parsed value that lies
    in [[min, max]] is returned as parsed, a value below [min] becomes
    [min] and a value above [max] becomes [max], so that the result of a
    text that does not convert to a NaN lies in [[min, max]]; a NaN is
    returned as it is. *)
Theorem readDouble_clamps (toDouble : QString -> float) (text : QString)
    (min max : float) :
  (min <=? max)%float = true ->
  ((min <=? toDouble text)%float = true ->
   (toDouble text <=? max)%float = true ->
     readDouble toDouble text min max = toDouble text) /\
  ((toDouble text <? min)%float = true ->
     readDouble toDouble text min max = min) /\
  ((max <? toDouble text)%float = true ->
     readDouble toDouble text min max = max) /\
  (is_nan (toDouble text) = false ->
     (min <=? readDouble toDouble text min max)%float = true /\
     (readDouble toDouble text min max <=? max)%float = true) /\
  (is_nan (toDouble text) = true ->
     readDouble toDouble text min max = toDouble text).
Proof.
  intros Hmm. unfold readDouble.
  pose proof (leb_not_nan_l _ _ Hmm) as Hmin.
  pose proof (leb_not_nan_r _ _ Hmm) as Hmax.
  split; [|split; [|split; [|split]]].
  - intros Hlo Hhi. by rewrite (leb_not_ltb _ _ Hlo), (leb_not_ltb _ _ Hhi).
  - by intros ->.
  - intros Hhi. by rewrite (ltb_leb_not_ltb _ _ _ Hhi Hmm), Hhi.
  - intros Hv.
    destruct (toDouble text <? min)%float eqn:Hlo; [auto using leb_refl|].
    destruct (max <? toDouble text)%float eqn:Hhi; [auto using leb_refl|].
    auto using not_ltb_leb.
  - intros Hv. by rewrite (nan_not_ltb_l _ _ Hv), (nan_not_ltb_r _ _ Hv).
Qed.

(** A conversion that agrees with [QString::toDouble] on the texts used
    below: "nan" is the NaN, "0.5" is one half, "7" is seven, anything
    else 0. *)
Definition sample_toDouble (s : QString) : float :=
  if String.eqb s "nan" then nan
  else if String.eqb s "0.5" then 0.5%float
  else if String.eqb s "7" then 7%float
  else 0%float.

Lemma readDouble_clamps_witness :
  (0 <=? 1)%float = true /\
  readDouble sample_toDouble "0.5" 0 1 = 0.5%float /\
  readDouble sample_toDouble "7" 0 1 = 1%float /\
  (0 <=? readDouble sample_toDouble "0.5" 0 1)%float = true /\
  (readDouble sample_toDouble "0.5" 0 1 <=? 1)%float = true.
Proof.
  split; [reflexivity|].
  destruct (readDouble_clamps sample_toDouble "0.5" 0%float 1%float eq_refl)
    as (Hin & _ & _ & Hrange & _).
  destruct (readDouble_clamps sample_toDouble "7" 0%float 1%float eq_refl)
    as (_ & _ & Hhi & _).
  split; [exact (Hin eq_refl eq_refl)|].
  split; [exact (Hhi eq_refl)|].
  exact (Hrange eq_refl).
Defined.

(** C10 as stated fails: the text "nan" converts to a NaN, which is
    neither below [min] nor above [max], so it is returned as it is. *)
Lemma readDouble_nan_not_clamped :
  (0 <=? 1)%float = true /\
  is_nan (readDouble sample_toDouble "nan" 0 1) = true /\
  (0 <=? readDouble sample_toDouble "nan" 0 1)%float = false /\
  (readDouble sample_toDouble "nan" 0 1 <=? 1)%float = false.
Proof. repeat split; reflexivity. Qed.

End Leaf.

(** ** User text styles (xmlreader.cpp, lines 523-572) *)
Module TextStyles.

(** The members of [TextStyleType] the reader names: the twelve user
    slots and the end marker [TEXT_TYPES], which both functions use as
    their "no slot" / "not found" answer. *)
Inductive TextStyleType : Type :=
| USER1 | USER2 | USER3 | USER4 | USER5 | USER6
| USER7 | USER8 | USER9 | USER10 | USER11 | USER12
| TEXT_TYPES.

#[global] Instance TextStyleType_eq_dec : EqDecision TextStyleType.
Proof. solve_decision. Defined.

Record UserTextStyle : Type := mkStyle { name : string; ss : TextStyleType }.

Definition addUserTextStyle (userTextStyles : list UserTextStyle)
    (name : string) : TextStyleType * list UserTextStyle :=
  let id :=
    match length userTextStyles with
    | 0 => USER1
    | 1 => USER2
    | 2 => USER3
    | 3 => USER4
    | 4 => USER5
    | 5 => USER6
    | 6 => USER7
    | 7 => USER8
    | 8 => USER9
    | 9 => USER10
    | 10 => USER11
    | 11 => USER12
    | _ => TEXT_TYPES
    end%nat in
  if decide (id <> TEXT_TYPES)
  then (id, userTextStyles ++ [mkStyle name id])
  else (id, userTextStyles).

Fixpoint lookupUserTextStyle (userTextStyles : list UserTextStyle)
    (name' : string) : TextStyleType :=
  match userTextStyles with
  | [] => TEXT_TYPES
  | i :: rest =>
      if String.eqb (name i) name' then ss i
      else lookupUserTextStyle rest name'
  end.

(** Successive calls, collecting the answers. *)
Fixpoint addAll (userTextStyles : list UserTextStyle) (names : list string)
    : list TextStyleType * list UserTextStyle :=
  match names with
  | [] => ([], userTextStyles)
  | n :: names' =>
      let '(id, styles') := addUserTextStyle userTextStyles n in
      let '(ids, final) := addAll styles' names' in
      (id :: ids, final)
  end.

Definition slots : list TextStyleType :=
  [USER1; USER2; USER3; USER4; USER5; USER6;
   USER7; USER8; USER9; USER10; USER11; USER12].

Definition table (names : list string) (ids : list TextStyleType)
    : list UserTextStyle :=
  zip_with mkStyle names ids.

Lemma lookup_first_binding styles i n s :
  NoDup (name <$> styles) ->
  styles !! i = Some (mkStyle n s) ->
  lookupUserTextStyle styles n = s.
Proof.
  revert i. induction styles as [|[k v] styles IH]; intros i Hnd Hi; [done|].
  simpl in *. apply NoDup_cons in Hnd as [Hk Hnd].
  destruct i as [|i]; simpl in Hi.
  - simplify_eq. by rewrite String.eqb_refl.
  - destruct (String.eqb_spec k n) as [->|]; [|eauto].
    exfalso. apply Hk. apply list_elem_of_fmap.
    exists (mkStyle n s). split; [done|]. by eapply list_elem_of_lookup_2.
Qed.

Lemma lookup_unbound styles n :
  n ∉ name <$> styles -> lookupUserTextStyle styles n = TEXT_TYPES.
Proof.
  induction styles as [|[k v] styles IH]; simpl; [done|].
  intros Hn. apply not_elem_of_cons in Hn as [Hk Hn].
  destruct (String.eqb_spec k n); [congruence | auto].
Qed.

Lemma table_names names ids :
  (length names <= length ids)%nat -> name <$> table names ids = names.
Proof.
  unfold table. revert ids.
  induction names as [|n names IH]; intros [|i ids] Hl; simpl in *;
    try done; try lia.
  f_equal. apply IH. lia.
Qed.

(** C9: thirteen calls with thirteen different names, starting from an
    empty table, answer USER1 ... USER12 in order and then [TEXT_TYPES];
    afterwards each of the first twelve names is found at its slot and the
    thirteenth is not found. *)
Theorem thirteen_user_text_styles (names : list string) :
  length names = 13%nat ->
  NoDup names ->
  exists final,
    addAll [] names = (slots ++ [TEXT_TYPES], final) /\
    (forall i n s, (i < 12)%nat -> names !! i = Some n -> slots !! i = Some s ->
       lookupUserTextStyle final n = s /\ s <> TEXT_TYPES) /\
    (forall n, names !! 12%nat = Some n ->
       lookupUserTextStyle final n = TEXT_TYPES).
Proof.
  intros Hlen Hnd.
  destruct names as [|n0 [|n1 [|n2 [|n3 [|n4 [|n5 [|n6 [|n7 [|n8 [|n9 [|n10
    [|n11 [|n12 [|? ?]]]]]]]]]]]]]]; try done.
  clear Hlen.
  set (first12 := [n0; n1; n2; n3; n4; n5; n6; n7; n8; n9; n10; n11]).
  change (NoDup (first12 ++ [n12])) in Hnd.
  apply NoDup_app in Hnd as (Hnd12 & Hfresh & _).
  exists (table first12 slots). split; [reflexivity|].
  assert (Hnames : name <$> table first12 slots = first12)
    by (apply table_names; simpl; lia).
  split.
  - intros i n t Hi Hn Ht. split.
    + apply (lookup_first_binding _ i); [by rewrite Hnames|].
      unfold table. rewrite lookup_zip_with.
      do 12 (destruct i as [|i];
             [simpl in Hn, Ht; simplify_eq; reflexivity |]).
      lia.
    + do 12 (destruct i as [|i]; [simpl in Ht; by simplify_eq |]). lia.
  - intros n Hn. simpl in Hn. simplify_eq.
    apply lookup_unbound. rewrite Hnames.
    intros Hin. apply (Hfresh n Hin). by apply list_elem_of_singleton.
Qed.

Definition thirteen_names : list string :=
  ["a"; "b"; "c"; "d"; "e"; "f"; "g"; "h"; "i"; "j"; "k"; "l"; "m"]%string.

Lemma thirteen_user_text_styles_witness :
  exists final,
    addAll [] thirteen_names = (slots ++ [TEXT_TYPES], final) /\
    lookupUserTextStyle final "l" = USER12 /\
    lookupUserTextStyle final "m" = TEXT_TYPES.
Proof.
  assert (Hnd : NoDup thirteen_names).
  { apply (bool_decide_unpack _). vm_compute. exact I. }
  destruct (thirteen_user_text_styles thirteen_names eq_refl Hnd)
    as (final & Hall & Hfirst & Hlast).
  exists final. split; [exact Hall|]. split.
  - exact (proj1 (Hfirst 11%nat "l"%string USER12 ltac:(lia) eq_refl eq_refl)).
  - exact (Hlast "m"%string eq_refl).
Defined.

End TextStyles.

(** *** Facts about the rational time values *)
Module FracFacts.
Import Frac.

Lemma gcd_pos_r n d : 0 < d -> 0 < Z.gcd n d.
Proof.
intros Hd. pose proof (Z.gcd_nonneg n d).
destruct (Z.eq_dec (Z.gcd n d) 0) as [E|]; [|lia].
apply Z.gcd_eq_0_r in E. lia.
Qed.

Lemma reduced_canonical a : wf a -> canonical (reduced a).
Proof.
unfold wf, canonical, reduced. intros Hd. simpl.
pose proof (gcd_pos_r (numerator a) _ Hd) as Hg.
split.
- destruct (Z.gcd_divide_r (numerator a) (denominator a)) as [b Hb].
  rewrite Hb at 1. rewrite Z.div_mul by lia.
  apply (Z.mul_pos_cancel_r b (Z.gcd (numerator a) (denominator a))); lia.
- apply Z.gcd_div_gcd; [lia | reflexivity].
Qed.

Lemma reduced_equiv a : wf a -> equiv (reduced a) a.
Proof.
unfold wf, equiv, reduced. intros Hd. simpl.
pose proof (gcd_pos_r (numerator a) _ Hd) as Hg.
destruct (Z.gcd_divide_l (numerator a) (denominator a)) as [x Hx].
destruct (Z.gcd_divide_r (numerator a) (denominator a)) as [y Hy].
set (g := Z.gcd (numerator a) (denominator a)) in *.
rewrite Hx at 1. rewrite Hy at 2. rewrite !Z.div_mul by lia.
rewrite Hx at 1. rewrite Hy at 1. ring.
Qed.

Lemma canonical_wf a : canonical a -> wf a.
Proof. by intros [? _]. Qed.

Lemma equiv_refl a : equiv a a.
Proof. reflexivity. Qed.

Lemma equiv_sym a b : equiv a b -> equiv b a.
Proof. unfold equiv. lia. Qed.

Lemma equiv_trans a b c : wf b -> equiv a b -> equiv b c -> equiv a c.
Proof.
unfold wf, equiv. intros Hb Hab Hbc.
apply (Z.mul_cancel_r _ _ (denominator b)); [lia|].
transitivity (numerator a * denominator b * denominator c); [ring|].
rewrite Hab.
transitivity (numerator b * denominator c * denominator a); [ring|].
rewrite Hbc. ring.
Qed.

(** Two fractions in lowest terms with the same value are the same pair. *)
Lemma canonical_unique a b : canonical a -> canonical b -> equiv a b -> a = b.
Proof.
destruct a as [n d], b as [m e]. unfold canonical, equiv. simpl.
intros [Hd Hg] [He Hh] Heq.
assert (Hde : (d | e)).
{ apply (Z.gauss d n e); [|by rewrite Z.gcd_comm].
  exists m. rewrite Heq. ring. }
assert (Hed : (e | d)).
{ apply (Z.gauss e m d); [|by rewrite Z.gcd_comm].
  exists n. rewrite <- Heq. ring. }
assert (d = e) by (apply Z.divide_antisym_nonneg; [lia | lia | done | done]).
subst e.
f_equal. apply (Z.mul_cancel_r _ _ d); lia.
Qed.

Lemma reduced_of_equiv a b : canonical a -> wf b -> equiv b a -> reduced b = a.
Proof.
intros Ha Hb Hab. apply canonical_unique; [by apply reduced_canonical|done|].
eapply equiv_trans; [exact Hb| by apply reduced_equiv | done].
Qed.

Lemma add_wf a b : wf a -> wf b -> wf (add a b).
Proof. unfold wf. simpl. nia. Qed.

Lemma sub_wf a b : wf a -> wf b -> wf (sub a b).
Proof. unfold wf. simpl. nia. Qed.

Lemma add_equiv_l a b c : equiv a b -> equiv (add a c) (add b c).
Proof.
unfold equiv. simpl. intros H.
transitivity (numerator a * denominator b * (denominator c * denominator c)
              + numerator c * denominator a * denominator b * denominator c);
  [ring|].
rewrite H. ring.
Qed.

Lemma sub_equiv_l a b c : equiv a b -> equiv (sub a c) (sub b c).
Proof.
unfold equiv. simpl. intros H.
transitivity (numerator a * denominator b * (denominator c * denominator c)
              - numerator c * denominator a * denominator b * denominator c);
  [ring|].
rewrite H. ring.
Qed.

Lemma sub_zero a z : numerator z = 0 -> equiv (sub a z) a.
Proof. unfold equiv. simpl. intros ->. ring. Qed.

Lemma add_zero_l z a : numerator z = 0 -> equiv (add z a) a.
Proof. unfold equiv. simpl. intros ->. ring. Qed.

Lemma add_sub_cancel a b : equiv (sub (add a b) b) a.
Proof. unfold equiv. simpl. ring. Qed.

Lemma sub_add_cancel a b : equiv (add (sub a b) b) a.
Proof. unfold equiv. simpl. ring. Qed.

Lemma eqb_equiv a b : eqb a b = true <-> equiv a b.
Proof. unfold eqb, equiv. apply Z.eqb_eq. Qed.

Lemma ticks_zero division z : wf z -> numerator z = 0 -> ticks division z = 0.
Proof.
unfold wf, ticks. intros Hd ->.
change (0 <? 0) with false. cbv iota.
replace (1 * 0 * (division * 4)) with 0 by ring. rewrite Z.add_0_l.
rewrite (Z.quot_div_nonneg (denominator z) 2) by lia.
assert (0 <= denominator z / 2 < denominator z)
  by (split; [apply Z.div_pos; lia | apply Z.div_lt; lia]).
rewrite Z.quot_small; lia.
Qed.

End FracFacts.

(** ** Locations

    Modelled from the spec: class [Location] (libmscore/location.h) is not
    part of xmlreader.cpp.  The specification gives it the fields [track],
    [frac], [measureIndex] and [isRelative]; an absolute location starts
    with every field at a sentinel "unset" value that the cursor fills in,
    a relative one with every offset at zero, and [toAbsolute] adds a
    relative location to a reference position. *)
Module Loc.
Import Qt Frac.

Record Location : Type := mkLocation {
  track : Z;
  frac : Fraction;
  measure : Z;
  isRelative : bool
}.

Definition unset : Z := INT_MIN.

Definition absolute : Location :=
  mkLocation unset (mkFraction unset 1) unset false.

Definition relative : Location :=
  mkLocation 0 (mkFraction 0 1) 0 true.

Definition setTrack (l : Location) (t : Z) : Location :=
  mkLocation t (frac l) (measure l) (isRelative l).

Definition setFrac (l : Location) (f : Fraction) : Location :=
  mkLocation (track l) f (measure l) (isRelative l).

Definition setMeasure (l : Location) (m : Z) : Location :=
  mkLocation (track l) (frac l) m (isRelative l).

Definition toAbsolute (l ref : Location) : Location :=
  if isRelative l
  then mkLocation (track l + track ref) (add (frac l) (frac ref))
                  (measure l + measure ref) false
  else l.

End Loc.

(** ** The tick/track cursor (xmlreader.cpp, lines 249-306 and 691-715) *)
Module Cursor.
Import Qt Frac.

(** What the cursor needs of a [Measure]: its start tick. *)
Record Measure : Type := mkMeasure { m_tick : Fraction }.

(** The position fields of [XmlReader].  [_curMeasure] is a pointer that
    may be null. *)
Record XmlReader : Type := mkReader {
  _tick : Fraction;
  _intTick : Z;
  _track : Z;
  _trackOffset : Z;
  _tickOffset : Fraction;
  _curMeasure : option Measure;
  _curMeasureIdx : Z;
  _pasteMode : bool
}.

(** What stops [setLocation]: a null [currentMeasure()] dereferenced, the
    [Q_ASSERT] failing in a build that checks it, or the recursion going
    deeper than the fuel given. *)
Inductive fault : Type := NullMeasure | AssertFailed | OutOfFuel.

Inductive outcome : Type :=
| Done (r : XmlReader)
| Fault (f : fault).

(** Modelled from the spec: the inline accessors of xml.h, which is not
    part of the sources.  The position seen from outside includes the paste
    offsets, which [setLocation] subtracts again. *)
Definition track (r : XmlReader) : Z := _track r + _trackOffset r.
Definition tick (r : XmlReader) : Fraction := add (_tick r) (_tickOffset r).
Definition pasteMode (r : XmlReader) : bool := _pasteMode r.
Definition currentMeasure (r : XmlReader) : option Measure := _curMeasure r.
Definition currentMeasureIndex (r : XmlReader) : Z := _curMeasureIdx r.

Definition setTrack (val : Z) (r : XmlReader) : XmlReader :=
  mkReader (_tick r) (_intTick r) val (_trackOffset r) (_tickOffset r)
           (_curMeasure r) (_curMeasureIdx r) (_pasteMode r).

Definition set_tick (t : Fraction) (i : Z) (r : XmlReader) : XmlReader :=
  mkReader t i (_track r) (_trackOffset r) (_tickOffset r)
           (_curMeasure r) (_curMeasureIdx r) (_pasteMode r).

Section Cursor.
(** Ticks in a quarter note, and whether [Q_ASSERT] is compiled in. *)
Variable division : Z.
Variable asserts : bool.

Definition rtick (r : XmlReader) : Fraction :=
  match _curMeasure r with
  | Some m => sub (_tick r) (m_tick m)
  | None => _tick r
  end.

Definition setTick (f : Fraction) (r : XmlReader) : XmlReader :=
  let t := reduced f in
  set_tick t (ticks division t) r.

Definition incTick (f : Fraction) (r : XmlReader) : XmlReader :=
  set_tick (reduced (add (_tick r) f)) (_intTick r + ticks division f) r.

Definition fillLocation (l : Loc.Location) (forceAbsFrac : bool)
    (r : XmlReader) : Loc.Location :=
  let defaults := Loc.absolute in
  let absFrac := pasteMode r || forceAbsFrac in
  let l :=
    if Loc.track l =? Loc.track defaults then Loc.setTrack l (track r)
    else l in
  let l :=
    if eqb (Loc.frac l) (Loc.frac defaults)
    then Loc.setFrac l (if absFrac then tick r else rtick r)
    else l in
  if Loc.measure l =? Loc.measure defaults
  then Loc.setMeasure l (if absFrac then 0 else currentMeasureIndex r)
  else l.

Definition location (forceAbsFrac : bool) (r : XmlReader) : Loc.Location :=
  fillLocation Loc.absolute forceAbsFrac r.

(** The lines after the relative branch: an absolute location. *)
Definition setLocationAbsolute (l : Loc.Location) (r : XmlReader) : outcome :=
  let r := setTrack (Loc.track l - _trackOffset r) r in
  let r := setTick (sub (Loc.frac l) (_tickOffset r)) r in
  if negb (pasteMode r) then
    if asserts && negb (Loc.measure l =? currentMeasureIndex r)
    then Fault AssertFailed
    else
      match currentMeasure r with
      | Some m => Done (incTick (m_tick m) r)
      | None => Fault NullMeasure
      end
  else Done r.

(** The test that selects the early return of the relative branch. *)
Definition fastPathTaken (l : Loc.Location) (r : XmlReader) : bool :=
  let intTicks := ticks division (Loc.frac l) in
  eqb (_tick r) (fromTicks division (_intTick r + intTicks)).

(** The early return: [_intTick += intTicks; setTrack(...)]. *)
Definition fastPath (l : Loc.Location) (r : XmlReader) : XmlReader :=
  let newLoc := Loc.toAbsolute l (location false r) in
  let intTicks := ticks division (Loc.frac l) in
  let r' := set_tick (_tick r) (_intTick r + intTicks) r in
  setTrack (Loc.track newLoc - _trackOffset r') r'.

(** [setLocation]; [fuel] bounds the depth of its self-call. *)
Fixpoint setLocation (fuel : nat) (l : Loc.Location) (r : XmlReader)
    : outcome :=
  match fuel with
  | O => Fault OutOfFuel
  | S fuel' =>
      if Loc.isRelative l then
        let newLoc := Loc.toAbsolute l (location false r) in
        if fastPathTaken l r then Done (fastPath l r)
        else setLocation fuel' newLoc r
      else setLocationAbsolute l r
  end.

(** The other branch of a relative [setLocation]: the self-call on the
    location made absolute. *)
Definition slowPath (fuel : nat) (l : Loc.Location) (r : XmlReader) : outcome :=
  setLocation fuel (Loc.toAbsolute l (location false r)) r.

(** A cursor whose tick is in lowest terms and whose integer mirror is what
    an absolute [setLocation] would compute for that tick. *)
Definition mirror (r : XmlReader) : Z :=
  if pasteMode r then ticks division (_tick r)
  else
    match currentMeasure r with
    | Some m => ticks division (reduced (rtick r)) + ticks division (m_tick m)
    | None => ticks division (_tick r)
    end.

Definition settled (r : XmlReader) : Prop :=
  canonical (_tick r) /\ _intTick r = mirror r.

(** The modes in which an absolute [setLocation] can return the cursor to
    where it stands: paste mode, or a current measure with no tick offset. *)
Definition anchored (r : XmlReader) : Prop :=
  wf (_tick r) /\ wf (_tickOffset r) /\
  (_pasteMode r = true \/
   exists m, _curMeasure r = Some m /\ wf (m_tick m) /\
             numerator (_tickOffset r) = 0).

End Cursor.

(** Sample cursors, at 480 ticks per quarter note. *)
Definition start_of_paste : XmlReader :=
  mkReader (mkFraction 0 1) 0 0 0 (mkFraction 0 1) None 0 true.

(** A reader that has not entered a measure yet. *)
Definition fresh_reader : XmlReader :=
  mkReader (mkFraction 0 1) 0 0 0 (mkFraction 0 1) None 0 false.

Definition offset_outside_paste : XmlReader :=
  mkReader (mkFraction 1 2) 960 0 0 (mkFraction 1 4)
           (Some (mkMeasure (mkFraction 0 1))) 0 false.

Definition tiny_step : Loc.Location :=
  Loc.mkLocation 0 (mkFraction 1 7680) 0 true.

End Cursor.

Module CursorFacts.
Import Qt Frac FracFacts Cursor.

Lemma location_fields b r :
  location b r =
  Loc.mkLocation (track r)
    (if pasteMode r || b then tick r else rtick r)
    (if pasteMode r || b then 0 else currentMeasureIndex r) false.
Proof. reflexivity. Qed.

Lemma rtick_wf r m :
  _curMeasure r = Some m -> wf (_tick r) -> wf (m_tick m) -> wf (rtick r).
Proof. unfold rtick. intros -> ? ?. by apply sub_wf. Qed.

(** The self-call of [setLocation] is made on an absolute location, so two
    levels of fuel are what any call needs. *)
Lemma setLocation_depth division asserts k l r :
  setLocation division asserts (S (S k)) l r = setLocation division asserts 2 l r
  /\ setLocation division asserts 2 l r <> Fault OutOfFuel.
Proof.
assert (Habs : forall l' r', setLocationAbsolute division asserts l' r'
                             <> Fault OutOfFuel).
{ intros l' r'. unfold setLocationAbsolute.
  repeat (case_match; try done). }
simpl. destruct (Loc.isRelative l) eqn:Hrel; [|by split].
destruct (fastPathTaken division l r); [by split|].
unfold Loc.toAbsolute. rewrite Hrel.
destruct k; simpl; by split.
Qed.

(** An absolute [setLocation] leaves a settled cursor behind. *)
Lemma setLocationAbsolute_settled division asserts l r r' :
  wf (Loc.frac l) -> wf (_tickOffset r) ->
  (forall m, _curMeasure r = Some m -> wf (m_tick m)) ->
  setLocationAbsolute division asserts l r = Done r' ->
  settled division r'.
Proof.
intros Hl Hoff Hm. unfold setLocationAbsolute, settled, mirror.
destruct r as [t it tr tro off cm idx pm]. simpl in *.
assert (Hx : wf (sub (Loc.frac l) off)) by by apply sub_wf.
pose proof (reduced_canonical _ Hx) as Hc.
destruct pm; simpl.
- intros [= <-]. simpl. by split.
- destruct (asserts && negb (Loc.measure l =? idx)); [done|].
  destruct cm as [m|]; [|done].
  specialize (Hm m eq_refl).
  intros [= <-]. unfold incTick, rtick. simpl.
  set (x := reduced (sub (Loc.frac l) off)) in *.
  assert (Hsum : wf (add x (m_tick m)))
    by (apply add_wf; [by apply canonical_wf | done]).
  split; [by apply reduced_canonical|].
  f_equal. f_equal. symmetry. apply reduced_of_equiv; [done| |].
  + apply sub_wf; [|done]. apply canonical_wf. by apply reduced_canonical.
  + eapply equiv_trans; [exact (sub_wf _ _ Hsum Hm)| |apply add_sub_cancel].
    apply sub_equiv_l. by apply reduced_equiv.
Qed.

(** C2, as the code has it: in paste mode, or outside it with a current
    measure and a zero tick offset, [setLocation(location())] succeeds and
    leaves track, current measure and the value of tick as they were; the
    tick is the same pair when it was in lowest terms. *)
Theorem setLocation_location_noop division asserts fuel r :
  anchored r ->
  exists r',
    setLocation division asserts (S fuel) (location false r) r = Done r' /\
    equiv (_tick r') (_tick r) /\
    (canonical (_tick r) -> _tick r' = _tick r) /\
    _track r' = _track r /\
    _curMeasure r' = _curMeasure r /\
    _curMeasureIdx r' = _curMeasureIdx r /\
    _pasteMode r' = _pasteMode r.
Proof.
intros (Ht & Hoff & Hmode).
rewrite location_fields. cbn [setLocation Loc.isRelative].
unfold setLocationAbsolute, setTick, incTick, track, tick, rtick, pasteMode,
  currentMeasure, currentMeasureIndex.
destruct r as [t it tr tro off cm idx pm]. simpl in *.
destruct Hmode as [-> | (m & -> & Hm & Hz)].
- simpl.
  assert (Hx : wf (sub (add t off) off))
    by (apply sub_wf; [by apply add_wf | done]).
  assert (He : equiv (reduced (sub (add t off) off)) t).
  { eapply equiv_trans; [exact Hx | by apply reduced_equiv |].
    apply add_sub_cancel. }
  eexists. split; [reflexivity|]. simpl.
  split; [done|]. split; [|repeat split; try reflexivity; lia].
  intros Hc. apply canonical_unique; [by apply reduced_canonical | done | done].
- destruct pm; simpl.
  + assert (Hx : wf (sub (add t off) off))
      by (apply sub_wf; [by apply add_wf | done]).
    assert (He : equiv (reduced (sub (add t off) off)) t).
    { eapply equiv_trans; [exact Hx | by apply reduced_equiv |].
      apply add_sub_cancel. }
    eexists. split; [reflexivity|]. simpl.
    split; [done|]. split; [|repeat split; try reflexivity; lia].
    intros Hc. apply canonical_unique; [by apply reduced_canonical | done | done].
  + rewrite Z.eqb_refl, andb_false_r.
    eexists. split; [reflexivity|]. simpl.
    set (rt := sub t (m_tick m)).
    assert (Hrt : wf rt) by by apply sub_wf.
    assert (Hx : wf (sub rt off)) by by apply sub_wf.
    assert (Hsum : wf (add (reduced (sub rt off)) (m_tick m))).
    { apply add_wf; [|done]. apply canonical_wf. by apply reduced_canonical. }
    assert (He : equiv (reduced (add (reduced (sub rt off)) (m_tick m))) t).
    { eapply equiv_trans; [exact Hsum | by apply reduced_equiv |].
      eapply equiv_trans; [exact (add_wf _ _ Hrt Hm) | | apply sub_add_cancel].
      apply add_equiv_l.
      eapply equiv_trans; [exact Hx | by apply reduced_equiv |].
      by apply sub_zero. }
    split; [done|]. split; [|repeat split; try reflexivity; lia].
    intros Hc. apply canonical_unique; [by apply reduced_canonical | done | done].
Qed.

Lemma setLocation_location_noop_witness :
  anchored start_of_paste /\
  setLocation 480 true 1 (location false start_of_paste) start_of_paste
  = Done start_of_paste.
Proof.
assert (Ha : anchored start_of_paste).
{ unfold anchored, wf, start_of_paste. simpl.
  split; [lia|]. split; [lia|]. by left. }
split; [exact Ha|].
destruct (setLocation_location_noop 480 true 0 start_of_paste Ha)
  as (r' & Hr & _).
rewrite Hr. apply eq_sym. exact Hr.
Defined.

(** C2 as stated fails outside paste mode.  On a reader that has no
    current measure the call follows the null [currentMeasure()]; with a
    tick offset of 1/4, the cursor at tick 1/2 in a measure starting at 0 is
    moved to tick 1/4. *)
Lemma setLocation_location_moves_tick :
  setLocation 480 true 2 (location false fresh_reader) fresh_reader
  = Fault NullMeasure /\
  exists r',
    setLocation 480 true 2 (location false offset_outside_paste)
      offset_outside_paste = Done r' /\
    _tick offset_outside_paste = mkFraction 1 2 /\
    _tick r' = mkFraction 1 4 /\
    eqb (_tick r') (_tick offset_outside_paste) = false.
Proof. split; [reflexivity|]. eexists. repeat split; reflexivity. Qed.

(** A relative location that moves the track only. *)
Definition next_voice : Loc.Location :=
  Loc.mkLocation 1 (mkFraction 0 1) 0 true.

(** On a settled, anchored cursor a relative location with a zero time
    offset ends in the same state on either path. *)
Lemma zero_offset_paths_agree division asserts k l r :
  Loc.isRelative l = true ->
  wf (Loc.frac l) -> numerator (Loc.frac l) = 0 ->
  (_pasteMode r = false -> Loc.measure l = 0) ->
  anchored r -> settled division r ->
  slowPath division asserts (S k) l r = Done (fastPath division l r).
Proof.
intros Hrel Hl Hz Hmeas (Ht & Hoff & Hmode) (Hc & Hmir).
{ unfold slowPath, fastPath. rewrite location_fields.
  unfold Loc.toAbsolute. rewrite Hrel.
  cbn [setLocation Loc.isRelative Loc.track Loc.frac Loc.measure].
  unfold setLocationAbsolute, setTick, incTick, mirror, track, tick, rtick,
    pasteMode, currentMeasure, currentMeasureIndex in *.
  destruct r as [t it tr tro off cm idx pm]. simpl in *.
  rewrite (ticks_zero division _ Hl Hz), Z.add_0_r.
  destruct pm; simpl.
  - assert (Hx : reduced (sub (add (Loc.frac l) (add t off)) off) = t).
    { apply reduced_of_equiv; [done| |].
      - apply sub_wf; [|done]. apply add_wf; [done|]. by apply add_wf.
      - unfold equiv. simpl. rewrite Hz. ring. }
    rewrite Hx. unfold set_tick, setTrack. simpl. by rewrite Hmir.
  - destruct Hmode as [? | (m & -> & Hm & Hoz)]; [done|].
    rewrite (Hmeas eq_refl), Z.add_0_l, Z.eqb_refl, andb_false_r.
    set (rt := sub t (m_tick m)) in *.
    assert (Hrt : wf rt) by by apply sub_wf.
    assert (Hx : reduced (sub (add (Loc.frac l) rt) off) = reduced rt).
    { apply reduced_of_equiv; [by apply reduced_canonical| |].
      - apply sub_wf; [|done]. by apply add_wf.
      - eapply equiv_trans; [exact Hrt| |apply equiv_sym; by apply reduced_equiv].
        unfold equiv. simpl. rewrite Hz, Hoz. ring. }
    rewrite Hx. unfold set_tick, setTrack. simpl.
    assert (Hback : reduced (add (reduced rt) (m_tick m)) = t).
    { apply reduced_of_equiv; [done| |].
      - apply add_wf; [|done]. apply canonical_wf. by apply reduced_canonical.
      - eapply equiv_trans; [exact (add_wf _ _ Hrt Hm)| |apply sub_add_cancel].
        apply add_equiv_l. by apply reduced_equiv. }
    rewrite Hback, <- Hmir. reflexivity. }
Qed.

(** A cursor whose tick is one tick ahead of its integer mirror, and
    relative steps of one tick and of a quarter note. *)
Definition mirror_behind : XmlReader :=
  mkReader (mkFraction 1 1920) 0 0 2 (mkFraction 0 1) None 0 true.

Definition one_tick_step : Loc.Location :=
  Loc.mkLocation 1 (mkFraction 1 1920) 0 true.

Definition quarter_step : Loc.Location :=
  Loc.mkLocation 0 (mkFraction 1 4) 0 true.

(** C3, as the code has it, for a relative location.  When [_tick] equals
    [fromTicks(_intTick + intTicks)] the early return is taken: [_tick]
    stays, [_intTick] grows by the integer delta and the track becomes the
    converted track less the track offset.  Otherwise the result is that
    of the absolute branch on the location made absolute.  On a settled,
    anchored cursor and with a zero time offset both give the same state.
    The self-call is made on an absolute location, so for every input the
    recursion is one level deep. *)
Theorem fast_path_agrees_with_slow_path division asserts k l r :
  Loc.isRelative l = true ->
  let intTicks := ticks division (Loc.frac l) in
  let fast :=
    mkReader (_tick r) (_intTick r + intTicks)
             (Loc.track l + track r - _trackOffset r)
             (_trackOffset r) (_tickOffset r) (_curMeasure r)
             (_curMeasureIdx r) (_pasteMode r) in
  let newLoc :=
    Loc.mkLocation (Loc.track l + track r)
      (add (Loc.frac l) (if _pasteMode r then tick r else rtick r))
      (Loc.measure l + (if _pasteMode r then 0 else _curMeasureIdx r))
      false in
  (eqb (_tick r) (fromTicks division (_intTick r + intTicks)) = true ->
     setLocation division asserts (S k) l r = Done fast) /\
  (eqb (_tick r) (fromTicks division (_intTick r + intTicks)) = false ->
     setLocation division asserts (S (S k)) l r
     = setLocationAbsolute division asserts newLoc r) /\
  (wf (Loc.frac l) -> numerator (Loc.frac l) = 0 ->
   (_pasteMode r = false -> Loc.measure l = 0) ->
   anchored r -> settled division r ->
     setLocationAbsolute division asserts newLoc r = Done fast /\
     setLocation division asserts (S (S k)) l r = Done fast) /\
  (forall k' l' r',
     setLocation division asserts (S (S k')) l' r'
     = setLocation division asserts 2 l' r' /\
     setLocation division asserts 2 l' r' <> Fault OutOfFuel).
Proof.
intros Hrel intTicks fast newLoc.
assert (Hfast : fastPath division l r = fast).
{ unfold fastPath, Loc.toAbsolute. rewrite Hrel. reflexivity. }
assert (Hnew : Loc.toAbsolute l (location false r) = newLoc).
{ unfold Loc.toAbsolute. rewrite Hrel, location_fields.
  by rewrite orb_false_r. }
assert (Htrue : eqb (_tick r) (fromTicks division (_intTick r + intTicks)) = true ->
                forall n, setLocation division asserts (S n) l r = Done fast).
{ intros Htest n. cbn [setLocation]. rewrite Hrel. unfold fastPathTaken.
  fold intTicks. by rewrite Htest, Hfast. }
assert (Hfalse : eqb (_tick r) (fromTicks division (_intTick r + intTicks)) = false ->
                 setLocation division asserts (S (S k)) l r
                 = setLocationAbsolute division asserts newLoc r).
{ intros Htest. cbn [setLocation]. rewrite Hrel. unfold fastPathTaken.
  fold intTicks. by rewrite Htest, Hnew. }
split; [intros Htest; by apply Htrue|]. split; [exact Hfalse|].
split; [|intros; apply setLocation_depth].
intros Hl Hz Hmeas Ha Hs.
pose proof (zero_offset_paths_agree division asserts 0 l r Hrel Hl Hz Hmeas Ha Hs)
  as Hslow.
unfold slowPath in Hslow. rewrite Hnew, Hfast in Hslow. cbn [setLocation] in Hslow.
simpl in Hslow. split; [exact Hslow|].
destruct (eqb (_tick r) (fromTicks division (_intTick r + intTicks))) eqn:Htest.
- by apply Htrue.
- by rewrite Hfalse.
Qed.

(** In paste mode the condition on the time offset cannot be dropped:
    where the two paths agree, the relative time offset is zero. *)
Lemma fast_path_agreement_needs_zero_offset division asserts k l r :
  Loc.isRelative l = true -> wf (Loc.frac l) ->
  _pasteMode r = true -> wf (_tick r) -> wf (_tickOffset r) ->
  slowPath division asserts (S k) l r = Done (fastPath division l r) ->
  numerator (Loc.frac l) = 0.
Proof.
intros Hrel Hl Hpm Ht Hoff.
unfold slowPath, fastPath. rewrite location_fields.
unfold Loc.toAbsolute. rewrite Hrel.
cbn [setLocation Loc.isRelative Loc.track Loc.frac Loc.measure].
unfold setLocationAbsolute, setTick, track, tick, pasteMode.
destruct r as [t it tr tro off cm idx pm]. simpl in *. subst pm. simpl.
intros [= Htick _].
set (x := sub (add (Loc.frac l) (add t off)) off) in *.
assert (Hx : wf x).
{ apply sub_wf; [|done]. apply add_wf; [done|]. by apply add_wf. }
pose proof (reduced_equiv x Hx) as He. rewrite Htick in He.
unfold equiv, x, wf in *. simpl in *.
assert (Hz : numerator (Loc.frac l) *
             (denominator t * denominator t * denominator off * denominator off)
             = 0) by lia.
apply Z.mul_eq_0 in Hz as [Hz | Hz]; [done|].
assert (0 < denominator t * denominator t * denominator off * denominator off)
  by (repeat apply Z.mul_pos_pos; done).
lia.
Qed.

Lemma fast_path_agrees_with_slow_path_witness :
  setLocation 480 true 1 one_tick_step mirror_behind
  = Done (mkReader (mkFraction 1 1920) 1 1 2 (mkFraction 0 1) None 0 true) /\
  setLocation 480 true 2 quarter_step start_of_paste
  = Done (mkReader (mkFraction 1 4) 480 0 0 (mkFraction 0 1) None 0 true) /\
  setLocation 480 true 2 next_voice start_of_paste
  = Done (mkReader (mkFraction 0 1) 0 1 0 (mkFraction 0 1) None 0 true).
Proof.
assert (Ha : anchored start_of_paste).
{ unfold anchored, wf, start_of_paste. simpl.
  split; [lia|]. split; [lia|]. by left. }
assert (Hs : settled 480 start_of_paste).
{ unfold settled, canonical, start_of_paste. simpl.
  split; [split; [lia | reflexivity] | reflexivity]. }
split; [|split].
- exact (proj1 (fast_path_agrees_with_slow_path 480 true 0 one_tick_step
                  mirror_behind eq_refl) eq_refl).
- exact (proj1 (proj2 (fast_path_agrees_with_slow_path 480 true 0 quarter_step
                         start_of_paste eq_refl)) eq_refl).
- refine (proj2 (proj1 (proj2 (proj2
            (fast_path_agrees_with_slow_path 480 true 0 next_voice
               start_of_paste eq_refl))) _ eq_refl _ Ha Hs)).
  + unfold wf. simpl. lia.
  + discriminate.
Defined.

(** C3 as stated fails: at the start of a paste, a relative step of 1/7680
    is zero integer ticks, so the early return is taken and the tick stays
    0; the self-call on the absolute location would move it to 1/7680. *)
Lemma fast_path_differs_from_slow_path :
  Loc.isRelative tiny_step = true /\
  settled 480 start_of_paste /\
  fastPathTaken 480 tiny_step start_of_paste = true /\
  setLocation 480 true 2 tiny_step start_of_paste
  = Done (fastPath 480 tiny_step start_of_paste) /\
  _tick (fastPath 480 tiny_step start_of_paste) = mkFraction 0 1 /\
  exists r', slowPath 480 true 1 tiny_step start_of_paste = Done r' /\
             _tick r' = mkFraction 1 7680 /\
             r' <> fastPath 480 tiny_step start_of_paste.
Proof.
split; [reflexivity|]. split.
{ unfold settled, canonical, start_of_paste. simpl.
  split; [split; [lia | reflexivity] | reflexivity]. }
split; [reflexivity|]. split; [reflexivity|]. split; [reflexivity|].
eexists. split; [reflexivity|]. split; [reflexivity|]. discriminate.
Qed.

End CursorFacts.

(** ** The connector pool (xmlreader.cpp, lines 41-55 and 578-684)

    Fragments ([ConnectorInfoReader] objects) and the engraving items they
    hold live in two stores; [_connectors] and [_pendingConnectors] are the
    vectors of owning pointers, as lists of handles. *)
Module Connectors.
Import Qt.

Definition handle := positive.
Definition item := positive.

(** Modelled from the spec: class [ConnectorInfoReader]
    (libmscore/connector.h) is not part of xmlreader.cpp.  A fragment has a
    grouping id, a role, an anchor, non-owning links to its neighbours in
    the chain, and the connector item it holds until it is released. *)
Inductive Role : Type := StartRole | EndRole.

#[global] Instance Role_eq_dec : EqDecision Role.
Proof. solve_decision. Defined.

Record ConnectorInfoReader : Type := mkFragment {
  id : Z;
  role : Role;
  anchorTrack : Z;
  anchorTick : Z;
  prev : option handle;
  next : option handle;
  connector : option item
}.

(** What the destructor asks of an [EngravingItem]. *)
Record EngravingItem : Type := mkItem { isTuplet : bool }.

Abbreviation Fragments := (gmap handle ConnectorInfoReader).
Abbreviation Items := (gmap item EngravingItem).

Record Session : Type := mkSession {
  heap : Fragments;
  items : Items;
  _connectors : list handle;
  _pendingConnectors : list handle;
  score : list (handle * bool);
  pasteMode : bool
}.

Definition set_heap (h : Fragments) (s : Session) : Session :=
  mkSession h (items s) (_connectors s) (_pendingConnectors s) (score s)
            (pasteMode s).

Definition set_items (i : Items) (s : Session) : Session :=
  mkSession (heap s) i (_connectors s) (_pendingConnectors s) (score s)
            (pasteMode s).

Definition set_connectors (cs : list handle) (s : Session) : Session :=
  mkSession (heap s) (items s) cs (_pendingConnectors s) (score s)
            (pasteMode s).


Definition log_score (c : handle) (paste : bool) (s : Session) : Session :=
  mkSession (heap s) (items s) (_connectors s) (_pendingConnectors s)
            (score s ++ [(c, paste)]) (pasteMode s).

(** What stops an operation: a pointer to a destroyed fragment or item is
    followed, or a walk along the links does not end. *)
Inductive fault : Type :=
| DanglingFragment (c : handle)
| DanglingItem (i : item)
| Diverges.

Inductive res (A : Type) : Type :=
| Ok (a : A)
| Err (f : fault).
Arguments Ok {A} a.
Arguments Err {A} f.

#[global] Instance res_ret : MRet res := fun A a => Ok a.
#[global] Instance res_bind : MBind res := fun A B k m =>
  match m with Ok a => k a | Err f => Err f end.

Definition fragment (h : Fragments) (c : handle) : res ConnectorInfoReader :=
  match h !! c with Some f => Ok f | None => Err (DanglingFragment c) end.

Definition set_prev (p : option handle) (f : ConnectorInfoReader)
    : ConnectorInfoReader :=
  mkFragment (id f) (role f) (anchorTrack f) (anchorTick f) p (next f)
             (connector f).

Definition set_next (n : option handle) (f : ConnectorInfoReader)
    : ConnectorInfoReader :=
  mkFragment (id f) (role f) (anchorTrack f) (anchorTick f) (prev f) n
             (connector f).

Definition set_connector (i : option item) (f : ConnectorInfoReader)
    : ConnectorInfoReader :=
  mkFragment (id f) (role f) (anchorTrack f) (anchorTick f) (prev f) (next f) i.

(** Modelled from the spec: [releaseConnector()] hands the held item over
    and leaves the fragment "raw", holding nothing. *)
Definition releaseConnector (c : handle) (s : Session)
    : res (option item * Session) :=
  f ← fragment (heap s) c;
  mret (connector f, set_heap (<[c := set_connector None f]> (heap s)) s).

(** [delete conn]: nothing for a null pointer, the end of a live item. *)
Definition delete_item (conn : option item) (s : Session) : res Session :=
  match conn with
  | None => mret s
  | Some i =>
      match items s !! i with
      | Some _ => mret (set_items (delete i (items s)) s)
      | None => Err (DanglingItem i)
      end
  end.

(** The body of the first loop of [~XmlReader], for one fragment. *)
Definition release_active (c : handle) (s : Session) : res Session :=
  '(conn, s) ← releaseConnector c s;
  match conn with
  | None => mret s
  | Some i =>
      match items s !! i with
      | None => Err (DanglingItem i)
      | Some e => if negb (isTuplet e) then delete_item conn s else mret s
      end
  end.

(** The body of the second loop. *)
Definition release_pending (c : handle) (s : Session) : res Session :=
  '(conn, s) ← releaseConnector c s;
  delete_item conn s.

Fixpoint for_each (body : handle -> Session -> res Session)
    (cs : list handle) (s : Session) : res Session :=
  match cs with
  | [] => mret s
  | c :: cs' => s ← body c s; for_each body cs' s
  end.

(** [XmlReader::~XmlReader], up to the destruction of the members. *)
Definition destructor (s : Session) : res Session :=
  if negb (bool_decide (_connectors s = []))
     || negb (bool_decide (_pendingConnectors s = []))
  then
    s ← for_each release_active (_connectors s) s;
    for_each release_pending (_pendingConnectors s) s
  else mret s.

End Connectors.

(** *** The destructor *)
Module DestructorFacts.
Import Connectors.

(** Fragment [c] is alive and holds item [i]. *)
Definition holds (h : Fragments) (c : handle) (i : item) : Prop :=
  exists f, h !! c = Some f /\ connector f = Some i.

(** The fragments in [cs] are alive, the items they hold are alive, and no
    item is held twice. *)
Record owned (cs : list handle) (s : Session) : Prop := mkOwned {
  owned_nodup : NoDup cs;
  owned_alive : forall c, c ∈ cs -> is_Some (heap s !! c);
  owned_items : forall c i, c ∈ cs -> holds (heap s) c i -> is_Some (items s !! i);
  owned_once : forall c1 c2 i, c1 ∈ cs -> c2 ∈ cs ->
    holds (heap s) c1 i -> holds (heap s) c2 i -> c1 = c2
}.

(** Both loop bodies: release, then delete what [del] selects. *)
Definition release_and (del : EngravingItem -> bool) (c : handle)
    (s : Session) : res Session :=
  match heap s !! c with
  | None => Err (DanglingFragment c)
  | Some f =>
      let s' := set_heap (<[c := set_connector None f]> (heap s)) s in
      match connector f with
      | None => Ok s'
      | Some i =>
          match items s !! i with
          | None => Err (DanglingItem i)
          | Some e => if del e then Ok (set_items (delete i (items s)) s')
                      else Ok s'
          end
      end
  end.

Lemma release_active_eq c s :
  release_active c s = release_and (fun e => negb (isTuplet e)) c s.
Proof.
unfold release_active, release_and, releaseConnector, fragment.
destruct (heap s !! c) as [f|]; simpl; [|done].
destruct (connector f) as [i|]; simpl; [|done].
destruct (items s !! i) as [e|]; simpl; [|done].
destruct (isTuplet e); simpl; [done|].
unfold delete_item. simpl. by destruct (items s !! i).
Qed.

Lemma release_pending_eq c s :
  release_pending c s = release_and (fun _ => true) c s.
Proof.
unfold release_pending, release_and, releaseConnector, fragment.
destruct (heap s !! c) as [f|]; simpl; [|done].
destruct (connector f) as [i|]; simpl; [|done].
by destruct (items s !! i).
Qed.

(** What one loop does to the two stores. *)
Record released (del : EngravingItem -> bool) (cs : list handle)
    (s s' : Session) : Prop := mkReleased {
  rel_in : forall c, c ∈ cs ->
    exists f, heap s !! c = Some f /\ heap s' !! c = Some (set_connector None f);
  rel_out : forall c, c ∉ cs -> heap s' !! c = heap s !! c;
  rel_held : forall c i e, c ∈ cs -> holds (heap s) c i ->
    items s !! i = Some e ->
    items s' !! i = if del e then None else Some e;
  rel_other : forall i, (forall c, c ∈ cs -> ~ holds (heap s) c i) ->
    items s' !! i = items s !! i;
  rel_lists : _connectors s' = _connectors s /\
              _pendingConnectors s' = _pendingConnectors s /\
              score s' = score s /\ pasteMode s' = pasteMode s
}.

Lemma for_each_released del body cs s :
  (forall c s, body c s = release_and del c s) ->
  owned cs s ->
  exists s', for_each body cs s = Ok s' /\ released del cs s s'.
Proof.
intros Hbody. revert s.
induction cs as [|c cs IH]; intros s [Hnd Halive Hitems Honce].
- exists s. split; [done|].
  split; try done; intros c; intros; exfalso; by eapply not_elem_of_nil.
- apply NoDup_cons in Hnd as [Hc Hnd].
  destruct (Halive c) as [f Hf]; [left|].
  simpl. rewrite Hbody. unfold release_and. rewrite Hf.
  set (h1 := <[c := set_connector None f]> (heap s)).
  (* the state after the body, in the three possible shapes *)
  assert (Hstep : exists s1,
    match connector f with
    | None => Ok (set_heap h1 s)
    | Some i =>
        match items s !! i with
        | None => Err (DanglingItem i)
        | Some e => if del e then Ok (set_items (delete i (items s)) (set_heap h1 s))
                    else Ok (set_heap h1 s)
        end
    end = Ok s1 /\ heap s1 = h1 /\
    (forall i, items s1 !! i =
       match connector f with
       | Some j => if decide (i = j)
                   then match items s !! i with
                        | Some e => if del e then None else Some e
                        | None => None
                        end
                   else items s !! i
       | None => items s !! i
       end) /\
    _connectors s1 = _connectors s /\
    _pendingConnectors s1 = _pendingConnectors s /\
    score s1 = score s /\ pasteMode s1 = pasteMode s).
  { destruct (connector f) as [j|] eqn:Hj.
    - destruct (Hitems c j) as [e He]; [left | by exists f |].
      rewrite He. destruct (del e) eqn:Hdel.
      + eexists. split; [done|]. split; [done|]. split; [|done].
        intros i. simpl. destruct (decide (i = j)) as [->|].
        * by rewrite lookup_delete_eq, He, Hdel.
        * by rewrite lookup_delete_ne.
      + eexists. split; [done|]. split; [done|]. split; [|done].
        intros i. simpl. destruct (decide (i = j)) as [->|]; [|done].
        by rewrite He, Hdel.
    - eexists. split; [done|]. split; [done|]. by split. }
  destruct Hstep as (s1 & -> & Hh1 & Hi1 & Hl1). simpl.
  assert (Hsame : forall c', c' ∈ cs -> heap s1 !! c' = heap s !! c').
  { intros c' Hc'. rewrite Hh1. unfold h1. apply lookup_insert_ne.
    intros ->. done. }
  assert (Hnot : forall c' i, c' ∈ cs -> holds (heap s) c' i ->
                              connector f <> Some i).
  { intros c' i Hc' Hh Hfi. assert (c = c'); [|by subst].
    apply (Honce c c' i); [left | by right | by exists f | done]. }
  destruct (IH s1) as (s' & Hs' & [Rin Rout Rheld Rother Rlists]).
  { split; [done| | |].
    - intros c' Hc'. rewrite Hsame by done. apply Halive. by right.
    - intros c' i Hc' (f' & Hf' & Hfi). rewrite Hsame in Hf' by done.
      assert (Hh : holds (heap s) c' i) by by exists f'.
      rewrite Hi1. pose proof (Hnot c' i Hc' Hh) as Hne.
      destruct (connector f) as [j|]; [|apply (Hitems c'); [by right|done]].
      destruct (decide (i = j)) as [->|]; [done|].
      apply (Hitems c'); [by right|done].
    - intros c1 c2 i H1 H2 (f1 & Hf1 & Hc1) (f2 & Hf2 & Hc2).
      rewrite Hsame in Hf1, Hf2 by done.
      apply (Honce c1 c2 i); [by right | by right | by exists f1 | by exists f2]. }
  exists s'. split; [done|]. split.
  + intros c' Hc'. apply elem_of_cons in Hc' as [-> | Hc'].
    * exists f. split; [done|]. rewrite Rout by done.
      rewrite Hh1. unfold h1. by rewrite lookup_insert_eq.
    * destruct (Rin c' Hc') as (f' & Hf' & Hr). exists f'.
      split; [by rewrite <- Hsame | done].
  + intros c' Hc'. apply not_elem_of_cons in Hc' as [Hne Hc'].
    rewrite Rout by done. rewrite Hh1. unfold h1. by rewrite lookup_insert_ne.
  + intros c' i e Hc' (f' & Hf' & Hfi) He.
    apply elem_of_cons in Hc' as [-> | Hc'].
    * simplify_eq. rewrite Rother.
      -- rewrite Hi1, Hfi. rewrite decide_True by done. by rewrite He.
      -- intros c2 Hc2 (f2 & Hf2 & Hc2i). rewrite Hsame in Hf2 by done.
         apply (Hnot c2 i Hc2); [by exists f2 | done].
    * assert (Hh : holds (heap s) c' i) by by exists f'.
      apply (Rheld c'); [done | |].
      -- exists f'. split; [by rewrite Hsame | done].
      -- rewrite Hi1. pose proof (Hnot c' i Hc' Hh) as Hne.
         destruct (connector f) as [j|]; [|done].
         destruct (decide (i = j)) as [->|]; done.
  + intros i Hi. rewrite Rother.
    * rewrite Hi1. destruct (connector f) as [j|] eqn:Hj; [|done].
      destruct (decide (i = j)) as [->|]; [|done].
      exfalso. apply (Hi c); [left | by exists f].
    * intros c2 Hc2 (f2 & Hf2 & Hc2i). rewrite Hsame in Hf2 by done.
      apply (Hi c2); [by right | by exists f2].
  + destruct Rlists as (-> & -> & -> & ->). done.
Qed.

Lemma owned_app_l cs1 cs2 s : owned (cs1 ++ cs2) s -> owned cs1 s.
Proof.
intros [Hnd Ha Hi Ho]. apply NoDup_app in Hnd as (Hnd & _ & _).
split; [done| | |].
- intros c Hc. apply Ha. apply elem_of_app. by left.
- intros c i Hc. apply Hi. apply elem_of_app. by left.
- intros c1 c2 i H1 H2. apply Ho; apply elem_of_app; by left.
Qed.

Lemma destructor_loops s :
  destructor s =
  (s1 ← for_each release_active (_connectors s) s;
   for_each release_pending (_pendingConnectors s1) s1).
Proof.
unfold destructor.
destruct (_connectors s) eqn:E1, (_pendingConnectors s) eqn:E2; simpl; try done.
by rewrite E2.
Qed.

(** A tuplet held by a fragment that is still pending. *)
Definition pending_tuplet : Session :=
  mkSession {[ 1%positive := mkFragment 5 StartRole 0 10 None None (Some 7%positive) ]}
            {[ 7%positive := mkItem true ]}
            [] [1%positive] [] false.

(** C6 on the code: when the session ends, every fragment left in either
    vector is released, and an item released from [_connectors] is deleted
    unless it is a tuplet, as the claim has it; but an item released from
    [_pendingConnectors] is deleted whatever it is, a tuplet included. *)
Theorem destructor_releases s :
  owned (_connectors s ++ _pendingConnectors s) s ->
  exists s',
    destructor s = Ok s' /\
    (forall c, c ∈ _connectors s ++ _pendingConnectors s ->
       exists f, heap s' !! c = Some f /\ connector f = None) /\
    (forall c i e, c ∈ _connectors s -> holds (heap s) c i ->
       items s !! i = Some e ->
       items s' !! i = if isTuplet e then Some e else None) /\
    (forall c i, c ∈ _pendingConnectors s -> holds (heap s) c i ->
       items s' !! i = None).
Proof.
intros Hown. rewrite destructor_loops.
destruct (for_each_released _ _ _ s release_active_eq (owned_app_l _ _ _ Hown))
  as (s1 & Hs1 & [Rin Rout Rheld Rother (Hc1 & Hp1 & _)]).
rewrite Hs1. simpl.
destruct Hown as [Hnd Ha Hi Ho].
apply NoDup_app in Hnd as (Hnd1 & Hdisj & Hnd2).
assert (Hkeep : forall c, c ∈ _pendingConnectors s ->
                  heap s1 !! c = heap s !! c).
{ intros c Hc. apply Rout. intros Hc'. by apply (Hdisj c). }
assert (Hapart : forall c c' i, c ∈ _connectors s ->
                   c' ∈ _pendingConnectors s ->
                   holds (heap s) c i -> holds (heap s) c' i -> False).
{ intros c c' i Hc Hc' Hh Hh'. apply (Hdisj c Hc). replace c with c'; [done|].
  apply (Ho c' c i); [apply elem_of_app; by right
                     |apply elem_of_app; by left|done|done]. }
assert (Hfree : forall c i, c ∈ _pendingConnectors s ->
                  holds (heap s) c i -> items s1 !! i = items s !! i).
{ intros c i Hc Hh. apply Rother. intros c' Hc' Hh'. by apply (Hapart c' c i). }
assert (Hown1 : owned (_pendingConnectors s1) s1).
{ rewrite Hp1. split; [done| | |].
  - intros c Hc. rewrite Hkeep by done. apply Ha, elem_of_app. by right.
  - intros c i Hc (f & Hf & Hfi). rewrite Hkeep in Hf by done.
    assert (Hh : holds (heap s) c i) by by exists f.
    rewrite (Hfree c i) by done.
    apply (Hi c); [apply elem_of_app; by right | done].
  - intros c1 c2 i H1 H2 (f1 & Hf1 & Hg1) (f2 & Hf2 & Hg2).
    rewrite Hkeep in Hf1, Hf2 by done.
    apply (Ho c1 c2 i); [apply elem_of_app; by right | apply elem_of_app; by right
                        | by exists f1 | by exists f2]. }
destruct (for_each_released (fun _ => true) _ _ s1 release_pending_eq Hown1)
  as (s2 & Hs2 & [Pin Pout Pheld Pother _]).
rewrite Hp1 in *. exists s2. split; [done|]. split; [|split].
- intros c Hc. apply elem_of_app in Hc as [Hc|Hc].
  + destruct (Rin c Hc) as (f & Hf & Hr). exists (set_connector None f).
    split; [|done]. rewrite Pout; [done|]. intros Hc'. by apply (Hdisj c).
  + destruct (Pin c Hc) as (f & Hf & Hr). exists (set_connector None f).
    by split.
- intros c i e Hc Hh He. rewrite Pother.
  + rewrite (Rheld c i e Hc Hh He). by destruct (isTuplet e).
  + intros c' Hc' (f' & Hf' & Hg'). rewrite Hkeep in Hf' by done.
    apply (Hapart c c' i); [done | done | done | by exists f'].
- intros c i Hc Hh.
  destruct (Hi c i) as [e He]; [apply elem_of_app; by right | done |].
  rewrite (Pheld c i e Hc); [done | | by rewrite (Hfree c i)].
  destruct Hh as (f & Hf & Hg). exists f. split; [by rewrite Hkeep | done].
Qed.

(** A slur and a tuplet held by active fragments, and a second tuplet
    held by a fragment that is still pending. *)
Definition leftover_tuplets : Session :=
  mkSession {[ 1%positive := mkFragment 5 StartRole 0 10 None None (Some 7%positive);
               2%positive := mkFragment 6 StartRole 0 20 None None (Some 8%positive);
               3%positive := mkFragment 7 StartRole 0 30 None None (Some 9%positive) ]}
            {[ 7%positive := mkItem false; 8%positive := mkItem true;
               9%positive := mkItem true ]}
            [1%positive; 2%positive] [3%positive] [] false.

Lemma destructor_releases_witness :
  items leftover_tuplets !! 8%positive = Some (mkItem true) /\
  items leftover_tuplets !! 9%positive = Some (mkItem true) /\
  exists s', destructor leftover_tuplets = Ok s' /\
             items s' !! 7%positive = None /\
             items s' !! 8%positive = Some (mkItem true) /\
             items s' !! 9%positive = None.
Proof.
assert (Hown : owned (_connectors leftover_tuplets
                        ++ _pendingConnectors leftover_tuplets)
                     leftover_tuplets).
{ split.
  - apply (bool_decide_unpack _). vm_compute. exact I.
  - intros c Hc. simpl in Hc.
    repeat (apply elem_of_cons in Hc as [-> | Hc]; [eexists; reflexivity|]).
    by apply elem_of_nil in Hc.
  - intros c i Hc (f & Hf & Hfi). simpl in Hc.
    repeat (apply elem_of_cons in Hc as [-> | Hc];
      [vm_compute in Hf; simplify_eq; simpl in Hfi; simplify_eq;
       eexists; reflexivity|]).
    by apply elem_of_nil in Hc.
  - intros c1 c2 i H1 H2 (f1 & Hf1 & Hg1) (f2 & Hf2 & Hg2). simpl in H1, H2.
    repeat (apply elem_of_cons in H1 as [-> | H1]);
      try (by apply elem_of_nil in H1);
      repeat (apply elem_of_cons in H2 as [-> | H2]);
      try (by apply elem_of_nil in H2);
      vm_compute in Hf1, Hf2; simplify_eq; simpl in *; simplify_eq; done. }
split; [reflexivity|]. split; [reflexivity|].
destruct (destructor_releases leftover_tuplets Hown) as (s' & Hs' & _ & Hact & Hpend).
exists s'. split; [exact Hs'|]. split; [|split].
- refine (Hact 1%positive 7%positive (mkItem false) _ _ eq_refl).
  + left.
  + eexists. split; reflexivity.
- refine (Hact 2%positive 8%positive (mkItem true) _ _ eq_refl).
  + right. left.
  + eexists. split; reflexivity.
- refine (Hpend 3%positive 9%positive _ _).
  + left.
  + eexists. split; reflexivity.
Defined.

(** The smallest such session: the tuplet held by its one pending fragment
    is deleted when the session ends. *)
Lemma destructor_deletes_pending_tuplet :
  _pendingConnectors pending_tuplet = [1%positive] /\
  holds (heap pending_tuplet) 1%positive 7%positive /\
  items pending_tuplet !! 7%positive = Some (mkItem true) /\
  exists s', destructor pending_tuplet = Ok s' /\
             items s' !! 7%positive = None.
Proof.
split; [reflexivity|]. split; [eexists; split; reflexivity|].
split; [reflexivity|].
eexists. split; reflexivity.
Qed.

End DestructorFacts.

(** ** The tuplet registry (xmlreader.cpp, lines 321-324 and 362-380) *)
Module Tuplets.

Definition handle := positive.

(** What the stores are asked of: following a pointer to a deleted tuplet
    stops the run. *)
Inductive res (A : Type) : Type :=
| Ok (a : A)
| UseAfterFree (t : handle).
Arguments Ok {A} a.
Arguments UseAfterFree {A} t.

#[global] Instance res_ret : MRet res := fun A a => Ok a.
#[global] Instance res_bind : MBind res := fun A B k m =>
  match m with Ok a => k a | UseAfterFree t => UseAfterFree t end.

(** The member calls [checkTuplets] makes, in the order it makes them. *)
Inductive call : Type :=
| Delete (t : handle)
| SortElements (t : handle)
| SanitizeTuplet (t : handle)
| AddMissingElements (t : handle).

Section Registry.
(** Class [Tuplet] (libmscore/tuplet.h) is not part of xmlreader.cpp: its
    elements and the three member functions are taken as they come. *)
Variable DurationElement : Type.
Variable sortElements : list DurationElement -> list DurationElement.
Variable sanitizeTuplet : list DurationElement -> list DurationElement.
Variable addMissingElements : list DurationElement -> list DurationElement.

Record Tuplet : Type := mkTuplet { id : Z; elements : list DurationElement }.

(** [_tuplets] is the [QHash<int, Tuplet*>]; [heap] holds the tuplets that
    have not been deleted. *)
Record Registry : Type := mkRegistry {
  heap : gmap handle Tuplet;
  _tuplets : gmap Z handle;
  trace : list call
}.

Definition set_heap (h : gmap handle Tuplet) (c : list call) (s : Registry)
    : Registry :=
  mkRegistry h (_tuplets s) (trace s ++ c).

(** Iterating over the hash visits its values. *)
Definition tuplets (s : Registry) : list handle := (map_to_list (_tuplets s)).*2.

Definition addTuplet (t : handle) (s : Registry) : res Registry :=
  match heap s !! t with
  | None => UseAfterFree t
  | Some tp => mret (mkRegistry (heap s) (<[id tp := t]> (_tuplets s)) (trace s))
  end.

Definition first_pass_body (t : handle) (s : Registry) : res Registry :=
  match heap s !! t with
  | None => UseAfterFree t
  | Some tp =>
      match elements tp with
      | [] => mret (set_heap (delete t (heap s)) [Delete t] s)
      | _ =>
          let tp := mkTuplet (id tp) (sortElements (elements tp)) in
          let tp := mkTuplet (id tp) (sanitizeTuplet (elements tp)) in
          mret (set_heap (<[t := tp]> (heap s))
                         [SortElements t; SanitizeTuplet t] s)
      end
  end.

Definition second_pass_body (t : handle) (s : Registry) : res Registry :=
  match heap s !! t with
  | None => UseAfterFree t
  | Some tp =>
      let tp := mkTuplet (id tp) (addMissingElements (elements tp)) in
      mret (set_heap (<[t := tp]> (heap s)) [AddMissingElements t] s)
  end.

Fixpoint for_each (body : handle -> Registry -> res Registry)
    (ts : list handle) (s : Registry) : res Registry :=
  match ts with
  | [] => mret s
  | t :: ts' => s ← body t s; for_each body ts' s
  end.

Definition checkTuplets (s : Registry) : res Registry :=
  s ← for_each first_pass_body (tuplets s) s;
  for_each second_pass_body (tuplets s) s.

(** What the first pass logs for a tuplet, by its elements on entry. *)
Definition first_pass_calls (h : gmap handle Tuplet) (t : handle) : list call :=
  match h !! t with
  | Some tp =>
      match elements tp with
      | [] => [Delete t]
      | _ => [SortElements t; SanitizeTuplet t]
      end
  | None => []
  end.

Definition is_empty_tuplet (h : gmap handle Tuplet) (t : handle) : Prop :=
  exists tp, h !! t = Some tp /\ elements tp = [].

End Registry.

Arguments mkTuplet {DurationElement} id elements.
Arguments id {DurationElement} t.
Arguments elements {DurationElement} t.
Arguments mkRegistry {DurationElement} heap _tuplets trace.
Arguments heap {DurationElement} r.
Arguments _tuplets {DurationElement} r.
Arguments trace {DurationElement} r.
Arguments tuplets {DurationElement} s.
Arguments is_empty_tuplet {DurationElement} h t.
Arguments first_pass_calls {DurationElement} h t.

(** A registry whose only tuplet, id 3, has no elements. *)
Definition one_empty_tuplet : Registry Z :=
  mkRegistry {[ 1%positive := mkTuplet 3 [] ]} {[ 3 := 1%positive ]} [].

End Tuplets.

Module TupletFacts.
Import Tuplets.

Lemma flat_map_ext_elem {A B} (f g : A -> list B) (l : list A) :
  (forall a, a ∈ l -> f a = g a) -> flat_map f l = flat_map g l.
Proof.
induction l as [|a l IH]; intros H; simpl; [done|].
rewrite (H a) by left. f_equal. apply IH. intros b Hb. apply H. by right.
Qed.

Section Passes.
Context {E : Type}.
Variables sortElements sanitizeTuplet addMissingElements : list E -> list E.

Let first_pass := for_each E (first_pass_body E sortElements sanitizeTuplet).
Let second_pass := for_each E (second_pass_body E addMissingElements).

(** The first pass over live, distinct tuplets: it succeeds, leaves the
    hash as it was, logs for each tuplet either its deletion or its sorting
    followed by its sanitizing, and the deleted ones are gone from the heap. *)
Lemma first_pass_spec ts (s : Registry E) :
  NoDup ts -> (forall t, t ∈ ts -> is_Some (heap s !! t)) ->
  exists s1,
    first_pass ts s = Ok s1 /\
    _tuplets s1 = _tuplets s /\
    trace s1 = trace s ++ flat_map (first_pass_calls (heap s)) ts /\
    (forall t, t ∈ ts -> is_empty_tuplet (heap s) t -> heap s1 !! t = None) /\
    (forall t, t ∈ ts -> ~ is_empty_tuplet (heap s) t -> is_Some (heap s1 !! t)) /\
    (forall t, t ∉ ts -> heap s1 !! t = heap s !! t).
Proof.
subst first_pass. revert s.
induction ts as [|t ts IH]; intros s Hnd Halive.
- exists s. simpl. rewrite app_nil_r. repeat split; try done.
  all: intros t Ht; by apply elem_of_nil in Ht.
- apply NoDup_cons in Hnd as [Ht Hnd].
  destruct (Halive t) as [tp Htp]; [left|].
  simpl.
  assert (Hb : first_pass_body E sortElements sanitizeTuplet t s =
               match elements tp with
               | [] => Ok (set_heap E (delete t (heap s)) [Delete t] s)
               | _ => Ok (set_heap E
                     (<[t := mkTuplet (id tp)
                               (sanitizeTuplet (sortElements (elements tp)))]>
                        (heap s))
                     [SortElements t; SanitizeTuplet t] s)
               end).
  { unfold first_pass_body. rewrite Htp. by destruct (elements tp). }
  rewrite Hb. clear Hb.
  assert (Hcalls : first_pass_calls (heap s) t =
                   match elements tp with
                   | [] => [Delete t]
                   | _ => [SortElements t; SanitizeTuplet t]
                   end) by (unfold first_pass_calls; by rewrite Htp).
  destruct (elements tp) as [|e es] eqn:Hel; simpl.
  + destruct (IH (set_heap E (delete t (heap s)) [Delete t] s) Hnd)
      as (s1 & Hs1 & Htab & Htr & Hgone & Hkept & Hout).
    { intros t' Ht'. simpl. rewrite lookup_delete_ne by (intros ->; done).
      apply Halive. by right. }
    exists s1. split; [done|]. split; [done|]. split; [|split; [|split]].
    * rewrite Htr, Hcalls. simpl. rewrite <- app_assoc. simpl. f_equal. f_equal.
      apply flat_map_ext_elem. intros t' Ht'. unfold first_pass_calls.
      rewrite lookup_delete_ne; [done|]. by intros ->.
    * intros t' Ht' Hempty. apply elem_of_cons in Ht' as [-> | Ht'].
      -- rewrite Hout by done. simpl. by rewrite lookup_delete_eq.
      -- apply Hgone; [done|]. destruct Hempty as (tp' & Htp' & He').
         exists tp'. split; [|done]. simpl.
         rewrite lookup_delete_ne; [done|]. by intros ->.
    * intros t' Ht' Hfull. apply elem_of_cons in Ht' as [-> | Ht'].
      -- exfalso. apply Hfull. by exists tp.
      -- apply Hkept; [done|]. intros (tp' & Htp' & He'). apply Hfull.
         exists tp'. split; [|done]. simpl in Htp'.
         rewrite lookup_delete_ne in Htp'; [done|]. by intros ->.
    * intros t' Ht'. apply not_elem_of_cons in Ht' as [Hne Ht'].
      rewrite Hout by done. simpl. by rewrite lookup_delete_ne.
  + set (tp' := mkTuplet (id tp) (sanitizeTuplet (sortElements (e :: es)))).
    destruct (IH (set_heap E (<[t := tp']> (heap s))
                           [SortElements t; SanitizeTuplet t] s) Hnd)
      as (s1 & Hs1 & Htab & Htr & Hgone & Hkept & Hout).
    { intros t' Ht'. simpl. rewrite lookup_insert_ne by (intros ->; done).
      apply Halive. by right. }
    exists s1. split; [done|]. split; [done|]. split; [|split; [|split]].
    * rewrite Htr, Hcalls. simpl. rewrite <- app_assoc. simpl.
      f_equal. f_equal. f_equal.
      apply flat_map_ext_elem. intros t' Ht'. unfold first_pass_calls.
      rewrite lookup_insert_ne; [done|]. by intros ->.
    * intros t' Ht' Hempty. apply elem_of_cons in Ht' as [-> | Ht'].
      -- destruct Hempty as (tp'' & Htp'' & He'').
         rewrite Htp in Htp''. injection Htp'' as <-. congruence.
      -- apply Hgone; [done|]. destruct Hempty as (tp'' & Htp'' & He'').
         exists tp''. split; [|done]. simpl.
         rewrite lookup_insert_ne; [done|]. by intros ->.
    * intros t' Ht' Hfull. apply elem_of_cons in Ht' as [-> | Ht'].
      -- rewrite Hout by done. simpl. rewrite lookup_insert_eq. by eexists.
      -- apply Hkept; [done|]. intros (tp'' & Htp'' & He''). apply Hfull.
         exists tp''. split; [|done]. simpl in Htp''.
         rewrite lookup_insert_ne in Htp''; [done|]. by intros ->.
    * intros t' Ht'. apply not_elem_of_cons in Ht' as [Hne Ht'].
      rewrite Hout by done. simpl. by rewrite lookup_insert_ne.
Qed.

(** The second pass stops at the first tuplet that is no longer alive. *)
Lemma second_pass_faults ts (s : Registry E) t :
  t ∈ ts -> heap s !! t = None ->
  exists t', second_pass ts s = UseAfterFree t' /\ (t' ∈ ts) /\
             heap s !! t' = None.
Proof.
subst second_pass. revert s.
induction ts as [|u ts IH]; intros s Ht Hdead.
- by apply elem_of_nil in Ht.
- simpl.
  assert (Hb : second_pass_body E addMissingElements u s =
               match heap s !! u with
               | None => UseAfterFree u
               | Some tp =>
                   Ok (set_heap E (<[u := mkTuplet (id tp)
                                      (addMissingElements (elements tp))]> (heap s))
                                [AddMissingElements u] s)
               end) by reflexivity.
  rewrite Hb. clear Hb.
  destruct (heap s !! u) as [tp|] eqn:Hu.
  + apply elem_of_cons in Ht as [-> | Ht]; [congruence|]. simpl.
    destruct (IH (set_heap E (<[u := mkTuplet (id tp)
                                      (addMissingElements (elements tp))]> (heap s))
                           [AddMissingElements u] s) Ht)
      as (t' & Hr & Ht' & Hd).
    { simpl. rewrite lookup_insert_ne; [done|]. intros ->. congruence. }
    exists t'. split; [done|]. split; [by right|].
    simpl in Hd. rewrite lookup_insert_ne in Hd; [done|].
    intros ->. by rewrite lookup_insert_eq in Hd.
  + exists u. split; [done|]. split; [left | done].
Qed.

(** C7 on the code: a tuplet with no elements is deleted by the first pass
    and is neither sorted nor sanitized, but it stays in the hash, and the
    second pass then calls [addMissingElements] on a deleted tuplet. *)
Theorem checkTuplets_uses_deleted_tuplet (s : Registry E) t :
  NoDup (tuplets s) ->
  (forall u, u ∈ tuplets s -> is_Some (heap s !! u)) ->
  trace s = [] ->
  t ∈ tuplets s -> is_empty_tuplet (heap s) t ->
  exists s1 t',
    first_pass (tuplets s) s = Ok s1 /\
    (t ∈ tuplets s1) /\ heap s1 !! t = None /\
    (Delete t ∈ trace s1) /\ (SortElements t ∉ trace s1) /\
    (SanitizeTuplet t ∉ trace s1) /\
    checkTuplets E sortElements sanitizeTuplet addMissingElements s
    = UseAfterFree t' /\
    (t' ∈ tuplets s) /\ is_empty_tuplet (heap s) t'.
Proof.
intros Hnd Halive Htrace Ht Hempty.
destruct (first_pass_spec _ s Hnd Halive)
  as (s1 & Hs1 & Htab & Htr & Hgone & Hkept & _).
assert (Htabs : tuplets s1 = tuplets s) by (unfold tuplets; by rewrite Htab).
pose proof (Hgone t Ht Hempty) as Hdead.
destruct (second_pass_faults (tuplets s1) s1 t) as (t' & Hf & Ht' & Hd');
  [by rewrite Htabs | done |].
exists s1, t'. rewrite Htabs in *.
assert (Hcalls : forall u c, c ∈ trace s1 ->
          c ∈ first_pass_calls (heap s) u \/
          exists u', u' <> u /\ c ∈ first_pass_calls (heap s) u').
{ intros u c Hc. rewrite Htr, Htrace in Hc. simpl in Hc.
  apply list_elem_of_In, in_flat_map in Hc as (u' & _ & Hc).
  apply list_elem_of_In in Hc.
  destruct (decide (u' = u)) as [->|]; [by left | right; by exists u']. }
assert (Hmine : first_pass_calls (heap s) t = [Delete t]).
{ destruct Hempty as (tp & Htp & He). unfold first_pass_calls.
  by rewrite Htp, He. }
assert (Hothers : forall u c, u <> t -> c ∈ first_pass_calls (heap s) u ->
          c <> SortElements t /\ c <> SanitizeTuplet t).
{ intros u c Hne. unfold first_pass_calls.
  destruct (heap s !! u) as [tp|]; [|by intros ?%elem_of_nil].
  destruct (elements tp); intros Hc;
    repeat (apply elem_of_cons in Hc as [-> | Hc]); try (by apply elem_of_nil in Hc);
    split; congruence. }
split; [done|]. split; [done|]. split; [done|]. split; [|split; [|split]].
- rewrite Htr, Htrace. simpl. apply list_elem_of_In, in_flat_map.
  exists t. split; [by apply list_elem_of_In|]. rewrite Hmine. by left.
- intros Hc. destruct (Hcalls t _ Hc) as [Hin | (u & Hne & Hin)].
  + rewrite Hmine in Hin. apply elem_of_cons in Hin as [? | Hin]; [done|].
    by apply elem_of_nil in Hin.
  + by destruct (Hothers u _ Hne Hin).
- intros Hc. destruct (Hcalls t _ Hc) as [Hin | (u & Hne & Hin)].
  + rewrite Hmine in Hin. apply elem_of_cons in Hin as [? | Hin]; [done|].
    by apply elem_of_nil in Hin.
  + by destruct (Hothers u _ Hne Hin).
- split.
  + unfold checkTuplets. fold first_pass. rewrite Hs1. simpl.
    rewrite Htabs. exact Hf.
  + split; [done|].
    destruct (Halive t' Ht') as [tp Htp]. exists tp. split; [done|].
    destruct (elements tp) as [|e es] eqn:He; [done|]. exfalso.
    destruct (Hkept t' Ht') as [? Hlive]; [|congruence].
    intros (tp' & Htp' & He'). congruence.
Qed.

End Passes.

(** Member functions that leave the elements as they are. *)
Definition same (l : list Z) : list Z := l.

Lemma checkTuplets_uses_deleted_tuplet_witness :
  is_empty_tuplet (heap one_empty_tuplet) 1%positive /\
  checkTuplets Z same same same one_empty_tuplet = UseAfterFree 1%positive.
Proof.
assert (He : is_empty_tuplet (heap one_empty_tuplet) 1%positive)
  by (eexists; split; reflexivity).
split; [exact He|].
destruct (checkTuplets_uses_deleted_tuplet same same same one_empty_tuplet
            1%positive)
  as (s1 & t' & _ & _ & _ & _ & _ & _ & Hc & Ht' & _).
- apply (bool_decide_unpack _). vm_compute. exact I.
- intros u Hu. vm_compute in Hu.
  apply elem_of_cons in Hu as [-> | Hu]; [eexists; reflexivity|].
  by apply elem_of_nil in Hu.
- reflexivity.
- vm_compute. left.
- exact He.
- rewrite Hc. vm_compute in Ht'.
  apply elem_of_cons in Ht' as [-> | Ht']; [reflexivity|].
  by apply elem_of_nil in Ht'.
Defined.

End TupletFacts.

(** ** Resolving connectors (xmlreader.cpp, lines 578-684) *)
Module Resolver.
Import Qt Connectors.

(** An entry of [brokenPairs]: a distance and an ordered pair (from, to). *)
Definition candidate : Type := Z * (handle * handle).

(** [distanceSort]: the comparison handed to [std::sort]. *)
Definition distanceSort (p1 p2 : candidate) : bool := p1.1 <? p2.1.

(** [_connectors.erase(it)] for the first [it] that points to [c]. *)
Fixpoint erase_first (c : handle) (cs : list handle) : list handle :=
  match cs with
  | [] => []
  | x :: cs' => if decide (x = c) then cs' else x :: erase_first c cs'
  end.

(** Erasing the owning pointer destroys the fragment. *)
Definition erase (c : handle) (s : Session) : Session :=
  if decide (c ∈ _connectors s)
  then set_heap (delete c (heap s))
                (set_connectors (erase_first c (_connectors s)) s)
  else s.

(** [while (c->prev()) c = c->prev();] *)
Fixpoint chain_head (fuel : nat) (h : Fragments) (c : handle) : res handle :=
  match fuel with
  | O => Err Diverges
  | S fuel' =>
      f ← fragment h c;
      match prev f with
      | Some p => chain_head fuel' h p
      | None => mret c
      end
  end.

(** [while (c) { next = c->next(); erase c; c = next; }] *)
Fixpoint remove_chain (fuel : nat) (c : option handle) (s : Session)
    : res Session :=
  match fuel with
  | O => Err Diverges
  | S fuel' =>
      match c with
      | None => mret s
      | Some c =>
          f ← fragment (heap s) c;
          let next := next f in
          remove_chain fuel' next (erase c s)
      end
  end.

(** A walk along an acyclic chain visits each live fragment at most once,
    so it takes no more steps than there are fragments. *)
Definition removeConnector (c : handle) (s : Session) : res Session :=
  let fuel := S (size (heap s)) in
  c ← chain_head fuel (heap s) c;
  remove_chain fuel (Some c) s.

(** Modelled from the spec: [forceConnect] joins two fragments whatever
    their anchors say, the first before the second. *)
Definition forceConnect (a b : handle) (h : Fragments) : res Fragments :=
  fa ← fragment h a;
  let h := <[a := set_next (Some b) fa]> h in
  fb ← fragment h b;
  mret (<[b := set_prev (Some a) fb]> h).

Section Resolver.
(** Member functions of [ConnectorInfoReader], outside xmlreader.cpp, and
    the standard library's [std::sort] with [distanceSort]. *)
Variable update : handle -> Fragments -> Fragments.
Variable connect : handle -> handle -> Fragments -> bool * Fragments.
Variable finished : handle -> Fragments -> bool.
Variable addToScore : handle -> bool -> Fragments -> Fragments.
Variable connectionDistance : handle -> handle -> Fragments -> Z.
Variable start : handle -> Fragments -> handle.
Variable sort : list candidate -> list candidate.

(** [c->addToScore(pasteMode()); removeConnector(c);] *)
Definition commit (c : handle) (s : Session) : res Session :=
  let s := log_score c (pasteMode s)
             (set_heap (addToScore c (pasteMode s) (heap s)) s) in
  removeConnector c s.

(** The loop of [addConnectorInfo] over [_connectors]. *)
Fixpoint scan (cs : list handle) (c1 : handle) (s : Session) : res Session :=
  match cs with
  | [] => mret s
  | c2 :: cs' =>
      let '(connected, h) := connect c2 c1 (heap s) in
      let s := set_heap h s in
      if connected then
        if finished c2 (heap s) then commit c2 s else mret s
      else scan cs' c1 s
  end.

Definition addConnectorInfo (c : handle) (s : Session) : res Session :=
  let s := set_connectors (_connectors s ++ [c]) s in
  let c1 := c in
  let s := set_heap (update c1 (heap s)) s in
  scan (_connectors s) c1 s.

Fixpoint add_each (cs : list handle) (s : Session) : res Session :=
  match cs with
  | [] => mret s
  | c :: cs' => s ← addConnectorInfo c s; add_each cs' s
  end.


(** The body of the two nested loops: one candidate for [c1 = _connectors[i]]
    and [c2 = _connectors[j]], [j < i]. *)
Definition pair_candidate (h : Fragments) (c1 c2 : handle) : candidate :=
  let d := connectionDistance c1 c2 h in
  if 0 <=? d then (d, (c1, c2)) else (- d, (c2, c1)).

(** [seen] are the connectors before index [i], [rest] those from [i] on. *)
Fixpoint brokenPairs_from (h : Fragments) (seen rest : list handle)
    : list candidate :=
  match rest with
  | [] => []
  | c1 :: rest' =>
      map (pair_candidate h c1) seen ++ brokenPairs_from h (seen ++ [c1]) rest'
  end.

Definition brokenPairs (h : Fragments) (cs : list handle) : list candidate :=
  brokenPairs_from h [] cs.

(** The loop over the sorted candidates. *)
Fixpoint join_pairs (cands : list candidate) (h : Fragments) : res Fragments :=
  match cands with
  | [] => mret h
  | (d, (first, second)) :: rest =>
      if d =? INT_MAX then join_pairs rest h
      else
        f1 ← fragment h first;
        if bool_decide (is_Some (next f1)) then join_pairs rest h
        else
          f2 ← fragment h second;
          if bool_decide (is_Some (prev f2)) then join_pairs rest h
          else h ← forceConnect first second h; join_pairs rest h
  end.

(** The [QSet] of chain starts, as a list without repetitions. *)
Definition reconnected (cs : list handle) (h : Fragments) : list handle :=
  remove_dups (map (fun c => start c h) (filter (fun c => finished c h = true) cs)).

Fixpoint commit_each (cs : list handle) (s : Session) : res Session :=
  match cs with
  | [] => mret s
  | c :: cs' => s ← commit c s; commit_each cs' s
  end.

Definition reconnectBrokenConnectors (s : Session) : res Session :=
  if bool_decide (_connectors s = []) then mret s
  else
    let brokenPairs := sort (brokenPairs (heap s) (_connectors s)) in
    h ← join_pairs brokenPairs (heap s);
    let s := set_heap h s in
    commit_each (reconnected (_connectors s) (heap s)) s.

(** The connects that fail before the scan reaches a chain that accepts:
    the heap they leave, or nothing if one of them succeeds. *)
Fixpoint rejected (cs : list handle) (c1 : handle) (h : Fragments)
    : option Fragments :=
  match cs with
  | [] => Some h
  | c2 :: cs' =>
      let '(connected, h) := connect c2 c1 h in
      if connected then None else rejected cs' c1 h
  end.

End Resolver.

(** A chain: live fragments, each linked to its neighbours and to nothing
    else. *)
Definition is_chain (h : Fragments) (chain : list handle) : Prop :=
  forall i c, chain !! i = Some c ->
    exists f, h !! c = Some f /\
              prev f = match i with O => None | S j => chain !! j end /\
              next f = chain !! S i.

End Resolver.

Module ResolverFacts.
Import Qt Connectors Resolver.

Lemma filter_id {A} (P : A -> Prop) `{forall x, Decision (P x)} (l : list A) :
  (forall x, x ∈ l -> P x) -> filter P l = l.
Proof.
induction l as [|x l IH]; intros Hall; [done|].
rewrite filter_cons_True by (apply Hall; left).
f_equal. apply IH. intros y Hy. apply Hall. by right.
Qed.

Lemma erase_first_filter c cs :
  NoDup cs -> erase_first c cs = filter (fun x => x <> c) cs.
Proof.
induction cs as [|x cs IH]; intros Hnd; simpl; [done|].
apply NoDup_cons in Hnd as [Hx Hnd].
destruct (decide (x = c)) as [->|Hne].
- rewrite filter_cons_False by (intros H; by apply H).
  symmetry. apply filter_id. by intros y Hy ->.
- rewrite filter_cons_True by done. f_equal. by apply IH.
Qed.

Lemma chain_head_spec h chain i c c0 fuel :
  is_chain h chain -> chain !! i = Some c -> chain !! 0%nat = Some c0 ->
  (i < fuel)%nat -> chain_head fuel h c = Ok c0.
Proof.
intros Hch. revert c fuel.
induction i as [|i IH]; intros c fuel Hc H0 Hfuel.
- destruct fuel as [|fuel]; [lia|]. simpl.
  destruct (Hch 0%nat c Hc) as (f & Hf & Hp & _).
  unfold fragment. rewrite Hf. simpl. rewrite Hp.
  rewrite Hc in H0. by injection H0 as ->.
- destruct fuel as [|fuel]; [lia|]. simpl.
  destruct (Hch (S i) c Hc) as (f & Hf & Hp & _).
  unfold fragment. rewrite Hf. simpl. rewrite Hp.
  destruct (chain !! i) as [p|] eqn:Hi.
  + apply IH; [done | done | lia].
  + apply lookup_lt_Some in Hc. apply lookup_ge_None in Hi. lia.
Qed.

(** The second loop of [removeConnector] along [rest]: every fragment of
    [rest] leaves [_connectors], nothing else changes there. *)
Lemma remove_chain_spec rest : forall s fuel,
  NoDup rest -> NoDup (_connectors s) ->
  (forall k c, rest !! k = Some c ->
     exists f, heap s !! c = Some f /\ next f = rest !! S k) ->
  (length rest < fuel)%nat ->
  exists s',
    remove_chain fuel (rest !! 0%nat) s = Ok s' /\
    _connectors s' = filter (fun x => x ∉ rest) (_connectors s) /\
    (forall c, c ∉ rest -> heap s' !! c = heap s !! c) /\
    _pendingConnectors s' = _pendingConnectors s /\
    items s' = items s /\ score s' = score s /\ pasteMode s' = pasteMode s.
Proof.
induction rest as [|c rest IH]; intros s fuel Hnd Hcs Hlinks Hfuel.
- destruct fuel as [|fuel]; [simpl in Hfuel; lia|].
  exists s. simpl. split; [done|]. split; [|done].
  symmetry. apply filter_id. intros x _. apply not_elem_of_nil.
- destruct fuel as [|fuel]; [simpl in Hfuel; lia|].
  apply NoDup_cons in Hnd as [Hc Hnd].
  destruct (Hlinks 0%nat c eq_refl) as (f & Hf & Hn).
  cbn [remove_chain lookup list_lookup]. unfold fragment. rewrite Hf.
  cbn [mbind res_bind]. rewrite Hn.
  assert (Herase : _connectors (erase c s) = filter (fun x => x <> c) (_connectors s)
            /\ (forall c', c' <> c -> heap (erase c s) !! c' = heap s !! c')
            /\ _pendingConnectors (erase c s) = _pendingConnectors s
            /\ items (erase c s) = items s /\ score (erase c s) = score s
            /\ pasteMode (erase c s) = pasteMode s).
  { unfold erase. destruct (decide (c ∈ _connectors s)) as [Hin|Hout]; simpl.
    - split; [by apply erase_first_filter|]. split; [|done].
      intros c' Hne. by rewrite lookup_delete_ne.
    - split; [|done]. symmetry. apply filter_id. by intros x Hx ->. }
  destruct Herase as (Ecs & Eheap & Ep & Ei & Esc & Epm).
  destruct (IH (erase c s) fuel) as (s' & Hs' & Hcs' & Hheap' & Hp' & Hi' & Hsc' & Hpm').
  + done.
  + rewrite Ecs. by apply NoDup_filter.
  + intros k c' Hk. destruct (Hlinks (S k) c' Hk) as (f' & Hf' & Hn').
    exists f'. split; [|done]. rewrite Eheap; [done|].
    intros ->. apply Hc. by eapply list_elem_of_lookup_2.
  + simpl in Hfuel. lia.
  + exists s'. split; [exact Hs'|]. split; [|split; [|by rewrite Hp', Hi', Hsc', Hpm']].
    * rewrite Hcs', Ecs. rewrite list_filter_filter.
      apply list_filter_iff. intros x. rewrite not_elem_of_cons. tauto.
    * intros c' Hc'. apply not_elem_of_cons in Hc' as [Hne Hc'].
      rewrite Hheap' by done. by apply Eheap.
Qed.

Lemma chain_length_le_size (h : Fragments) chain :
  NoDup chain -> (forall c, c ∈ chain -> is_Some (h !! c)) ->
  (length chain <= size h)%nat.
Proof.
intros Hnd Halive.
rewrite <- (size_list_to_set (C := gset handle) chain) by done.
rewrite <- size_dom. apply subseteq_size.
intros c Hc. apply elem_of_list_to_set in Hc. apply elem_of_dom. by apply Halive.
Qed.

Lemma is_chain_alive h chain c : is_chain h chain -> c ∈ chain -> is_Some (h !! c).
Proof.
intros Hch Hc. apply list_elem_of_lookup_1 in Hc as [i Hi].
destruct (Hch i c Hi) as (f & Hf & _). by exists f.
Qed.

(** [removeConnector] on a fragment of a chain removes the whole chain. *)
Lemma removeConnector_chain s chain c :
  is_chain (heap s) chain -> NoDup chain -> c ∈ chain ->
  NoDup (_connectors s) ->
  exists s',
    removeConnector c s = Ok s' /\
    _connectors s' = filter (fun x => x ∉ chain) (_connectors s) /\
    (forall c', c' ∉ chain -> heap s' !! c' = heap s !! c') /\
    _pendingConnectors s' = _pendingConnectors s /\
    items s' = items s /\ score s' = score s /\ pasteMode s' = pasteMode s.
Proof.
intros Hch Hnd Hc Hcs.
pose proof (chain_length_le_size (heap s) chain Hnd
              (fun c Hc => is_chain_alive _ _ c Hch Hc)) as Hlen.
apply list_elem_of_lookup_1 in Hc as [i Hi].
destruct chain as [|c0 chain']; [done|].
unfold removeConnector.
rewrite (chain_head_spec (heap s) (c0 :: chain') i c c0); try done.
- cbn [mbind res_bind].
  apply (remove_chain_spec (c0 :: chain') s (S (size (heap s)))); try done.
  + intros k c' Hk. destruct (Hch k c' Hk) as (f & Hf & _ & Hn). by exists f.
  + lia.
- apply lookup_lt_Some in Hi. lia.
Qed.

Section Scan.
Variable update : handle -> Fragments -> Fragments.
Variable connect : handle -> handle -> Fragments -> bool * Fragments.
Variable finished : handle -> Fragments -> bool.
Variable addToScore : handle -> bool -> Fragments -> Fragments.

Let scan := Resolver.scan connect finished addToScore.
Let commit := Resolver.commit addToScore.
Let rejected := Resolver.rejected connect.

Lemma scan_rejected cs c1 s h' :
  rejected cs c1 (heap s) = Some h' -> scan cs c1 s = Ok (set_heap h' s).
Proof.
subst scan rejected. revert s.
induction cs as [|c2 cs IH]; intros s; simpl.
- intros [= <-]. by destruct s.
- destruct (connect c2 c1 (heap s)) as [[] h] eqn:Hc; [done|].
  intros Hr. rewrite (IH (set_heap h s)) by done. by destruct s.
Qed.

Lemma scan_first_match pre c2 post c1 s h1 h2 :
  rejected pre c1 (heap s) = Some h1 ->
  connect c2 c1 h1 = (true, h2) ->
  scan (pre ++ c2 :: post) c1 s =
  if finished c2 h2 then commit c2 (set_heap h2 s) else Ok (set_heap h2 s).
Proof.
subst scan rejected commit. revert s.
induction pre as [|c pre IH]; intros s; simpl.
- intros [= <-] Hc. rewrite Hc. simpl. done.
- destruct (connect c c1 (heap s)) as [[] h] eqn:Hc; [done|].
  intros Hr Hc2. rewrite (IH (set_heap h s)) by done.
  by destruct s.
Qed.

Lemma remove_chain_score fuel : forall c s s',
  remove_chain fuel c s = Ok s' ->
  score s' = score s /\ pasteMode s' = pasteMode s.
Proof.
induction fuel as [|fuel IH]; intros c s s'; simpl; [done|].
destruct c as [c|]; [|by intros [= <-]].
unfold fragment. destruct (heap s !! c) as [f|]; [|done]. simpl.
intros H. apply IH in H as [-> ->].
unfold erase. by destruct (decide (c ∈ _connectors s)).
Qed.

Lemma commit_score c s s' :
  commit c s = Ok s' -> score s' = score s ++ [(c, pasteMode s)].
Proof.
subst commit. unfold Resolver.commit, removeConnector.
destruct (chain_head _ _ c) as [c0|]; [|done]. cbn [mbind res_bind].
intros H. by apply remove_chain_score in H as [-> _].
Qed.

(** One call of the scan commits at most one chain. *)
Lemma scan_commits_at_most_once cs c1 : forall s s',
  scan cs c1 s = Ok s' ->
  score s' = score s \/ exists c2, c2 ∈ cs /\ score s' = score s ++ [(c2, pasteMode s)].
Proof.
subst scan. induction cs as [|c2 cs IH]; intros s s'; simpl.
- intros [= <-]. by left.
- destruct (connect c2 c1 (heap s)) as [[] h] eqn:Hc.
  + destruct (finished c2 _).
    * intros H. apply commit_score in H. right. exists c2. split; [left|done].
    * intros [= <-]. by left.
  + intros H. apply IH in H as [H | (c & Hin & H)]; [by left|].
    right. exists c. split; [by right | done].
Qed.

End Scan.

End ResolverFacts.

(** ** A concrete fragment class

    Modelled from the spec: the member functions of [ConnectorInfoReader]
    for connectors made of one start and one end fragment.  Two fragments
    are compatible when they have the same id, complementary roles, free
    sides facing each other and the start anchored no later than the end;
    a chain is finished when its fragment has its partner; the distance from
    a fragment with an open end to one with an open start is how far apart
    their anchors are, and [INT_MAX] when the sides do not fit. *)
Module Sample.
Import Qt Connectors Resolver.

Definition update (c : handle) (h : Fragments) : Fragments := h.

Definition fits (c2 c1 : handle) (f2 f1 : ConnectorInfoReader) : Prop :=
  c2 <> c1 /\ id f2 = id f1 /\ role f2 = StartRole /\ role f1 = EndRole /\
  next f2 = None /\ prev f1 = None /\ anchorTick f2 <= anchorTick f1.

#[global] Instance fits_dec c2 c1 f2 f1 : Decision (fits c2 c1 f2 f1).
Proof. unfold fits. apply _. Defined.

Definition link (a b : handle) (fa fb : ConnectorInfoReader) (h : Fragments)
    : Fragments :=
  <[b := set_prev (Some a) fb]> (<[a := set_next (Some b) fa]> h).

Definition connect (c2 c1 : handle) (h : Fragments) : bool * Fragments :=
  match h !! c2, h !! c1 with
  | Some f2, Some f1 =>
      if decide (fits c2 c1 f2 f1) then (true, link c2 c1 f2 f1 h)
      else if decide (fits c1 c2 f1 f2) then (true, link c1 c2 f1 f2 h)
      else (false, h)
  | _, _ => (false, h)
  end.

Definition finished (c : handle) (h : Fragments) : bool :=
  match h !! c with
  | Some f =>
      match role f with
      | StartRole => bool_decide (is_Some (next f))
      | EndRole => bool_decide (is_Some (prev f))
      end
  | None => false
  end.

Definition addToScore (c : handle) (paste : bool) (h : Fragments) : Fragments := h.

Definition start (c : handle) (h : Fragments) : handle :=
  match chain_head (S (size h)) h c with Ok c0 => c0 | Err _ => c end.

Definition open_distance (fa fb : ConnectorInfoReader) : Z :=
  if decide (role fa = StartRole /\ next fa = None /\
             role fb = EndRole /\ prev fb = None)
  then Z.abs (anchorTick fb - anchorTick fa)
       + Z.abs (anchorTrack fb - anchorTrack fa)
  else INT_MAX.

Definition connectionDistance (c1 c2 : handle) (h : Fragments) : Z :=
  match h !! c1, h !! c2 with
  | Some f1, Some f2 =>
      let d12 := open_distance f1 f2 in
      let d21 := open_distance f2 f1 in
      if d21 <? d12 then - d21 else d12
  | _, _ => INT_MAX
  end.

(** An insertion sort by distance stands for [std::sort]. *)
Fixpoint insert_by_distance (x : candidate) (l : list candidate) : list candidate :=
  match l with
  | [] => [x]
  | y :: l' => if x.1 <=? y.1 then x :: l else y :: insert_by_distance x l'
  end.

Definition sort (l : list candidate) : list candidate :=
  foldr insert_by_distance [] l.

(** The slur of the specification: id 5, start at tick 10, end at tick 40,
    the start already in the pool. *)
Definition slur_start : ConnectorInfoReader :=
  mkFragment 5 StartRole 0 10 None None (Some 7%positive).
Definition slur_end : ConnectorInfoReader :=
  mkFragment 5 EndRole 0 40 None None None.

Definition slur_half_read : Session :=
  mkSession {[ 1%positive := slur_start; 2%positive := slur_end ]}
            {[ 7%positive := mkItem false ]}
            [1%positive] [] [] false.

(** Three broken fragments: A ends open at tick 100, B and C start open at
    ticks 102 and 150. *)
Definition frag_A : ConnectorInfoReader :=
  mkFragment 1 StartRole 0 100 None None None.
Definition frag_B : ConnectorInfoReader :=
  mkFragment 2 EndRole 0 102 None None None.
Definition frag_C : ConnectorInfoReader :=
  mkFragment 3 EndRole 0 150 None None None.

Definition three_broken : Fragments :=
  {[ 1%positive := frag_A; 2%positive := frag_B; 3%positive := frag_C ]}.

End Sample.

(** *** [addConnectorInfo] *)
Module AddConnectorFacts.
Import Qt Connectors Resolver ResolverFacts.

Section Add.
Variable update : handle -> Fragments -> Fragments.
Variable connect : handle -> handle -> Fragments -> bool * Fragments.
Variable finished : handle -> Fragments -> bool.
Variable addToScore : handle -> bool -> Fragments -> Fragments.

Let add := addConnectorInfo update connect finished addToScore.
Let rejected := Resolver.rejected connect.

(** C4: the new fragment is appended to [_connectors] and updated; the
    vector is scanned in order and the scan stops at the first fragment
    whose [connect] accepts the new one.  If none accepts, nothing else
    happens.  If the accepting chain is not finished, only the connect has
    happened.  If it is finished, it is committed once, under the current
    paste mode, and every fragment of the chain leaves [_connectors].  A
    call commits at most one chain. *)
Theorem addConnectorInfo_first_match (s : Session) (c1 : handle) :
  let cs := _connectors s ++ [c1] in
  let h0 := update c1 (heap s) in
  (forall h', rejected cs c1 h0 = Some h' ->
     add c1 s = Ok (set_heap h' (set_connectors cs s))) /\
  (forall pre c2 post h1 h2,
     cs = pre ++ c2 :: post ->
     rejected pre c1 h0 = Some h1 ->
     connect c2 c1 h1 = (true, h2) ->
     (finished c2 h2 = false ->
        add c1 s = Ok (set_heap h2 (set_connectors cs s))) /\
     (finished c2 h2 = true ->
        forall chain,
          NoDup cs -> NoDup chain ->
          is_chain (addToScore c2 (pasteMode s) h2) chain -> c2 ∈ chain ->
          exists s',
            add c1 s = Ok s' /\
            score s' = score s ++ [(c2, pasteMode s)] /\
            _connectors s' = filter (fun x => x ∉ chain) cs /\
            (forall c, c ∈ chain -> c ∉ _connectors s') /\
            (forall c, c ∉ chain ->
               heap s' !! c = addToScore c2 (pasteMode s) h2 !! c))) /\
  (forall s', add c1 s = Ok s' ->
     score s' = score s \/
     exists c2, (c2 ∈ cs) /\ score s' = score s ++ [(c2, pasteMode s)]).
Proof.
intros cs h0. subst add rejected. unfold addConnectorInfo.
cbn [_connectors set_connectors set_heap heap]. fold cs. fold h0.
set (s0 := set_heap h0 (set_connectors cs s)).
assert (Hh0 : heap s0 = h0) by reflexivity.
split; [|split].
- intros h' Hr. rewrite <- Hh0 in Hr.
  by rewrite (scan_rejected _ _ _ _ _ _ _ Hr).
- intros pre c2 post h1 h2 Hcs Hr Hc. rewrite <- Hh0 in Hr.
  assert (Hscan : scan connect finished addToScore cs c1 s0 =
            if finished c2 h2 then commit addToScore c2 (set_heap h2 s0)
            else Ok (set_heap h2 s0)).
  { rewrite Hcs. exact (scan_first_match _ _ _ _ _ _ _ _ _ _ Hr Hc). }
  rewrite Hscan. clear Hscan.
  split.
  + intros ->. reflexivity.
  + intros -> chain Hndcs Hnd Hch Hin.
    unfold commit.
    destruct (removeConnector_chain
                (log_score c2 (pasteMode s)
                   (set_heap (addToScore c2 (pasteMode s) h2) (set_heap h2 s0)))
                chain c2) as (s' & Hs' & Hcs' & Hheap' & _ & _ & Hsc' & _);
      try done.
    exists s'. split; [exact Hs'|]. split; [exact Hsc'|].
    split; [exact Hcs'|]. split; [|exact Hheap'].
    intros c Hc' Hin'. rewrite Hcs' in Hin'.
    apply list_elem_of_filter in Hin' as [Hn _]. by apply Hn.
- intros s' Hs'.
  apply (scan_commits_at_most_once connect finished addToScore cs c1 s0 s' Hs').
Qed.

End Add.

(** The end of the slur arrives: the start accepts it, the chain is
    finished, committed and removed. *)
Lemma addConnectorInfo_first_match_witness :
  exists s',
    addConnectorInfo Sample.update Sample.connect Sample.finished
      Sample.addToScore 2%positive Sample.slur_half_read = Ok s' /\
    score s' = [(1%positive, false)] /\
    _connectors s' = [].
Proof.
destruct (addConnectorInfo_first_match Sample.update Sample.connect
            Sample.finished Sample.addToScore Sample.slur_half_read 2%positive)
  as (_ & Hfirst & _).
destruct (Hfirst [] 1%positive [2%positive]
            (Sample.update 2%positive (heap Sample.slur_half_read))
            (Sample.link 1%positive 2%positive Sample.slur_start Sample.slur_end
               (heap Sample.slur_half_read))
            eq_refl eq_refl eq_refl) as (_ & Hfin).
destruct (Hfin eq_refl [1%positive; 2%positive]) as (s' & Hs' & Hsc & Hcs & _).
- apply (bool_decide_unpack _). vm_compute. exact I.
- apply (bool_decide_unpack _). vm_compute. exact I.
- intros [|[|i]] c Hc; simpl in Hc; simplify_eq.
  + eexists. split; [reflexivity|]. split; reflexivity.
  + eexists. split; [reflexivity|]. split; reflexivity.
- left.
- exists s'. split; [exact Hs'|]. split; [exact Hsc|].
  rewrite Hcs. reflexivity.
Defined.

End AddConnectorFacts.

(** *** [reconnectBrokenConnectors] *)
Module ReconnectFacts.
Import Qt Connectors Resolver ResolverFacts.

(** The order [std::sort] leaves behind: [q] does not compare before [p]. *)
Definition by_distance (p q : candidate) : Prop := distanceSort q p = false.

Lemma by_distance_le p q : by_distance p q <-> p.1 <= q.1.
Proof. unfold by_distance, distanceSort. apply Z.ltb_ge. Qed.

#[global] Instance by_distance_trans : Transitive by_distance.
Proof. intros x y z. rewrite !by_distance_le. lia. Qed.

(** What [forceConnect a b] does to the fragment at [c]. *)
Definition joined (a b c : handle) (f : ConnectorInfoReader)
    : ConnectorInfoReader :=
  let f := if decide (c = a) then set_next (Some b) f else f in
  if decide (c = b) then set_prev (Some a) f else f.

Lemma next_joined a b c f :
  next (joined a b c f) = if decide (c = a) then Some b else next f.
Proof. unfold joined. by repeat case_decide. Qed.

Lemma prev_joined a b c f :
  prev (joined a b c f) = if decide (c = b) then Some a else prev f.
Proof. unfold joined. by repeat case_decide. Qed.

Lemma forceConnect_lookup a b (h : Fragments) :
  is_Some (h !! a) -> is_Some (h !! b) ->
  exists h1, forceConnect a b h = Ok h1 /\
             forall c, h1 !! c = joined a b c <$> h !! c.
Proof.
intros [fa Ha] [fb Hb]. unfold forceConnect, fragment. rewrite Ha. simpl.
destruct (decide (a = b)) as [<-|Hab].
- rewrite lookup_insert_eq. simpl. eexists. split; [done|].
  intros c. destruct (decide (c = a)) as [->|Hc].
  + rewrite lookup_insert_eq, Ha. simpl. unfold joined.
    by rewrite !decide_True.
  + rewrite !lookup_insert_ne by done.
    destruct (h !! c); simpl; [|done]. unfold joined.
    by rewrite !decide_False.
- rewrite lookup_insert_ne, Hb by done. simpl. eexists. split; [done|].
  intros c. unfold joined. destruct (decide (c = b)) as [->|Hcb].
  + rewrite lookup_insert_eq, Hb. simpl. by rewrite decide_False.
  + rewrite lookup_insert_ne by done.
    destruct (decide (c = a)) as [->|Hca].
    * by rewrite lookup_insert_eq, Ha.
    * rewrite lookup_insert_ne by done. by destruct (h !! c).
Qed.

Lemma join_pairs_cons d a b rest (h : Fragments) :
  join_pairs ((d, (a, b)) :: rest) h =
  if d =? INT_MAX then join_pairs rest h
  else
    match h !! a with
    | None => Err (DanglingFragment a)
    | Some f1 =>
        if bool_decide (is_Some (next f1)) then join_pairs rest h
        else
          match h !! b with
          | None => Err (DanglingFragment b)
          | Some f2 =>
              if bool_decide (is_Some (prev f2)) then join_pairs rest h
              else
                match forceConnect a b h with
                | Ok h1 => join_pairs rest h1
                | Err e => Err e
                end
          end
    end.
Proof.
cbn [join_pairs]. unfold fragment.
destruct (d =? INT_MAX); [done|].
destruct (h !! a) as [f1|]; [|done]. cbn [mbind res_bind].
destruct (bool_decide (is_Some (next f1))); [done|].
destruct (h !! b) as [f2|]; [|done]. cbn [mbind res_bind].
by destruct (bool_decide (is_Some (prev f2))).
Qed.

Lemma joined_links a b c f p n :
  set_prev p (set_next n (joined a b c f)) = set_prev p (set_next n f).
Proof. unfold joined. by repeat case_decide. Qed.

(** The loop over candidates in ascending order, on live fragments.  It
    returns; it neither creates nor destroys a fragment and changes
    nothing but links; a link that exists is kept; a new link joins the
    two ends of a candidate of finite distance, both free before, and is
    seen from both ends; and every candidate of finite distance ends with
    its first fragment having a successor, or its second a predecessor,
    that was there before or comes from a candidate no farther away. *)
Lemma join_pairs_greedy cands : forall h : Fragments,
  (forall d a b, (d, (a, b)) ∈ cands -> is_Some (h !! a) /\ is_Some (h !! b)) ->
  StronglySorted by_distance cands ->
  exists h',
    join_pairs cands h = Ok h' /\
    (forall c, h' !! c = None <-> h !! c = None) /\
    (forall c f, h !! c = Some f ->
       exists f', h' !! c = Some f' /\
                  f' = set_prev (prev f') (set_next (next f') f) /\
                  (forall x, next f = Some x -> next f' = Some x) /\
                  (forall x, prev f = Some x -> prev f' = Some x)) /\
    (forall a b fa fa',
       h !! a = Some fa -> h' !! a = Some fa' ->
       next fa = None -> next fa' = Some b ->
       exists d fb fb',
         (d, (a, b)) ∈ cands /\ d <> INT_MAX /\
         h !! b = Some fb /\ prev fb = None /\
         h' !! b = Some fb' /\ prev fb' = Some a) /\
    (forall a b fb fb',
       h !! b = Some fb -> h' !! b = Some fb' ->
       prev fb = None -> prev fb' = Some a ->
       exists d fa fa',
         (d, (a, b)) ∈ cands /\ d <> INT_MAX /\
         h !! a = Some fa /\ next fa = None /\
         h' !! a = Some fa' /\ next fa' = Some b) /\
    (forall d a b, (d, (a, b)) ∈ cands -> d <> INT_MAX ->
       (exists fa fa' x,
          h !! a = Some fa /\ h' !! a = Some fa' /\ next fa' = Some x /\
          (next fa = Some x \/
           exists d', (d', (a, x)) ∈ cands /\ d' <= d /\ d' <> INT_MAX)) \/
       (exists fb fb' y,
          h !! b = Some fb /\ h' !! b = Some fb' /\ prev fb' = Some y /\
          (prev fb = Some y \/
           exists d', (d', (y, b)) ∈ cands /\ d' <= d /\ d' <> INT_MAX))).
Proof.
induction cands as [|[d0 [a0 b0]] cands IH]; intros h Halive Hsorted.
- exists h. split; [done|]. split; [done|]. split; [|split; [|split]].
  + intros c f Hf. exists f. split; [done|]. split; [by destruct f | done].
  + intros a b fa fa' H1 H2 H3 H4. congruence.
  + intros a b fb fb' H1 H2 H3 H4. congruence.
  + intros d a b Hin. by apply elem_of_nil in Hin.
- apply StronglySorted_inv in Hsorted as [Hsorted Hfirst].
  rewrite Forall_forall in Hfirst.
  assert (Hle : forall d a b, (d, (a, b)) ∈ cands -> d0 <= d).
  { intros d a b Hin. by apply (by_distance_le (d0, (a0, b0)) (d, (a, b))), Hfirst. }
  assert (Hrest : forall d a b, (d, (a, b)) ∈ cands ->
            is_Some (h !! a) /\ is_Some (h !! b))
    by (intros; eapply Halive; by right).
  destruct (Halive d0 a0 b0) as [[fa0 Ha0] [fb0 Hb0]]; [left|].
  assert (Hskip :
    (d0 <> INT_MAX -> is_Some (next fa0) \/ is_Some (prev fb0)) ->
    exists h',
      join_pairs cands h = Ok h' /\
      (forall c, h' !! c = None <-> h !! c = None) /\
      (forall c f, h !! c = Some f ->
         exists f', h' !! c = Some f' /\
                    f' = set_prev (prev f') (set_next (next f') f) /\
                    (forall x, next f = Some x -> next f' = Some x) /\
                    (forall x, prev f = Some x -> prev f' = Some x)) /\
      (forall a b fa fa',
         h !! a = Some fa -> h' !! a = Some fa' ->
         next fa = None -> next fa' = Some b ->
         exists d fb fb',
           (d, (a, b)) ∈ (d0, (a0, b0)) :: cands /\ d <> INT_MAX /\
           h !! b = Some fb /\ prev fb = None /\
           h' !! b = Some fb' /\ prev fb' = Some a) /\
      (forall a b fb fb',
         h !! b = Some fb -> h' !! b = Some fb' ->
         prev fb = None -> prev fb' = Some a ->
         exists d fa fa',
           (d, (a, b)) ∈ (d0, (a0, b0)) :: cands /\ d <> INT_MAX /\
           h !! a = Some fa /\ next fa = None /\
           h' !! a = Some fa' /\ next fa' = Some b) /\
      (forall d a b, (d, (a, b)) ∈ (d0, (a0, b0)) :: cands -> d <> INT_MAX ->
         (exists fa fa' x,
            h !! a = Some fa /\ h' !! a = Some fa' /\ next fa' = Some x /\
            (next fa = Some x \/
             exists d', (d', (a, x)) ∈ (d0, (a0, b0)) :: cands /\
                        d' <= d /\ d' <> INT_MAX)) \/
         (exists fb fb' y,
            h !! b = Some fb /\ h' !! b = Some fb' /\ prev fb' = Some y /\
            (prev fb = Some y \/
             exists d', (d', (y, b)) ∈ (d0, (a0, b0)) :: cands /\
                        d' <= d /\ d' <> INT_MAX)))).
  { intros Hhead.
    destruct (IH h Hrest Hsorted) as (h' & Hj & K0 & K1 & K2n & K2p & K3).
    exists h'. split; [done|]. split; [done|]. split; [done|].
    split; [|split].
    - intros a b fa fa' H1 H2 H3 H4.
      destruct (K2n a b fa fa' H1 H2 H3 H4) as (d & fb & fb' & Hin & Hrem).
      exists d, fb, fb'. split; [by right | done].
    - intros a b fb fb' H1 H2 H3 H4.
      destruct (K2p a b fb fb' H1 H2 H3 H4) as (d & fa & fa' & Hin & Hrem).
      exists d, fa, fa'. split; [by right | done].
    - intros d a b Hin Hd. apply elem_of_cons in Hin as [Heq | Hin].
      + injection Heq as -> -> ->.
        destruct (Hhead Hd) as [[x Hx] | [y Hy]].
        * left. destruct (K1 a0 fa0 Ha0) as (fa' & Hfa' & _ & Hkeep & _).
          exists fa0, fa', x. split; [done|]. split; [done|].
          split; [by apply Hkeep | by left].
        * right. destruct (K1 b0 fb0 Hb0) as (fb' & Hfb' & _ & _ & Hkeep).
          exists fb0, fb', y. split; [done|]. split; [done|].
          split; [by apply Hkeep | by left].
      + destruct (K3 d a b Hin Hd)
          as [(fa & fa' & x & H1 & H2 & H3 & H4) | (fb & fb' & y & H1 & H2 & H3 & H4)].
        * left. exists fa, fa', x. split; [done|]. split; [done|]. split; [done|].
          destruct H4 as [H4 | (d' & Hin' & Hrem)]; [by left|].
          right. exists d'. split; [by right | done].
        * right. exists fb, fb', y. split; [done|]. split; [done|]. split; [done|].
          destruct H4 as [H4 | (d' & Hin' & Hrem)]; [by left|].
          right. exists d'. split; [by right | done]. }
  rewrite join_pairs_cons. destruct (d0 =? INT_MAX) eqn:Hd0.
  { apply Hskip. intros Hne. by apply Z.eqb_eq in Hd0. }
  apply Z.eqb_neq in Hd0. rewrite Ha0, Hb0.
  case_bool_decide as Hna; [apply Hskip; by left|].
  case_bool_decide as Hpb; [apply Hskip; by right|].
  assert (Hfa : next fa0 = None) by (destruct (next fa0); [exfalso; eauto | done]).
  assert (Hfb : prev fb0 = None) by (destruct (prev fb0); [exfalso; eauto | done]).
  destruct (forceConnect_lookup a0 b0 h) as (h1 & Hfc & Hh1); [by eexists ..|].
  rewrite Hfc.
  destruct (IH h1) as (h' & Hj & K0 & K1 & K2n & K2p & K3); [|done|].
  { intros d' a' b' Hin. destruct (Hrest d' a' b' Hin) as [[? E1] [? E2]].
    rewrite !Hh1, E1, E2. split; by eexists. }
  assert (Hh1a : h1 !! a0 = Some (joined a0 b0 a0 fa0)) by by rewrite Hh1, Ha0.
  assert (Hh1b : h1 !! b0 = Some (joined a0 b0 b0 fb0)) by by rewrite Hh1, Hb0.
  destruct (K1 a0 _ Hh1a) as (fa0' & Hfa0' & _ & Hkn0 & _).
  destruct (K1 b0 _ Hh1b) as (fb0' & Hfb0' & _ & _ & Hkp0).
  assert (Hn0 : next fa0' = Some b0).
  { apply Hkn0. rewrite next_joined. by rewrite decide_True. }
  assert (Hp0 : prev fb0' = Some a0).
  { apply Hkp0. rewrite prev_joined. by rewrite decide_True. }
  exists h'. split; [done|]. split; [|split; [|split; [|split]]].
  + intros c. rewrite K0, Hh1. by destruct (h !! c).
  + intros c f Hf.
    destruct (K1 c (joined a0 b0 c f)) as (f' & Hf' & Heq & Hn & Hp).
    { by rewrite Hh1, Hf. }
    exists f'. split; [done|]. split; [by rewrite (joined_links a0 b0 c f) in Heq|].
    rewrite next_joined in Hn. rewrite prev_joined in Hp. split.
    * intros x Hx. apply Hn. destruct (decide (c = a0)) as [->|]; [|done].
      rewrite Ha0 in Hf. injection Hf as <-. congruence.
    * intros x Hx. apply Hp. destruct (decide (c = b0)) as [->|]; [|done].
      rewrite Hb0 in Hf. injection Hf as <-. congruence.
  + intros a b fa fa' H1 H2 H3 H4.
    destruct (decide (a = a0)) as [->|Hne].
    * assert (fa' = fa0') by congruence. subst fa'.
      assert (b = b0) by congruence. subst b.
      exists d0, fb0, fb0'. split; [left|]. by repeat split.
    * destruct (K2n a b (joined a0 b0 a fa) fa') as (d & fb1 & fb' & Hin & Hd & E1 & E2 & E3 & E4).
      { by rewrite Hh1, H1. }
      { done. }
      { rewrite next_joined. by rewrite decide_False. }
      { done. }
      rewrite Hh1 in E1. destruct (h !! b) as [fb|] eqn:Eb; [|done].
      simpl in E1. injection E1 as <-. rewrite prev_joined in E2.
      destruct (decide (b = b0)); [done|].
      exists d, fb, fb'. split; [by right|]. by repeat split.
  + intros a b fb fb' H1 H2 H3 H4.
    destruct (decide (b = b0)) as [->|Hne].
    * assert (fb' = fb0') by congruence. subst fb'.
      assert (a = a0) by congruence. subst a.
      exists d0, fa0, fa0'. split; [left|]. by repeat split.
    * destruct (K2p a b (joined a0 b0 b fb) fb') as (d & fa1 & fa' & Hin & Hd & E1 & E2 & E3 & E4).
      { by rewrite Hh1, H1. }
      { done. }
      { rewrite prev_joined. by rewrite decide_False. }
      { done. }
      rewrite Hh1 in E1. destruct (h !! a) as [fa|] eqn:Ea; [|done].
      simpl in E1. injection E1 as <-. rewrite next_joined in E2.
      destruct (decide (a = a0)); [done|].
      exists d, fa, fa'. split; [by right|]. by repeat split.
  + intros d a b Hin Hd. apply elem_of_cons in Hin as [Heq | Hin].
    * injection Heq as -> -> ->. left.
      exists fa0, fa0', b0. split; [done|]. split; [done|]. split; [done|].
      right. exists d0. split; [left|]. split; [lia | done].
    * pose proof (Hle d a b Hin) as Hd0d.
      destruct (K3 d a b Hin Hd)
        as [(fa1 & fa' & x & H1 & H2 & H3 & H4) | (fb1 & fb' & y & H1 & H2 & H3 & H4)].
      -- left. rewrite Hh1 in H1. destruct (h !! a) as [fa|] eqn:Ea; [|done].
         simpl in H1. injection H1 as <-.
         exists fa, fa', x. split; [done|]. split; [done|]. split; [done|].
         destruct H4 as [H4 | (d' & Hin' & Hrem)].
         ++ rewrite next_joined in H4. destruct (decide (a = a0)) as [->|].
            ** injection H4 as <-. right. exists d0. split; [left|]. by split.
            ** by left.
         ++ right. exists d'. split; [by right | done].
      -- right. rewrite Hh1 in H1. destruct (h !! b) as [fb|] eqn:Eb; [|done].
         simpl in H1. injection H1 as <-.
         exists fb, fb', y. split; [done|]. split; [done|]. split; [done|].
         destruct H4 as [H4 | (d' & Hin' & Hrem)].
         ++ rewrite prev_joined in H4. destruct (decide (b = b0)) as [->|].
            ** injection H4 as <-. right. exists d0. split; [left|]. by split.
            ** by left.
         ++ right. exists d'. split; [by right | done].
Qed.

Section Pairs.
Variable connectionDistance : handle -> handle -> Fragments -> Z.

Let pair_candidate := Resolver.pair_candidate connectionDistance.
Let brokenPairs_from := Resolver.brokenPairs_from connectionDistance.
Let brokenPairs := Resolver.brokenPairs connectionDistance.

Lemma brokenPairs_from_handles h : forall rest seen d a b,
  (d, (a, b)) ∈ brokenPairs_from h seen rest -> a ∈ seen ++ rest /\ b ∈ seen ++ rest.
Proof.
subst brokenPairs_from.
induction rest as [|c1 rest IH]; intros seen d a b; simpl.
- by intros ?%elem_of_nil.
- intros Hin. apply elem_of_app in Hin as [Hin | Hin].
  + apply list_elem_of_fmap in Hin as (c2 & Heq & Hc2).
    unfold Resolver.pair_candidate in Heq.
    assert (c2 ∈ seen ++ c1 :: rest) by (apply elem_of_app; by left).
    assert (c1 ∈ seen ++ c1 :: rest) by (apply elem_of_app; right; left).
    destruct (0 <=? _); by simplify_eq.
  + apply IH in Hin. by rewrite <- !app_assoc in Hin.
Qed.

Lemma brokenPairs_from_complete h : forall rest seen i j ci cj,
  (seen ++ rest) !! i = Some ci -> (seen ++ rest) !! j = Some cj ->
  (j < i)%nat -> (length seen <= i)%nat ->
  pair_candidate h ci cj ∈ brokenPairs_from h seen rest.
Proof.
subst brokenPairs_from pair_candidate.
induction rest as [|c1 rest IH]; intros seen i j ci cj Hi Hj Hlt Hge.
- rewrite app_nil_r in Hi. apply lookup_lt_Some in Hi. lia.
- simpl. apply elem_of_app.
  destruct (decide (i = length seen)) as [->|Hne].
  + left. rewrite lookup_app_r, Nat.sub_diag in Hi by lia.
    injection Hi as <-. rewrite lookup_app_l in Hj by lia.
    apply list_elem_of_fmap. exists cj. split; [done|].
    by eapply list_elem_of_lookup_2.
  + right. apply (IH (seen ++ [c1]) i j).
    * by rewrite <- app_assoc.
    * by rewrite <- app_assoc.
    * done.
    * rewrite length_app. simpl. lia.
Qed.

Lemma brokenPairs_from_length h : forall rest seen,
  (2 * length (brokenPairs_from h seen rest)
   = 2 * length seen * length rest + length rest * (length rest - 1))%nat.
Proof.
subst brokenPairs_from.
induction rest as [|c1 rest IH]; intros seen; simpl; [lia|].
rewrite length_app, length_map.
specialize (IH (seen ++ [c1])). rewrite length_app in IH. simpl in IH.
rewrite Nat.sub_0_r.
destruct (length rest) as [|n]; simpl in *; nia.
Qed.

End Pairs.

Lemma permutation_of_three {A} (a b c : A) l :
  l ≡ₚ [a; b; c] ->
  l = [a; b; c] \/ l = [a; c; b] \/ l = [b; a; c] \/
  l = [b; c; a] \/ l = [c; a; b] \/ l = [c; b; a].
Proof.
intros Hl. apply Permutation_cons_inv_r in Hl as (k1 & k2 & -> & Hk).
apply Permutation_length_2_inv in Hk as [Hk | Hk];
  destruct k1 as [|x [|y [|z k1]]]; simpl in Hk; simplify_eq; simpl; tauto.
Qed.

Ltac permutation_of_three_solve :=
  first
    [ reflexivity
    | apply perm_swap
    | apply perm_skip, perm_swap
    | etransitivity; [apply perm_skip, perm_swap | apply perm_swap]
    | etransitivity; [apply perm_swap | apply perm_skip, perm_swap]
    | etransitivity; [apply perm_swap|];
      etransitivity; [apply perm_skip, perm_swap | apply perm_swap] ].

(** [reconnectBrokenConnectors] does nothing on an empty pool, and
    otherwise runs the loop over the sorted candidates and then commits the
    chains that have become finished. *)
Lemma reconnectBrokenConnectors_steps finished addToScore connectionDistance
    start sort (s : Session) :
  reconnectBrokenConnectors finished addToScore connectionDistance start sort s
  = match _connectors s with
    | [] => Ok s
    | _ =>
        match join_pairs
                (sort (Resolver.brokenPairs connectionDistance (heap s)
                         (_connectors s))) (heap s) with
        | Ok h =>
            commit_each addToScore
              (reconnected finished start (_connectors s) h) (set_heap h s)
        | Err e => Err e
        end
    end.
Proof.
unfold reconnectBrokenConnectors.
destruct (_connectors s) eqn:E; [done|].
rewrite bool_decide_eq_false_2 by done.
destruct (join_pairs _ _) as [h'|]; [|done].
cbn [mbind res_bind]. simpl. by rewrite E.
Qed.

Section Repair.
Variable finished : handle -> Fragments -> bool.
Variable addToScore : handle -> bool -> Fragments -> Fragments.
Variable connectionDistance : handle -> handle -> Fragments -> Z.
Variable start : handle -> Fragments -> handle.
Variable sort : list candidate -> list candidate.

Let pair_candidate := Resolver.pair_candidate connectionDistance.
Let brokenPairs := Resolver.brokenPairs connectionDistance.

(** The three fragments of the example, whatever their order in
    [_connectors]: A can continue into B at distance [dAB] and into C at the
    larger distance [dAC], and B and C do not fit each other. *)
Lemma three_fragments (h : Fragments) cs sorted A B C fA fB fC dAB dAC :
  cs ≡ₚ [A; B; C] -> A <> B -> A <> C -> B <> C ->
  h !! A = Some fA -> h !! B = Some fB -> h !! C = Some fC ->
  next fA = None -> prev fB = None ->
  connectionDistance A B h = dAB -> connectionDistance B A h = - dAB ->
  connectionDistance A C h = dAC -> connectionDistance C A h = - dAC ->
  connectionDistance B C h = INT_MAX -> connectionDistance C B h = INT_MAX ->
  0 < dAB -> dAB < dAC -> dAC < INT_MAX ->
  sorted ≡ₚ brokenPairs h cs -> Sorted by_distance sorted ->
  (exists X, sorted = [(dAB, (A, B)); (dAC, (A, C)); (INT_MAX, X)]) /\
  join_pairs sorted h = Ok (<[B := set_prev (Some A) fB]>
                             (<[A := set_next (Some B) fA]> h)).
Proof.
intros Hcs HAB HAC HBC HA HB HC HnA HpB E1 E2 E3 E4 E5 E6 H0 H1 H2 Hperm Hsorted.
assert (Hpairs : exists X,
  brokenPairs h cs ≡ₚ [(dAB, (A, B)); (dAC, (A, C)); (INT_MAX, X)]).
{ subst brokenPairs. unfold Resolver.brokenPairs.
  assert (Hpos : (0 <=? dAB) = true /\ (0 <=? - dAB) = false /\
                 (0 <=? dAC) = true /\ (0 <=? - dAC) = false /\
                 (0 <=? INT_MAX) = true).
  { repeat split; try (apply Z.leb_le; lia); apply Z.leb_gt; lia. }
  destruct Hpos as (P1 & P2 & P3 & P4 & P5).
  apply permutation_of_three in Hcs
    as [-> | [-> | [-> | [-> | [-> | ->]]]]];
    simpl; unfold Resolver.pair_candidate;
    rewrite ?E1, ?E2, ?E3, ?E4, ?E5, ?E6, ?P1, ?P2, ?P3, ?P4, ?P5, ?Z.opp_involutive;
    eexists; permutation_of_three_solve. }
destruct Hpairs as [X HX].
assert (Heq : sorted = [(dAB, (A, B)); (dAC, (A, C)); (INT_MAX, X)]).
{ apply (StronglySorted_unique_strong by_distance).
  - intros x1 x2 Hx1 Hx2. rewrite Hperm, HX in Hx1.
    rewrite !by_distance_le.
    repeat (apply elem_of_cons in Hx1 as [-> | Hx1]);
      try (by apply elem_of_nil in Hx1);
      repeat (apply elem_of_cons in Hx2 as [-> | Hx2]);
      try (by apply elem_of_nil in Hx2); simpl; intros; try done; lia.
  - apply Sorted_StronglySorted; [exact by_distance_trans | done].
  - repeat (constructor; try (apply by_distance_le; simpl; lia)).
  - by rewrite Hperm. }
split; [by exists X|]. rewrite Heq.
destruct X as [x y].
rewrite join_pairs_cons.
replace (dAB =? INT_MAX) with false by (symmetry; apply Z.eqb_neq; lia).
rewrite HA, HB, HnA, HpB.
rewrite !bool_decide_eq_false_2 by (intros [? ?]; done).
unfold forceConnect, fragment. rewrite HA. cbn [mbind res_bind mret res_ret].
rewrite lookup_insert_ne, HB by done. cbn [mbind res_bind mret res_ret].
rewrite join_pairs_cons.
replace (dAC =? INT_MAX) with false by (symmetry; apply Z.eqb_neq; lia).
rewrite lookup_insert_ne, lookup_insert_eq by done.
rewrite bool_decide_eq_true_2 by (simpl; by eexists).
rewrite join_pairs_cons. by rewrite Z.eqb_refl.
Qed.

(** C5.  [std::sort] is asked for what it promises, a permutation of its
    input in which no entry compares before an earlier one.  Then the
    candidates [reconnectBrokenConnectors] works on are one directed pair
    for every two connectors, in ascending order of distance, and the
    fragments [h'] it goes on with, committing the chains that have become
    finished, are the given ones with links added greedily: a link that
    exists is kept; a new link joins the two ends of a candidate of finite
    distance, both free before, and is seen from both ends; every
    candidate of finite distance ends with its first fragment having a
    successor, or its second a predecessor, that was there before or
    comes from a candidate no farther away.  Of three broken fragments A,
    B, C as in the example, A is joined to B and C stays alone. *)
Theorem reconnect_joins_nearest_first (s : Session) :
  let cs := _connectors s in
  let h := heap s in
  let sorted := sort (brokenPairs h cs) in
  (forall l, sort l ≡ₚ l) ->
  (forall l, Sorted (fun p q => distanceSort q p = false) (sort l)) ->
  NoDup cs ->
  (forall c, c ∈ cs -> is_Some (h !! c)) ->
  (forall i j ci cj, (j < i)%nat -> cs !! i = Some ci -> cs !! j = Some cj ->
     ci <> cj /\
     (if 0 <=? connectionDistance ci cj h
      then (connectionDistance ci cj h, (ci, cj))
      else (- connectionDistance ci cj h, (cj, ci))) ∈ sorted) /\
  (2 * length sorted = length cs * (length cs - 1))%nat /\
  Sorted (fun p q : candidate => p.1 <= q.1) sorted /\
  exists h',
    reconnectBrokenConnectors finished addToScore connectionDistance start sort s
    = commit_each addToScore (reconnected finished start cs h') (set_heap h' s) /\
    (forall c, h' !! c = None <-> h !! c = None) /\
    (forall c f, h !! c = Some f ->
       exists f', h' !! c = Some f' /\
                  f' = set_prev (prev f') (set_next (next f') f) /\
                  (forall x, next f = Some x -> next f' = Some x) /\
                  (forall x, prev f = Some x -> prev f' = Some x)) /\
    (forall a b fa fa',
       h !! a = Some fa -> h' !! a = Some fa' ->
       next fa = None -> next fa' = Some b ->
       exists d fb fb',
         (d, (a, b)) ∈ sorted /\ d <> INT_MAX /\
         h !! b = Some fb /\ prev fb = None /\
         h' !! b = Some fb' /\ prev fb' = Some a) /\
    (forall a b fb fb',
       h !! b = Some fb -> h' !! b = Some fb' ->
       prev fb = None -> prev fb' = Some a ->
       exists d fa fa',
         (d, (a, b)) ∈ sorted /\ d <> INT_MAX /\
         h !! a = Some fa /\ next fa = None /\
         h' !! a = Some fa' /\ next fa' = Some b) /\
    (forall d a b, (d, (a, b)) ∈ sorted -> d <> INT_MAX ->
       (exists fa fa' x,
          h !! a = Some fa /\ h' !! a = Some fa' /\ next fa' = Some x /\
          (next fa = Some x \/
           exists d', (d', (a, x)) ∈ sorted /\ d' <= d /\ d' <> INT_MAX)) \/
       (exists fb fb' y,
          h !! b = Some fb /\ h' !! b = Some fb' /\ prev fb' = Some y /\
          (prev fb = Some y \/
           exists d', (d', (y, b)) ∈ sorted /\ d' <= d /\ d' <> INT_MAX))) /\
    (forall A B C fA fB fC dAB dAC,
       cs ≡ₚ [A; B; C] ->
       h !! A = Some fA -> h !! B = Some fB -> h !! C = Some fC ->
       next fA = None -> prev fB = None ->
       connectionDistance A B h = dAB -> connectionDistance B A h = - dAB ->
       connectionDistance A C h = dAC -> connectionDistance C A h = - dAC ->
       connectionDistance B C h = INT_MAX -> connectionDistance C B h = INT_MAX ->
       0 < dAB -> dAB < dAC -> dAC < INT_MAX ->
       h' !! A = Some (set_next (Some B) fA) /\
       h' !! B = Some (set_prev (Some A) fB) /\
       h' !! C = Some fC).
Proof.
intros cs h sorted Hperm_all Hsorted_all Hnd Halive.
assert (Hperm : sorted ≡ₚ brokenPairs h cs) by apply Hperm_all.
assert (Hsorted : Sorted by_distance sorted) by apply Hsorted_all.
assert (Hstrong : StronglySorted by_distance sorted)
  by (apply Sorted_StronglySorted; [exact by_distance_trans | done]).
split; [|split; [|split]].
- intros i j ci cj Hlt Hi Hj. split.
  + intros ->. assert (i = j); [|lia]. by eapply NoDup_lookup.
  + change (pair_candidate h ci cj ∈ sorted).
    rewrite Hperm. subst brokenPairs pair_candidate. unfold Resolver.brokenPairs.
    apply (brokenPairs_from_complete connectionDistance h cs [] i j);
      simpl; try done; lia.
- rewrite Hperm. subst brokenPairs. unfold Resolver.brokenPairs.
  rewrite brokenPairs_from_length. simpl. lia.
- clear -Hsorted. induction Hsorted as [|p l Hl IH Hp]; constructor; [done|].
  destruct Hp as [|q l Hq]; constructor. by apply by_distance_le.
- destruct (join_pairs_greedy sorted h) as (h' & Hj & K0 & K1 & K2n & K2p & K3);
    [|done|].
  { intros d a b Hin. rewrite Hperm in Hin.
    subst brokenPairs. unfold Resolver.brokenPairs in Hin.
    apply brokenPairs_from_handles in Hin as [Ha Hb]. simpl in Ha, Hb.
    split; by apply Halive. }
  exists h'. split; [|split; [done|split; [done|split; [done|split; [done|split; [done|]]]]]].
  + rewrite reconnectBrokenConnectors_steps. fold cs h.
    change (Resolver.brokenPairs connectionDistance h cs) with (brokenPairs h cs).
    fold sorted. rewrite Hj.
    destruct cs as [|c0 cs'] eqn:Ecs; [|done].
    assert (Hnil : sorted = []).
    { apply Permutation_nil_r. by rewrite Hperm. }
    rewrite Hnil in Hj. injection Hj as <-. by destruct s.
  + intros A B C fA fB fC dAB dAC Hcs HA HB HC HnA HpB E1 E2 E3 E4 E5 E6 H0 H1 H2.
    assert (Hnd3 : NoDup [A; B; C]) by by rewrite <- Hcs.
    apply NoDup_cons in Hnd3 as [HA' Hnd3]. apply NoDup_cons in Hnd3 as [HB' _].
    apply not_elem_of_cons in HA' as [HAB HA'].
    apply not_elem_of_cons in HA' as [HAC _].
    apply not_elem_of_cons in HB' as [HBC _].
    destruct (three_fragments h cs sorted A B C fA fB fC dAB dAC) as [_ Hj'];
      try done.
    rewrite Hj in Hj'. injection Hj' as ->.
    rewrite lookup_insert_ne, lookup_insert_eq by done.
    rewrite lookup_insert_eq.
    rewrite !lookup_insert_ne by done. done.
Qed.

End Repair.

(** The insertion sort meets what the theorem asks of [std::sort]. *)
Lemma insert_by_distance_perm x l : Sample.insert_by_distance x l ≡ₚ x :: l.
Proof.
induction l as [|y l IH]; simpl; [done|].
destruct (x.1 <=? y.1); [done|]. rewrite IH. apply perm_swap.
Qed.

Lemma sample_sort_perm l : Sample.sort l ≡ₚ l.
Proof.
induction l as [|x l IH]; simpl; [done|].
by rewrite insert_by_distance_perm, IH.
Qed.

Lemma insert_by_distance_sorted x l :
  Sorted by_distance l -> Sorted by_distance (Sample.insert_by_distance x l).
Proof.
induction 1 as [|y l Hl IH Hy]; simpl.
- by repeat constructor.
- destruct (Z.leb_spec x.1 y.1).
  + repeat constructor; try done. by apply by_distance_le.
  + constructor; [done|].
    destruct l as [|z l]; simpl in *.
    * constructor. apply by_distance_le. lia.
    * destruct (x.1 <=? z.1); constructor; try (apply by_distance_le; lia).
      by inversion Hy.
Qed.

Lemma sample_sort_sorted l : Sorted by_distance (Sample.sort l).
Proof.
induction l as [|x l IH]; simpl; [constructor|].
by apply insert_by_distance_sorted.
Qed.

(** The three fragments of the example, read in the order C, A, B. *)
Definition three_broken_session : Session :=
  mkSession Sample.three_broken ∅ [3; 1; 2]%positive [] [] false.

(** The example from end to end: A and B have become a finished chain,
    which is added to the score and leaves the pool; C stays. *)
Lemma reconnect_joins_nearest_first_witness :
  reconnectBrokenConnectors Sample.finished Sample.addToScore
    Sample.connectionDistance Sample.start Sample.sort three_broken_session
  = Ok (mkSession {[ 3%positive := Sample.frag_C ]} ∅ [3%positive] []
                  [(1%positive, false)] false) /\
  exists h',
    reconnectBrokenConnectors Sample.finished Sample.addToScore
      Sample.connectionDistance Sample.start Sample.sort three_broken_session
    = commit_each Sample.addToScore
        (reconnected Sample.finished Sample.start [3; 1; 2]%positive h')
        (set_heap h' three_broken_session) /\
    h' !! 1%positive = Some (set_next (Some 2%positive) Sample.frag_A) /\
    h' !! 2%positive = Some (set_prev (Some 1%positive) Sample.frag_B) /\
    h' !! 3%positive = Some Sample.frag_C.
Proof.
split; [reflexivity|].
destruct (reconnect_joins_nearest_first Sample.finished Sample.addToScore
            Sample.connectionDistance Sample.start Sample.sort
            three_broken_session)
  as (_ & _ & _ & h' & Heq & _ & _ & _ & _ & _ & Hex).
- apply sample_sort_perm.
- apply sample_sort_sorted.
- apply (bool_decide_unpack _). vm_compute. exact I.
- intros c Hc.
  repeat (apply elem_of_cons in Hc as [-> | Hc]); try (by apply elem_of_nil in Hc);
    eexists; reflexivity.
- exists h'. split; [exact Heq|].
  apply (Hex 1%positive 2%positive 3%positive Sample.frag_A Sample.frag_B
           Sample.frag_C 2 50); try reflexivity.
  permutation_of_three_solve.
Defined.

End ReconnectFacts.

(** ** The spanner registry (xmlreader.cpp, lines 455-515)

    [_spanner] is a [QList] of (id, pointer) pairs in the order of their
    registration.  A [Spanner*] is a handle or the null pointer. *)
Module Spanners.
Import Qt.

Definition SpannerPtr := option positive.

Definition nullptr : SpannerPtr := None.

Definition Registry := list (Z * SpannerPtr).

Definition addSpanner (id : Z) (s : SpannerPtr) (_spanner : Registry)
    : Registry :=
  _spanner ++ [(id, s)].

(** [QList::removeOne]: the first element equal to [i] goes, if there is one. *)
Fixpoint removeOne (i : Z * SpannerPtr) (l : Registry) : Registry :=
  match l with
  | [] => []
  | x :: l' => if decide (x = i) then l' else x :: removeOne i l'
  end.

(** The loop of [removeSpanner] and [spannerId]: the first pair whose
    pointer is [s]. *)
Fixpoint first_of_spanner (s : SpannerPtr) (l : Registry)
    : option (Z * SpannerPtr) :=
  match l with
  | [] => None
  | i :: l' => if decide (i.2 = s) then Some i else first_of_spanner s l'
  end.

Definition removeSpanner (s : SpannerPtr) (_spanner : Registry) : Registry :=
  match first_of_spanner s _spanner with
  | Some i => removeOne i _spanner
  | None => _spanner
  end.

Fixpoint findSpanner (id : Z) (_spanner : Registry) : SpannerPtr :=
  match _spanner with
  | [] => nullptr
  | i :: l' => if decide (i.1 = id) then i.2 else findSpanner id l'
  end.

Definition spannerId (s : SpannerPtr) (_spanner : Registry) : Z :=
  match first_of_spanner s _spanner with
  | Some i => i.1
  | None => -1
  end.

(** [SpannerValues] carries the id it belongs to; [spannerValues] hands out
    a pointer to the first entry with the id, or null. *)
Section Values.
Variable SpannerValues : Type.
Variable spannerIdOf : SpannerValues -> Z.

Fixpoint spannerValues (id : Z) (_spannerValues : list SpannerValues)
    : option SpannerValues :=
  match _spannerValues with
  | [] => None
  | v :: l' => if decide (spannerIdOf v = id) then Some v
               else spannerValues id l'
  end.
End Values.

End Spanners.

Module SpannerFacts.
Import Qt Spanners.

Lemma first_of_spanner_split s l i :
  first_of_spanner s l = Some i ->
  exists pre post, l = pre ++ i :: post /\ i.2 = s /\ s ∉ pre.*2.
Proof.
induction l as [|x l IH]; simpl; [done|].
case_decide as Hx.
- intros [= <-]. exists [], l. split; [done|]. split; [done|]. apply not_elem_of_nil.
- intros H. destruct (IH H) as (pre & post & -> & Hi & Hpre).
  exists (x :: pre), post. split; [done|]. split; [done|].
  simpl. by apply not_elem_of_cons.
Qed.

Lemma first_of_spanner_none s l :
  first_of_spanner s l = None <-> s ∉ l.*2.
Proof.
induction l as [|x l IH]; simpl.
- split; [intros _; apply not_elem_of_nil | done].
- case_decide as Hx.
  + split; [done|]. intros Hn. exfalso. apply Hn. rewrite <- Hx. left.
  + rewrite IH, not_elem_of_cons. split; [by intros ? | by intros [_ ?]].
Qed.

Lemma first_of_spanner_app s pre i post :
  s ∉ pre.*2 -> i.2 = s -> first_of_spanner s (pre ++ i :: post) = Some i.
Proof.
induction pre as [|x pre IH]; simpl; intros Hpre Hi.
- by rewrite decide_True.
- apply not_elem_of_cons in Hpre as [Hx Hpre].
  rewrite decide_False by done. by apply IH.
Qed.

Lemma removeOne_app i pre post :
  i ∉ pre -> removeOne i (pre ++ i :: post) = pre ++ post.
Proof.
induction pre as [|x pre IH]; simpl; intros Hpre.
- by rewrite decide_True.
- apply not_elem_of_cons in Hpre as [Hx Hpre].
  rewrite decide_False by done. f_equal. by apply IH.
Qed.

Lemma findSpanner_app id l1 l2 :
  findSpanner id (l1 ++ l2) =
  if decide (id ∈ l1.*1) then findSpanner id l1 else findSpanner id l2.
Proof.
induction l1 as [|x l1 IH].
- reflexivity.
- assert (Hcons : findSpanner id ((x :: l1) ++ l2) =
                  if decide (x.1 = id) then x.2 else findSpanner id (l1 ++ l2))
    by reflexivity.
  assert (Hhead : findSpanner id (x :: l1) =
                  if decide (x.1 = id) then x.2 else findSpanner id l1)
    by reflexivity.
  rewrite Hcons, Hhead, IH. clear Hcons Hhead IH.
  assert (Hin : id ∈ (x :: l1).*1 <-> x.1 = id \/ id ∈ l1.*1).
  { rewrite fmap_cons, elem_of_cons. split; intros [?|?]; auto. }
  destruct (decide (x.1 = id)) as [Hx|Hx];
    destruct (decide (id ∈ l1.*1)) as [Hl|Hl];
    destruct (decide (id ∈ (x :: l1).*1)) as [Hc|Hc]; try done;
    exfalso; tauto.
Qed.

(** X1: The first registration of an id wins: [findSpanner] after [addSpanner]
    answers as before for every id that was registered, gives the new
    spanner for the new id, and null for any other id. *)
Theorem findSpanner_addSpanner id s id' (l : Registry) :
  findSpanner id' (addSpanner id s l) =
  if decide (id' ∈ l.*1) then findSpanner id' l
  else if decide (id = id') then s else nullptr.
Proof.
unfold addSpanner. rewrite findSpanner_app. simpl.
by destruct (decide (id' ∈ l.*1)).
Qed.

(** X2: [findSpanner] answers null for an id that is not registered, and
    otherwise a pointer stored under that id. *)
Theorem findSpanner_registered id (l : Registry) :
  (id ∉ l.*1 -> findSpanner id l = nullptr) /\
  (id ∈ l.*1 -> (id, findSpanner id l) ∈ l).
Proof.
induction l as [|x l [IH1 IH2]]; simpl.
- split; [done|]. by intros ?%elem_of_nil.
- destruct (decide (x.1 = id)) as [Hx|Hx].
  + split.
    * intros Hn. exfalso. apply Hn. rewrite <- Hx. left.
    * intros _. rewrite <- Hx. destruct x. left.
  + split.
    * intros Hn. apply IH1. by apply not_elem_of_cons in Hn as [_ ?].
    * intros Hin. right. apply IH2.
      by apply elem_of_cons in Hin as [?|?].
Qed.

(** X3: [removeSpanner] takes out the first entry that points to the spanner
    and nothing else: later entries for the same spanner stay. *)
Theorem removeSpanner_first s pre i post :
  i.2 = s -> s ∉ pre.*2 ->
  removeSpanner s (pre ++ i :: post) = pre ++ post.
Proof.
intros Hi Hpre. unfold removeSpanner.
rewrite first_of_spanner_app by done.
apply removeOne_app. intros Hin. apply Hpre.
rewrite <- Hi. apply list_elem_of_fmap. by exists i.
Qed.

Lemma removeSpanner_first_witness :
  removeSpanner (Some 7%positive)
    [(1, Some 5%positive); (2, Some 7%positive); (3, Some 7%positive)]
  = [(1, Some 5%positive); (3, Some 7%positive)].
Proof.
apply (removeSpanner_first (Some 7%positive) [(1, Some 5%positive)]
         (2, Some 7%positive) [(3, Some 7%positive)]).
- reflexivity.
- simpl. rewrite not_elem_of_cons. split; [discriminate | apply not_elem_of_nil].
Defined.

(** X4: [removeSpanner] of a spanner that is not registered leaves the
    registry as it is. *)
Theorem removeSpanner_unregistered s (l : Registry) :
  s ∉ l.*2 -> removeSpanner s l = l.
Proof.
intros Hs. unfold removeSpanner.
by rewrite (proj2 (first_of_spanner_none s l) Hs).
Qed.

Lemma removeSpanner_unregistered_witness :
  removeSpanner (Some 9%positive) [(1, Some 5%positive)] = [(1, Some 5%positive)].
Proof.
apply removeSpanner_unregistered.
simpl. rewrite not_elem_of_cons. split; [discriminate | apply not_elem_of_nil].
Defined.

(** X5: Registering a spanner that was not registered and removing it again
    gives the registry back, and its id can be read in between. *)
Theorem addSpanner_removeSpanner id s (l : Registry) :
  s ∉ l.*2 ->
  spannerId s (addSpanner id s l) = id /\
  removeSpanner s (addSpanner id s l) = l.
Proof.
intros Hs. unfold addSpanner, spannerId. split.
- by rewrite (first_of_spanner_app s l (id, s) []).
- unfold removeSpanner. rewrite (first_of_spanner_app s l (id, s) []) by done.
  rewrite (removeOne_app (id, s) l []); [apply app_nil_r|].
  intros Hin. apply Hs. apply list_elem_of_fmap. by exists (id, s).
Qed.

Lemma addSpanner_removeSpanner_witness :
  spannerId (Some 7%positive) (addSpanner 4 (Some 7%positive) [(1, Some 5%positive)]) = 4 /\
  removeSpanner (Some 7%positive)
    (addSpanner 4 (Some 7%positive) [(1, Some 5%positive)])
  = [(1, Some 5%positive)].
Proof.
apply addSpanner_removeSpanner.
simpl. rewrite not_elem_of_cons. split; [discriminate | apply not_elem_of_nil].
Defined.

(** X6: With every id registered once, the id of a registered spanner leads
    back to it. *)
Theorem findSpanner_spannerId s (l : Registry) :
  NoDup l.*1 -> s ∈ l.*2 ->
  findSpanner (spannerId s l) l = s.
Proof.
intros Hnd Hs. unfold spannerId.
destruct (first_of_spanner s l) as [i|] eqn:Hf.
- apply first_of_spanner_split in Hf as (pre & post & -> & Hi & _).
  rewrite findSpanner_app.
  rewrite fmap_app in Hnd. apply NoDup_app in Hnd as (_ & Hdisj & _).
  rewrite decide_False.
  + simpl. by rewrite decide_True.
  + intros Hin. apply (Hdisj _ Hin). simpl. left.
- apply first_of_spanner_none in Hf. done.
Qed.

Lemma findSpanner_spannerId_witness :
  findSpanner
    (spannerId (Some 7%positive) [(1, Some 5%positive); (2, Some 7%positive)])
    [(1, Some 5%positive); (2, Some 7%positive)] = Some 7%positive.
Proof.
apply findSpanner_spannerId.
- apply (bool_decide_unpack _). vm_compute. exact I.
- simpl. right. left.
Defined.

(** X7: [spannerId] answers -1 exactly for a spanner that is not registered,
    as long as no spanner is registered under -1 itself. *)
Theorem spannerId_not_found s (l : Registry) :
  -1 ∉ l.*1 -> (spannerId s l = -1 <-> s ∉ l.*2).
Proof.
intros Hneg. unfold spannerId. rewrite <- first_of_spanner_none.
destruct (first_of_spanner s l) as [i|] eqn:Hf; [|done].
split; [|done]. intros Hi. exfalso. apply Hneg.
apply first_of_spanner_split in Hf as (pre & post & -> & _ & _).
rewrite <- Hi. apply list_elem_of_fmap. exists i. split; [done|].
apply elem_of_app. right. left.
Qed.

Lemma spannerId_not_found_witness :
  spannerId (Some 9%positive) [(1, Some 5%positive)] = -1.
Proof.
apply (spannerId_not_found (Some 9%positive) [(1, Some 5%positive)]).
- simpl. rewrite not_elem_of_cons. split; [discriminate | apply not_elem_of_nil].
- simpl. rewrite not_elem_of_cons. split; [discriminate | apply not_elem_of_nil].
Defined.

End SpannerFacts.

(** *** The table of user text styles after any sequence of calls *)
Module TextStyleFacts.
Import TextStyles.

(** The slot handed out when [k] styles are registered. *)
Definition slot (k : nat) : TextStyleType := default TEXT_TYPES (slots !! k).

Lemma addUserTextStyle_step styles n :
  addUserTextStyle styles n =
  (slot (length styles),
   styles ++ zip_with mkStyle [n] (drop (length styles) slots)).
Proof.
destruct (decide (length styles < 12)%nat) as [Hlt|Hge].
- do 12 (destruct styles as [|? styles]; [reflexivity|]).
  simpl in Hlt. lia.
- rewrite drop_ge by (simpl; lia).
  unfold slot. rewrite lookup_ge_None_2 by (simpl; lia).
  rewrite zip_with_nil_r, app_nil_r.
  do 12 (destruct styles as [|? styles]; [simpl in Hge; lia|]).
  reflexivity.
Qed.

Lemma slot_full k : (12 <= k)%nat -> slot k = TEXT_TYPES.
Proof.
intros Hk. unfold slot. rewrite lookup_ge_None_2; [done|]. simpl. lia.
Qed.

Lemma addAll_closed_form names : forall styles,
  addAll styles names =
  ((fun j => slot (length styles + j)) <$> seq 0 (length names),
   styles ++ zip_with mkStyle names (drop (length styles) slots)).
Proof.
induction names as [|n names IH]; intros styles.
- simpl. by rewrite app_nil_r.
- cbn [addAll]. rewrite addUserTextStyle_step.
  destruct (decide (length styles < 12)%nat) as [Hlt|Hge].
  + destruct (drop (length styles) slots) as [|s rest] eqn:Hd.
    { apply (f_equal length) in Hd. rewrite length_drop in Hd.
      simpl in Hd. lia. }
    assert (Hs : rest = drop (S (length styles)) slots).
    { rewrite <- Nat.add_1_r, <- drop_drop, Hd. reflexivity. }
    rewrite IH. rewrite length_app. simpl length.
    rewrite <- app_assoc. simpl.
    replace (length styles + 1)%nat with (S (length styles)) by lia.
    rewrite <- Hs. f_equal. rewrite Nat.add_0_r. f_equal.
    rewrite <- fmap_S_seq, <- list_fmap_compose.
    apply list_fmap_ext. intros _ j _. simpl. f_equal. lia.
  + rewrite drop_ge by (simpl; lia).
    rewrite zip_with_nil_r, app_nil_r, IH.
    rewrite drop_ge by (simpl; lia). rewrite !zip_with_nil_r, app_nil_r.
    f_equal. simpl. rewrite Nat.add_0_r. f_equal.
    rewrite <- fmap_S_seq, <- list_fmap_compose.
    apply list_fmap_ext. intros _ j _. simpl.
    rewrite !slot_full by lia. done.
Qed.

(** X9: Any number of calls with any names, starting from an empty table: call
    number [j] (from 0) answers slot [j], which is [TEXT_TYPES] from the
    thirteenth call on, and the table holds the first twelve names with the
    slots USER1 ... USER12 in order, repeated names included. *)
Theorem addAll_from_empty names :
  addAll [] names = (slot <$> seq 0 (length names), table names slots) /\
  (length (addAll [] names).2 <= 12)%nat /\
  (forall j, (12 <= j)%nat -> slot j = TEXT_TYPES).
Proof.
rewrite addAll_closed_form. simpl. split; [done|]. split.
- unfold table. rewrite length_zip_with. simpl. lia.
- apply slot_full.
Qed.

Lemma lookup_zip_first names : forall (sl : list TextStyleType) i n,
  names !! i = Some n ->
  (forall j, (j < i)%nat -> names !! j <> Some n) ->
  lookupUserTextStyle (zip_with mkStyle names sl) n
  = default TEXT_TYPES (sl !! i).
Proof.
induction names as [|m names IH]; intros sl i n Hi Hfirst; [done|].
destruct sl as [|s sl]; [by destruct i|].
simpl. destruct i as [|i]; simpl in *.
- simplify_eq. by rewrite String.eqb_refl.
- destruct (String.eqb_spec m n) as [->|Hne].
  + exfalso. apply (Hfirst 0%nat); [lia | done].
  + apply IH; [done|]. intros j Hj. apply (Hfirst (S j)). lia.
Qed.

(** X10: A name keeps the slot of its first registration: after any sequence of
    calls, looking a name up gives the slot of the first call that passed
    it, and "not found" when that call was the thirteenth or later. *)
Theorem lookup_after_addAll names i n :
  names !! i = Some n ->
  (forall j, (j < i)%nat -> names !! j <> Some n) ->
  lookupUserTextStyle (addAll [] names).2 n = slot i.
Proof.
intros Hi Hfirst. rewrite addAll_closed_form. simpl.
by apply lookup_zip_first.
Qed.

Lemma lookup_after_addAll_witness :
  lookupUserTextStyle (addAll [] ["a"; "b"; "a"]%string).2 "a" = USER1.
Proof.
apply (lookup_after_addAll ["a"; "b"; "a"]%string 0 "a"%string eq_refl).
intros j Hj. lia.
Defined.

(** X11: A name that was never passed is not found. *)
Theorem lookup_never_added names n styles :
  n ∉ names -> n ∉ name <$> styles ->
  lookupUserTextStyle (addAll styles names).2 n = TEXT_TYPES.
Proof.
intros Hn Hs. rewrite addAll_closed_form. simpl.
apply lookup_unbound. rewrite fmap_app. intros Hin.
apply elem_of_app in Hin as [Hin|Hin]; [done|].
apply Hn. apply list_elem_of_fmap in Hin as (st & -> & Hst).
apply list_elem_of_lookup_1 in Hst as [k Hk].
rewrite lookup_zip_with in Hk.
destruct (names !! k) as [m|] eqn:Hm; simpl in Hk; [|done].
destruct (drop (length styles) slots !! k); simpl in Hk; [|done].
simplify_eq. simpl. by eapply list_elem_of_lookup_2.
Qed.

Lemma lookup_never_added_witness :
  lookupUserTextStyle (addAll [] ["a"; "b"]%string).2 "c" = TEXT_TYPES.
Proof.
apply lookup_never_added.
- rewrite !not_elem_of_cons. repeat split; try discriminate. apply not_elem_of_nil.
- apply not_elem_of_nil.
Defined.

End TextStyleFacts.

(** *** More on the cursor *)
Module CursorMore.
Import Qt Frac FracFacts Cursor CursorFacts.

(** X12: A location whose three fields are all set is handed back as it is. *)
Theorem fillLocation_complete l b r :
  Loc.track l <> Loc.unset ->
  eqb (Loc.frac l) (mkFraction Loc.unset 1) = false ->
  Loc.measure l <> Loc.unset ->
  fillLocation l b r = l.
Proof.
intros Ht Hf Hm. unfold fillLocation. simpl.
rewrite (proj2 (Z.eqb_neq _ _) Ht), Hf, (proj2 (Z.eqb_neq _ _) Hm). done.
Qed.

Lemma fillLocation_complete_witness :
  fillLocation (Loc.mkLocation 4 (mkFraction 1 4) 2 false) false fresh_reader
  = Loc.mkLocation 4 (mkFraction 1 4) 2 false.
Proof.
apply fillLocation_complete; [discriminate | reflexivity | discriminate].
Defined.

(** X13: Filling twice is filling once. *)
Theorem fillLocation_idempotent l b r :
  fillLocation (fillLocation l b r) b r = fillLocation l b r.
Proof.
unfold fillLocation, Loc.setTrack, Loc.setFrac, Loc.setMeasure.
destruct l as [t f m rel]. simpl.
set (v := if pasteMode r || b then tick r else rtick r).
set (i := if pasteMode r || b then 0 else currentMeasureIndex r).
destruct (t =? Loc.unset) eqn:Et; simpl;
  destruct (eqb f (mkFraction Loc.unset 1)) eqn:Ef; simpl;
  destruct (m =? Loc.unset) eqn:Em; simpl;
  rewrite ?Et, ?Ef, ?Em; simpl;
  destruct (track r =? Loc.unset) eqn:Et'; simpl;
  rewrite ?Et, ?Ef, ?Em; simpl;
  destruct (eqb v (mkFraction Loc.unset 1)) eqn:Ef'; simpl;
  rewrite ?Et, ?Ef, ?Em; simpl;
  destruct (i =? Loc.unset) eqn:Em'; simpl;
  rewrite ?Et, ?Ef, ?Em; reflexivity.
Qed.

(** X14: Two advances are one advance by the sum: the same tick, and an integer
    mirror that has grown by the two integer deltas. *)
Theorem incTick_incTick division f g r :
  wf (_tick r) -> wf f -> wf g ->
  _tick (incTick division g (incTick division f r))
  = _tick (incTick division (add f g) r) /\
  _intTick (incTick division g (incTick division f r))
  = _intTick r + ticks division f + ticks division g /\
  canonical (_tick (incTick division g (incTick division f r))).
Proof.
intros Ht Hf Hg. unfold incTick. simpl.
assert (H1 : wf (add (_tick r) f)) by by apply add_wf.
assert (H2 : wf (add (reduced (add (_tick r) f)) g)).
{ apply add_wf; [|done]. apply canonical_wf. by apply reduced_canonical. }
assert (H3 : wf (add (_tick r) (add f g))).
{ apply add_wf; [done|]. by apply add_wf. }
split; [|split; [done | by apply reduced_canonical]].
apply canonical_unique; [by apply reduced_canonical ..|].
eapply equiv_trans; [exact H2 | by apply reduced_equiv |].
eapply equiv_trans; [exact H3 | | apply equiv_sym; by apply reduced_equiv].
eapply equiv_trans; [exact (add_wf _ _ H1 Hg) | |].
- apply add_equiv_l. by apply reduced_equiv.
- unfold equiv. simpl. ring.
Qed.

Lemma incTick_incTick_witness :
  _tick (incTick 480 (mkFraction 1 8) (incTick 480 (mkFraction 1 8) start_of_paste))
  = mkFraction 1 4.
Proof.
destruct (incTick_incTick 480 (mkFraction 1 8) (mkFraction 1 8) start_of_paste)
  as (Ht & _); [unfold wf; simpl; lia ..|].
rewrite Ht. reflexivity.
Defined.

(** X15: [setTick] stores the fraction in lowest terms, with the integer mirror
    read off the stored value, and touches nothing else. *)
Theorem setTick_canonical division f r :
  wf f ->
  canonical (_tick (setTick division f r)) /\
  equiv (_tick (setTick division f r)) f /\
  _intTick (setTick division f r) = ticks division (_tick (setTick division f r)) /\
  rtick (setTick division f r)
  = match _curMeasure r with
    | Some m => sub (reduced f) (m_tick m)
    | None => reduced f
    end.
Proof.
intros Hf. unfold setTick, rtick. simpl.
split; [by apply reduced_canonical|]. split; [by apply reduced_equiv|]. done.
Qed.

Lemma setTick_canonical_witness :
  _tick (setTick 480 (mkFraction 2 8) start_of_paste) = mkFraction 1 4 /\
  _intTick (setTick 480 (mkFraction 2 8) start_of_paste) = 480.
Proof.
destruct (setTick_canonical 480 (mkFraction 2 8) start_of_paste)
  as (_ & _ & Hi & _); [unfold wf; simpl; lia|].
split; [reflexivity|]. rewrite Hi. reflexivity.
Defined.

(** X16: Reading the position back after an absolute [setLocation]: the track
    is the one that was set; in paste mode the time is the one that was set
    and the measure index is 0; outside paste mode the time is the one that
    was set less the tick offset, relative to the current measure. *)
Theorem location_after_setLocation division asserts fuel l r r' :
  Loc.isRelative l = false ->
  wf (Loc.frac l) -> wf (_tickOffset r) ->
  (forall m, _curMeasure r = Some m -> wf (m_tick m)) ->
  setLocation division asserts (S fuel) l r = Done r' ->
  Loc.track (location false r') = Loc.track l /\
  equiv (Loc.frac (location false r'))
        (if _pasteMode r then Loc.frac l else sub (Loc.frac l) (_tickOffset r)) /\
  Loc.measure (location false r')
  = (if _pasteMode r then 0 else _curMeasureIdx r) /\
  Loc.isRelative (location false r') = false.
Proof.
intros Hrel Hl Hoff Hm. cbn [setLocation]. rewrite Hrel.
rewrite location_fields.
unfold setLocationAbsolute, setTick, incTick, track, tick, rtick, pasteMode,
  currentMeasure, currentMeasureIndex.
destruct r as [t it tr tro off cm idx pm]. simpl in *.
assert (Hx : wf (sub (Loc.frac l) off)) by by apply sub_wf.
pose proof (reduced_canonical _ Hx) as Hc.
destruct pm; simpl.
- intros [= <-]. simpl. split; [lia|]. split; [|done].
  apply (equiv_trans _ (add (sub (Loc.frac l) off) off)).
  + apply add_wf; [by apply sub_wf | done].
  + apply add_equiv_l. by apply reduced_equiv.
  + apply sub_add_cancel.
- destruct (asserts && negb (Loc.measure l =? idx)); [done|].
  destruct cm as [m|]; [|done]. specialize (Hm m eq_refl).
  intros [= <-]. simpl. split; [lia|]. split; [|done].
  set (x := reduced (sub (Loc.frac l) off)) in *.
  assert (Hsum : wf (add x (m_tick m)))
    by (apply add_wf; [by apply canonical_wf | done]).
  apply (equiv_trans _ (sub (add x (m_tick m)) (m_tick m)));
    [exact (sub_wf _ _ Hsum Hm) | |].
  + apply sub_equiv_l. by apply reduced_equiv.
  + apply (equiv_trans _ x); [by apply canonical_wf | apply add_sub_cancel |].
    by apply reduced_equiv.
Qed.

(** A location in the third quarter of a measure that starts at 1/1. *)
Definition in_second_measure : XmlReader :=
  mkReader (mkFraction 0 1) 0 0 0 (mkFraction 0 1)
           (Some (mkMeasure (mkFraction 1 1))) 1 false.

Lemma location_after_setLocation_witness :
  exists r',
    setLocation 480 true 1 (Loc.mkLocation 4 (mkFraction 1 2) 1 false)
      in_second_measure = Done r' /\
    _tick r' = mkFraction 3 2 /\
    Loc.track (location false r') = 4.
Proof.
eexists. split; [reflexivity|]. split; [reflexivity|].
refine (proj1 (location_after_setLocation 480 true 0
                 (Loc.mkLocation 4 (mkFraction 1 2) 1 false)
                 in_second_measure _ eq_refl _ _ _ eq_refl)).
- unfold wf. simpl. lia.
- unfold wf. simpl. lia.
- intros m [= <-]. unfold wf. simpl. lia.
Defined.

End CursorMore.

(** *** More on the connector pool *)
Module ConnectorMore.
Import Qt Connectors Resolver ResolverFacts ReconnectFacts DestructorFacts.

(** The links of a pool are consistent when "next" and "prev" mirror each
    other: a fragment's successor is alive and names it as predecessor, and
    the other way round. *)
Definition consistent (h : Fragments) : Prop :=
  (forall a b fa, h !! a = Some fa -> next fa = Some b ->
     exists fb, h !! b = Some fb /\ prev fb = Some a) /\
  (forall a b fb, h !! b = Some fb -> prev fb = Some a ->
     exists fa, h !! a = Some fa /\ next fa = Some b).

Lemma forceConnect_consistent a b (h h1 : Fragments) fa fb :
  consistent h ->
  h !! a = Some fa -> h !! b = Some fb ->
  next fa = None -> prev fb = None ->
  forceConnect a b h = Ok h1 -> consistent h1.
Proof.
intros [Hn Hp] Ha Hb Hna Hpb Hfc.
destruct (forceConnect_lookup a b h) as (h1' & Hfc' & Hh1); [by eexists ..|].
rewrite Hfc in Hfc'. injection Hfc' as <-.
split.
- intros x y fx' Hx Hnx. rewrite Hh1 in Hx.
  destruct (h !! x) as [fx|] eqn:Ex; simpl in Hx; [|done].
  injection Hx as <-. rewrite next_joined in Hnx.
  destruct (decide (x = a)) as [->|Hxa].
  + injection Hnx as <-. exists (joined a b b fb).
    split; [by rewrite Hh1, Hb|]. rewrite prev_joined. by rewrite decide_True.
  + destruct (Hn x y fx Ex Hnx) as (fy & Ey & Hpy).
    exists (joined a b y fy). split; [by rewrite Hh1, Ey|].
    rewrite prev_joined. destruct (decide (y = b)) as [->|]; [|done].
    rewrite Hb in Ey. injection Ey as <-. congruence.
- intros x y fy' Hy Hpy. rewrite Hh1 in Hy.
  destruct (h !! y) as [fy|] eqn:Ey; simpl in Hy; [|done].
  injection Hy as <-. rewrite prev_joined in Hpy.
  destruct (decide (y = b)) as [->|Hyb].
  + injection Hpy as <-. exists (joined a b a fa).
    split; [by rewrite Hh1, Ha|]. rewrite next_joined. by rewrite decide_True.
  + destruct (Hp x y fy Ey Hpy) as (fx & Ex & Hnx).
    exists (joined a b x fx). split; [by rewrite Hh1, Ex|].
    rewrite next_joined. destruct (decide (x = a)) as [->|]; [|done].
    rewrite Ha in Ex. injection Ex as <-. congruence.
Qed.

(** X17: The loop over the candidates keeps the links consistent, whatever the
    candidates and their order are. *)
Theorem join_pairs_consistent cands : forall h : Fragments,
  consistent h ->
  (forall d a b, (d, (a, b)) ∈ cands -> is_Some (h !! a) /\ is_Some (h !! b)) ->
  exists h', join_pairs cands h = Ok h' /\ consistent h' /\
             forall c, is_Some (h' !! c) <-> is_Some (h !! c).
Proof.
induction cands as [|[d [a b]] cands IH]; intros h Hcons Halive.
- exists h. split; [done|]. split; [done|]. intros c. reflexivity.
- assert (Hrest : forall d' a' b', (d', (a', b')) ∈ cands ->
            is_Some (h !! a') /\ is_Some (h !! b'))
    by (intros; eapply Halive; by right).
  destruct (Halive d a b) as [[fa Ha] [fb Hb]]; [left|].
  rewrite join_pairs_cons. destruct (d =? INT_MAX); [by apply IH|].
  rewrite Ha, Hb.
  case_bool_decide as Hna; [by apply IH|].
  case_bool_decide as Hpb; [by apply IH|].
  assert (Hfa : next fa = None) by (destruct (next fa); [exfalso; eauto | done]).
  assert (Hfb : prev fb = None) by (destruct (prev fb); [exfalso; eauto | done]).
  destruct (forceConnect_lookup a b h) as (h1 & Hfc & Hh1); [by eexists ..|].
  rewrite Hfc.
  assert (Hdom : forall c, is_Some (h1 !! c) <-> is_Some (h !! c)).
  { intros c. rewrite Hh1. by rewrite fmap_is_Some. }
  destruct (IH h1) as (h' & Hj & Hc' & Hdom').
  + apply (forceConnect_consistent a b h h1 fa fb); done.
  + intros d' a' b' Hin. rewrite !Hdom. by eapply Hrest.
  + exists h'. split; [done|]. split; [done|].
    intros c. by rewrite Hdom', Hdom.
Qed.

(** A start and an end fragment of different connectors, not yet joined. *)
Definition two_loose : Fragments :=
  {[ 1%positive := Sample.frag_A; 2%positive := Sample.frag_B ]}.

Lemma join_pairs_consistent_witness :
  exists h', join_pairs [(2, (1%positive, 2%positive))] two_loose = Ok h' /\
             consistent h'.
Proof.
destruct (join_pairs_consistent [(2, (1%positive, 2%positive))] two_loose)
  as (h' & Hj & Hc & _).
- split.
  + intros a b fa Ha Hn. exfalso.
    destruct (decide (a = 1%positive)) as [->|];
      [|destruct (decide (a = 2%positive)) as [->|]].
    * vm_compute in Ha. by simplify_eq.
    * vm_compute in Ha. by simplify_eq.
    * unfold two_loose in Ha.
      rewrite lookup_insert_ne, lookup_singleton_ne in Ha by done. done.
  + intros a b fb Hb Hp. exfalso.
    destruct (decide (b = 1%positive)) as [->|];
      [|destruct (decide (b = 2%positive)) as [->|]].
    * vm_compute in Hb. by simplify_eq.
    * vm_compute in Hb. by simplify_eq.
    * unfold two_loose in Hb.
      rewrite lookup_insert_ne, lookup_singleton_ne in Hb by done. done.
- intros d a b Hin. apply elem_of_cons in Hin as [Hin | Hin];
    [|by apply elem_of_nil in Hin].
  simplify_eq. split; eexists; reflexivity.
- exists h'. by split.
Defined.

Lemma filter_none {A} (P : A -> Prop) `{forall x, Decision (P x)} (l : list A) :
  (forall x, x ∈ l -> ~ P x) -> filter P l = [].
Proof.
induction l as [|x l IH]; intros Hall; [done|].
rewrite filter_cons_False by (apply Hall; left).
apply IH. intros y Hy. apply Hall. by right.
Qed.

(** Candidates at infinite distance change nothing, even dangling ones. *)
Lemma join_pairs_all_infinite cands (h : Fragments) :
  Forall (fun c : candidate => c.1 = INT_MAX) cands ->
  join_pairs cands h = Ok h.
Proof.
induction 1 as [|[d [a b]] cands Hd _ IH]; [done|].
rewrite join_pairs_cons. simpl in Hd. rewrite Hd, Z.eqb_refl. exact IH.
Qed.

Section Repair.
Variable finished : handle -> Fragments -> bool.
Variable addToScore : handle -> bool -> Fragments -> Fragments.
Variable connectionDistance : handle -> handle -> Fragments -> Z.
Variable start : handle -> Fragments -> handle.
Variable sort : list candidate -> list candidate.

Lemma brokenPairs_from_infinite h rest : forall seen,
  (forall c1 c2, connectionDistance c1 c2 h = INT_MAX \/
                 connectionDistance c1 c2 h = - INT_MAX) ->
  Forall (fun c : candidate => c.1 = INT_MAX)
         (brokenPairs_from connectionDistance h seen rest).
Proof.
induction rest as [|c1 rest IH]; intros seen Hinf; simpl; [constructor|].
apply Forall_app. split; [|by apply IH].
apply Forall_fmap, Forall_forall. intros c2 _. unfold pair_candidate. simpl.
destruct (Hinf c1 c2) as [-> | ->]; reflexivity.
Qed.

(** X18: When no two fragments fit and no chain is finished, the repair pass
    hands the session back as it was. *)
Theorem reconnect_nothing_to_repair (s : Session) :
  (forall c1 c2, connectionDistance c1 c2 (heap s) = INT_MAX \/
                 connectionDistance c1 c2 (heap s) = - INT_MAX) ->
  (forall l, sort l ≡ₚ l) ->
  (forall c, c ∈ _connectors s -> finished c (heap s) = false) ->
  reconnectBrokenConnectors finished addToScore connectionDistance start sort s
  = Ok s.
Proof.
intros Hinf Hsort Hfin. rewrite reconnectBrokenConnectors_steps.
destruct (_connectors s) as [|c cs] eqn:E; [done|].
rewrite join_pairs_all_infinite.
- assert (Hnone : reconnected finished start (c :: cs) (heap s) = []).
  { unfold reconnected.
    replace (filter (fun c0 => finished c0 (heap s) = true) (c :: cs))
      with (@nil handle); [done|].
    symmetry. apply filter_none.
    intros x Hx. rewrite (Hfin x Hx). done. }
  rewrite Hnone. simpl. by destruct s.
- rewrite Forall_forall. intros x Hx. rewrite Hsort in Hx. revert x Hx.
  apply Forall_forall. by apply brokenPairs_from_infinite.
Qed.

End Repair.

Lemma reconnect_nothing_to_repair_witness :
  reconnectBrokenConnectors Sample.finished Sample.addToScore
    (fun _ _ _ => INT_MAX) Sample.start Sample.sort
    (mkSession two_loose ∅ [1%positive; 2%positive] [] [] false)
  = Ok (mkSession two_loose ∅ [1%positive; 2%positive] [] [] false).
Proof.
apply reconnect_nothing_to_repair.
- intros. by left.
- apply sample_sort_perm.
- intros c Hc. simpl in Hc.
  repeat (apply elem_of_cons in Hc as [-> | Hc]); try (by apply elem_of_nil in Hc);
    reflexivity.
Defined.

End ConnectorMore.

Module PoolMore.
Import Qt Connectors Resolver ResolverFacts DestructorFacts.

(** X19: [removeConnector] may be handed any fragment of a chain: it walks back
    to the head first, so the outcome is the same for every member, and the
    members are what leaves [_connectors]. *)
Theorem removeConnector_any_member s chain c c' :
  is_chain (heap s) chain -> NoDup chain -> NoDup (_connectors s) ->
  c ∈ chain -> c' ∈ chain ->
  exists s',
    removeConnector c s = Ok s' /\ removeConnector c' s = Ok s' /\
    _connectors s' = filter (fun x => x ∉ chain) (_connectors s) /\
    (forall x, x ∉ chain -> heap s' !! x = heap s !! x) /\
    score s' = score s.
Proof.
intros Hch Hnd Hcs Hc Hc'.
destruct (removeConnector_chain s chain c) as (s1 & H1 & Hf & Hh & _ & _ & Hs & _);
  try done.
exists s1. split; [done|]. split; [|done].
rewrite <- H1. clear H1.
pose proof (chain_length_le_size (heap s) chain Hnd
              (fun x Hx => is_chain_alive _ _ x Hch Hx)) as Hlen.
apply list_elem_of_lookup_1 in Hc as [i Hi].
apply list_elem_of_lookup_1 in Hc' as [j Hj].
destruct chain as [|c0 chain']; [done|].
unfold removeConnector.
rewrite (chain_head_spec (heap s) (c0 :: chain') i c c0),
        (chain_head_spec (heap s) (c0 :: chain') j c' c0); try done.
- apply lookup_lt_Some in Hj. lia.
- apply lookup_lt_Some in Hi. lia.
Qed.

(** The slur of the sample, joined, both halves in the pool. *)
Definition slur_joined : Session :=
  mkSession (Sample.link 1%positive 2%positive Sample.slur_start Sample.slur_end
               {[ 1%positive := Sample.slur_start; 2%positive := Sample.slur_end ]})
            ∅ [1%positive; 2%positive] [] [] false.

Lemma removeConnector_any_member_witness :
  exists s', removeConnector 1%positive slur_joined = Ok s' /\
             removeConnector 2%positive slur_joined = Ok s' /\
             _connectors s' = [].
Proof.
destruct (removeConnector_any_member slur_joined [1%positive; 2%positive]
            1%positive 2%positive) as (s' & H1 & H2 & Hc & _).
- intros [|[|i]] c Hc; simpl in Hc; simplify_eq.
  + eexists. split; [reflexivity|]. split; reflexivity.
  + eexists. split; [reflexivity|]. split; reflexivity.
- apply (bool_decide_unpack _). vm_compute. exact I.
- apply (bool_decide_unpack _). vm_compute. exact I.
- left.
- right. left.
- exists s'. split; [exact H1|]. split; [exact H2|]. rewrite Hc. reflexivity.
Defined.

Section Pending.
Variable update : handle -> Fragments -> Fragments.
Variable connect : handle -> handle -> Fragments -> bool * Fragments.
Variable finished : handle -> Fragments -> bool.
Variable addToScore : handle -> bool -> Fragments -> Fragments.

Let add := addConnectorInfo update connect finished addToScore.
Let add_each := Resolver.add_each update connect finished addToScore.








End Pending.





(** X21: The destructor touches nothing but the leftover fragments and the
    items they hold: every other fragment and item, both vectors and the
    score are as before. *)
Theorem destructor_frame s :
  owned (_connectors s ++ _pendingConnectors s) s ->
  exists s',
    destructor s = Ok s' /\
    (forall c, c ∉ _connectors s ++ _pendingConnectors s ->
       heap s' !! c = heap s !! c) /\
    (forall i, (forall c, c ∈ _connectors s ++ _pendingConnectors s ->
                  ~ holds (heap s) c i) ->
       items s' !! i = items s !! i) /\
    _connectors s' = _connectors s /\
    _pendingConnectors s' = _pendingConnectors s /\
    score s' = score s.
Proof.
intros Hown. rewrite destructor_loops.
destruct (for_each_released _ _ _ s release_active_eq (owned_app_l _ _ _ Hown))
  as (s1 & Hs1 & [Rin Rout Rheld Rother (Hc1 & Hp1 & Hsc1 & _)]).
rewrite Hs1. simpl.
destruct Hown as [Hnd Ha Hi Ho].
apply NoDup_app in Hnd as (Hnd1 & Hdisj & Hnd2).
assert (Hkeep : forall c, c ∈ _pendingConnectors s ->
                  heap s1 !! c = heap s !! c).
{ intros c Hc. apply Rout. intros Hc'. by apply (Hdisj c). }
assert (Hfree : forall c i, c ∈ _pendingConnectors s ->
                  holds (heap s) c i -> items s1 !! i = items s !! i).
{ intros c i Hc Hh. apply Rother. intros c' Hc' Hh'.
  apply (Hdisj c' Hc'). replace c' with c; [done|].
  apply (Ho c c' i); [apply elem_of_app; by right
                     |apply elem_of_app; by left|done|done]. }
assert (Hown1 : owned (_pendingConnectors s1) s1).
{ rewrite Hp1. split; [done| | |].
  - intros c Hc. rewrite Hkeep by done. apply Ha, elem_of_app. by right.
  - intros c i Hc (f & Hf & Hfi). rewrite Hkeep in Hf by done.
    assert (Hh : holds (heap s) c i) by by exists f.
    rewrite (Hfree c i) by done.
    apply (Hi c); [apply elem_of_app; by right | done].
  - intros c1 c2 i H1 H2 (f1 & Hf1 & Hg1) (f2 & Hf2 & Hg2).
    rewrite Hkeep in Hf1, Hf2 by done.
    apply (Ho c1 c2 i); [apply elem_of_app; by right | apply elem_of_app; by right
                        | by exists f1 | by exists f2]. }
destruct (for_each_released (fun _ => true) _ _ s1 release_pending_eq Hown1)
  as (s2 & Hs2 & [Pin Pout Pheld Pother (Hc2 & Hp2 & Hsc2 & _)]).
rewrite Hp1 in *. exists s2. split; [done|].
split; [|split; [|split; [congruence | split; congruence]]].
- intros c Hc. apply not_elem_of_app in Hc as [Hc1' Hc2'].
  rewrite Pout by done. by apply Rout.
- intros i Hnone. rewrite Pother.
  + apply Rother. intros c Hc. apply Hnone, elem_of_app. by left.
  + intros c Hc (f & Hf & Hg). rewrite Hkeep in Hf by done.
    apply (Hnone c); [apply elem_of_app; by right | by exists f].
Qed.

(** An active slur half, a pending one, and a fragment and an item that
    belong to neither vector. *)
Definition with_bystanders : Session :=
  mkSession {[ 1%positive := mkFragment 5 StartRole 0 10 None None (Some 7%positive);
               2%positive := mkFragment 6 StartRole 0 20 None None (Some 8%positive);
               3%positive := mkFragment 7 StartRole 0 30 None None (Some 9%positive) ]}
            {[ 7%positive := mkItem false; 8%positive := mkItem true;
               9%positive := mkItem false ]}
            [1%positive] [2%positive] [] false.

Lemma destructor_frame_witness :
  exists s', destructor with_bystanders = Ok s' /\
             heap s' !! 3%positive = heap with_bystanders !! 3%positive /\
             items s' !! 9%positive = Some (mkItem false).
Proof.
destruct (destructor_frame with_bystanders) as (s' & Hs' & Hheap & Hitems & _).
- split.
  + apply (bool_decide_unpack _). vm_compute. exact I.
  + intros c Hc. simpl in Hc.
    apply elem_of_cons in Hc as [-> | Hc]; [eexists; reflexivity|].
    apply elem_of_cons in Hc as [-> | Hc]; [eexists; reflexivity|].
    by apply elem_of_nil in Hc.
  + intros c i Hc (f & Hf & Hfi). simpl in Hc.
    apply elem_of_cons in Hc as [-> | Hc];
      [vm_compute in Hf; simplify_eq; simpl in Hfi; simplify_eq;
       eexists; reflexivity|].
    apply elem_of_cons in Hc as [-> | Hc];
      [vm_compute in Hf; simplify_eq; simpl in Hfi; simplify_eq;
       eexists; reflexivity|].
    by apply elem_of_nil in Hc.
  + intros c1 c2 i H1 H2 (f1 & Hf1 & Hg1) (f2 & Hf2 & Hg2). simpl in H1, H2.
    apply elem_of_cons in H1 as [-> | H1];
      [|apply elem_of_cons in H1 as [-> | H1]; [|by apply elem_of_nil in H1]];
    (apply elem_of_cons in H2 as [-> | H2];
      [|apply elem_of_cons in H2 as [-> | H2]; [|by apply elem_of_nil in H2]]);
    vm_compute in Hf1, Hf2; simplify_eq; simpl in *; simplify_eq; done.
- exists s'. split; [exact Hs'|]. split.
  + apply Hheap. simpl. rewrite !not_elem_of_cons.
    repeat split; try discriminate. apply not_elem_of_nil.
  + rewrite Hitems; [reflexivity|].
    intros c Hc (f & Hf & Hg). simpl in Hc.
    apply elem_of_cons in Hc as [-> | Hc];
      [vm_compute in Hf; simplify_eq; simpl in Hg; simplify_eq|].
    apply elem_of_cons in Hc as [-> | Hc];
      [vm_compute in Hf; simplify_eq; simpl in Hg; simplify_eq|].
    by apply elem_of_nil in Hc.
Defined.

End PoolMore.

Module TupletMore.
Import Tuplets.

Section Sound.
Context {E : Type}.
Variables sortElements sanitizeTuplet addMissingElements : list E -> list E.



(** X23: A tuplet registered under an id that is already taken displaces the
    former holder: [checkTuplets] will visit the new one and not the old. *)
Theorem addTuplet_displaces (s s' : Registry E) t tp t0 :
  heap s !! t = Some tp -> _tuplets s !! id tp = Some t0 -> t0 <> t ->
  NoDup (tuplets s) ->
  addTuplet E t s = Ok s' ->
  (t ∈ tuplets s') /\ (t0 ∉ tuplets s') /\
  (forall u, u ∈ tuplets s' -> u = t \/ u ∈ tuplets s).
Proof.
intros Htp Hold Hne Hnd. unfold addTuplet. rewrite Htp. intros [= <-].
unfold tuplets in *. simpl.
assert (Hval : forall u (m : gmap Z handle),
          u ∈ (map_to_list m).*2 <-> exists k, m !! k = Some u).
{ intros u m. rewrite list_elem_of_fmap. split.
  - intros ([k v] & -> & Hkv). exists k. by apply elem_of_map_to_list in Hkv.
  - intros [k Hk]. exists (k, u). split; [done|]. by apply elem_of_map_to_list. }
split; [|split].
- apply Hval. exists (id tp). by rewrite lookup_insert_eq.
- intros Hin. apply Hval in Hin as [k Hk].
  destruct (decide (k = id tp)) as [->|Hk'].
  + rewrite lookup_insert_eq in Hk. congruence.
  + rewrite lookup_insert_ne in Hk by done.
    apply Hk'.
    assert (Hinj : forall k1 k2 v, _tuplets s !! k1 = Some v ->
                     _tuplets s !! k2 = Some v -> k1 = k2).
    { clear -Hnd. intros k1 k2 v H1 H2.
      apply elem_of_map_to_list in H1, H2.
      apply list_elem_of_lookup_1 in H1 as [i Hi], H2 as [j Hj].
      assert (i = j).
      { apply (NoDup_lookup _ i j v Hnd); rewrite list_lookup_fmap.
        - by rewrite Hi. - by rewrite Hj. }
      subst j. congruence. }
    by apply (Hinj k (id tp) t0).
- intros u Hu. apply Hval in Hu as [k Hk].
  destruct (decide (k = id tp)) as [->|Hk'].
  + rewrite lookup_insert_eq in Hk. left. congruence.
  + rewrite lookup_insert_ne in Hk by done. right. apply Hval. by exists k.
Qed.

End Sound.

(** Two tuplets with elements; a third one carries the id of the first. *)
Definition two_tuplets : Registry Z :=
  mkRegistry {[ 1%positive := mkTuplet 3 [20; 10];
                2%positive := mkTuplet 4 [5];
                6%positive := mkTuplet 3 [7] ]}
             {[ 3 := 1%positive; 4 := 2%positive ]} [].


Lemma addTuplet_displaces_witness :
  exists s', addTuplet Z 6%positive two_tuplets = Ok s' /\
             6%positive ∈ tuplets s' /\ 1%positive ∉ tuplets s'.
Proof.
eexists. split; [reflexivity|].
destruct (addTuplet_displaces two_tuplets
            (mkRegistry (heap two_tuplets)
                        (<[3 := 6%positive]> (_tuplets two_tuplets)) [])
            6%positive (mkTuplet 3 [7]) 1%positive)
  as (Hin & Hout & _); try reflexivity; try done.
apply (bool_decide_unpack _). vm_compute. exact I.
Defined.

End TupletMore.

Module LeafMore.
Import Qt Attr Frac Leaf.

Lemma isEmpty_append a c b : isEmpty (a +:+ String c b) = false.
Proof. by destruct a. Qed.

Lemma indexOf_range s c : -1 <= indexOf s c.
Proof.
induction s as [|d s IH]; simpl; [lia|].
destruct (Ascii.eqb d c); [lia|]. destruct (indexOf s c =? -1) eqn:E; lia.
Qed.

Lemma indexOf_append a c b :
  indexOf a c = -1 -> indexOf (a +:+ String c b) c = Z.of_nat (String.length a).
Proof.
induction a as [|d a IH]; simpl.
- intros _. by rewrite Ascii.eqb_refl.
- destruct (Ascii.eqb d c); [done|].
  destruct (indexOf a c =? -1) eqn:E.
  + intros _. apply Z.eqb_eq in E. rewrite (IH E).
    destruct (Z.of_nat (String.length a) =? -1) eqn:E'; [|lia].
    apply Z.eqb_eq in E'. lia.
  + pose proof (indexOf_range a c). apply Z.eqb_neq in E. lia.
Qed.

Lemma left_append a b : left (a +:+ b) (String.length a) = a.
Proof. induction a as [|d a IH]; simpl; [by destruct b | by rewrite IH]. Qed.

Lemma mid_append a c b : mid (a +:+ String c b) (S (String.length a)) = b.
Proof. induction a as [|d a IH]; simpl; [by destruct b | done]. Qed.

(** X24: The text of a fraction is cut at its first slash: what stands before
    it is the numerator, everything after it, further slashes included, is
    the denominator, and the attributes and the division play no part. *)
Theorem readFraction_first_slash division attributes a b :
  indexOf a "/" = -1 ->
  readFraction division attributes (a +:+ String "/" b)
  = mkFraction (toInt a) (toInt b).
Proof.
intros Ha. unfold readFraction.
rewrite isEmpty_append, (indexOf_append a "/" b Ha). simpl negb. cbv iota.
destruct (Z.of_nat (String.length a) =? -1) eqn:E;
  [apply Z.eqb_eq in E; lia|].
rewrite Nat2Z.id.
replace (Z.to_nat (Z.of_nat (String.length a) + 1)) with (S (String.length a))
  by lia.
by rewrite left_append, mid_append.
Qed.

Lemma readFraction_first_slash_witness :
  readFraction 480 old_style "7/" = mkFraction 7 0 /\
  readFraction 480 [] "1/2/3" = mkFraction 1 0.
Proof.
split.
- apply (readFraction_first_slash 480 old_style "7" ""). reflexivity.
- apply (readFraction_first_slash 480 [] "1" "2/3"). reflexivity.
Defined.

(** X25: Text without a slash is a count of ticks: the result is in lowest
    terms with a positive denominator, and a count that is not negative
    is what [ticks] gives back. *)
Theorem readFraction_ticks division attributes text :
  0 < division -> isEmpty text = false -> indexOf text "/" = -1 ->
  readFraction division attributes text = fromTicks division (toInt text) /\
  canonical (readFraction division attributes text) /\
  (0 <= toInt text ->
   ticks division (readFraction division attributes text) = toInt text).
Proof.
intros Hd He Hi.
assert (E : readFraction division attributes text
            = fromTicks division (toInt text)).
{ unfold readFraction. by rewrite He, Hi. }
rewrite E. split; [done|]. split; [by apply fromTicks_canonical|].
intros Ht. by apply ticks_fromTicks.
Qed.

Lemma readFraction_ticks_witness :
  ticks 480 (readFraction 480 old_style " 960 ") = 960.
Proof.
destruct (readFraction_ticks 480 old_style " 960 ") as (_ & _ & H);
  [lia | reflexivity | reflexivity |].
apply H. vm_compute. discriminate.
Defined.

End LeafMore.

Module SpannerValueFacts.
Import Spanners.

(** X8: [spannerValues] hands out the first entry that carries the id, and
    null exactly when no entry does. *)
Theorem spannerValues_first {V : Type} (spannerIdOf : V -> Z) id (l : list V) :
  match spannerValues V spannerIdOf id l with
  | Some v => exists pre post, l = pre ++ v :: post /\ spannerIdOf v = id /\
                               id ∉ spannerIdOf <$> pre
  | None => id ∉ spannerIdOf <$> l
  end.
Proof.
induction l as [|x l IH]; simpl.
- apply not_elem_of_nil.
- destruct (decide (spannerIdOf x = id)) as [Hx|Hx].
  + exists [], l. split; [done|]. split; [done|]. apply not_elem_of_nil.
  + destruct (spannerValues V spannerIdOf id l) as [v|].
    * destruct IH as (pre & post & -> & Hv & Hpre).
      exists (x :: pre), post. split; [done|]. split; [done|].
      rewrite fmap_cons. apply not_elem_of_cons. split; [done | done].
    * rewrite not_elem_of_cons. split; [done | done].
Qed.

End SpannerValueFacts.

(** * Verbatim reading: [readXml], [htmlToString], [readBool]

    [QXmlStreamReader] is seen through the tokens [readNext] will still
    deliver.  Once they are used up the reader reports [Invalid], which
    both switches send to [default], as they do [StartDocument],
    [EndDocument], [DTD], [EntityReference] and [ProcessingInstruction]. *)
Module Markup.
Import Qt.

Inductive Token : Type :=
| StartElement (name : QString) (attributes : QXmlStreamAttributes)
| EndElement (name : QString)
| Characters (text : QString) (isWhitespace : bool)
| Comment (text : QString)
| OtherToken.

Definition Reader := list Token.

Definition readNext (r : Reader) : Token * Reader :=
  match r with
  | [] => (OtherToken, [])
  | t :: r' => (t, r')
  end.

Definition quote : QString := String (ascii_of_nat 34) EmptyString.

(** [QString(" %1=\"%2\"").arg(name, value)] *)
Definition attribute_text (a : string * string) : QString :=
  " " +:+ a.1 +:+ "=" +:+ quote +:+ a.2 +:+ quote.

(** The three statements that open [htmlToString]. *)
Definition open_tag (s : QString) (name : QString)
    (attributes : QXmlStreamAttributes) : QString :=
  let s := s +:+ ("<" +:+ name) in
  let s := fold_left (fun s a => s +:+ attribute_text a) attributes s in
  s +:+ ">".

(** [QString("</%1>").arg(name)] *)
Definition close_tag (name : QString) : QString := "</" +:+ name +:+ ">".

Section Verbatim.
(** [QString::toHtmlEscaped] is Qt's. *)
Variable toHtmlEscaped : QString -> QString.

(** The [for (;;)] of [htmlToString].  The call [htmlToString(level, s)] on
    a start tag is the opening statements followed by this loop, one level
    down; each round takes a token or ends the loop. *)
Fixpoint htmlToString_loop (fuel : nat) (level : Z) (s : QString) (r : Reader)
    : option (QString * Reader) :=
  match fuel with
  | O => None
  | S fuel' =>
      match readNext r with
      | (StartElement name attributes, r) =>
          match htmlToString_loop fuel' (level + 1)
                  (open_tag s name attributes) r with
          | Some (s, r) => htmlToString_loop fuel' level s r
          | None => None
          end
      | (EndElement name, r) => Some (s +:+ close_tag name, r)
      | (Characters text isWhitespace, r) =>
          if negb (isEmpty s) || negb isWhitespace
          then htmlToString_loop fuel' level (s +:+ toHtmlEscaped text) r
          else htmlToString_loop fuel' level s r
      | (Comment _, r) => htmlToString_loop fuel' level s r
      | (OtherToken, r) => Some (s, r)
      end
  end.

Definition htmlToString (fuel : nat) (level : Z) (name : QString)
    (attributes : QXmlStreamAttributes) (s : QString) (r : Reader)
    : option (QString * Reader) :=
  htmlToString_loop fuel (level + 1) (open_tag s name attributes) r.

Fixpoint readXml_loop (fuel : nat) (s : QString) (r : Reader)
    : option (QString * Reader) :=
  match fuel with
  | O => None
  | S fuel' =>
      let level := 1 in
      match readNext r with
      | (EndElement _, r) => Some (s, r)
      | (StartElement name attributes, r) =>
          match htmlToString fuel' level name attributes s r with
          | Some (s, r) => readXml_loop fuel' s r
          | None => None
          end
      | (Characters text _, r) => readXml_loop fuel' (s +:+ toHtmlEscaped text) r
      | (Comment _, r) => readXml_loop fuel' s r
      | (OtherToken, r) => Some (s, r)
      end
  end.

(** No round leaves the reader longer, so one round more than there are
    tokens is enough. *)
Definition readXml (r : Reader) : option (QString * Reader) :=
  readXml_loop (S (length r)) EmptyString r.

End Verbatim.

(** [readBool]: the value and the reader after it. *)
Definition readBool (r : Reader) : bool * Reader :=
  let (tt, r) := readNext r in
  match tt with
  | Characters text _ =>
      let val := negb (toInt text =? 0) in
      let (_, r) := readNext r in
      (val, r)
  | _ => (true, r)
  end.

(** What lies between a start tag and its end tag. *)
#[warnings="-register-all"]
Inductive Node : Type :=
| Element (name : QString) (attributes : QXmlStreamAttributes)
          (children : list Node)
| Text (text : QString) (isWhitespace : bool)
| CommentNode (text : QString).

Fixpoint tokens (n : Node) : list Token :=
  match n with
  | Element name attributes children =>
      StartElement name attributes :: flat_map tokens children
        ++ [EndElement name]
  | Text text isWhitespace => [Characters text isWhitespace]
  | CommentNode text => [Comment text]
  end.

Definition attributes_text (a : QXmlStreamAttributes) : QString :=
  fold_right (fun x acc => attribute_text x +:+ acc) EmptyString a.

Section Written.
Variable toHtmlEscaped : QString -> QString.

(** The text an XML writer would put out for the node, comments left out
    and attribute values taken as they are. *)
Fixpoint markup (n : Node) : QString :=
  match n with
  | Element name attributes children =>
      "<" +:+ name +:+ attributes_text attributes +:+ ">"
      +:+ fold_right (fun c acc => markup c +:+ acc) EmptyString children
      +:+ close_tag name
  | Text text _ => toHtmlEscaped text
  | CommentNode _ => EmptyString
  end.

Definition markups (l : list Node) : QString :=
  fold_right (fun c acc => markup c +:+ acc) EmptyString l.
End Written.

End Markup.

Module MarkupFacts.
Import Qt Markup.

Lemma append_cons x (a b : string) : String x a +:+ b = String x (a +:+ b).
Proof. reflexivity. Qed.

Lemma append_assoc (a b c : string) : (a +:+ b) +:+ c = a +:+ b +:+ c.
Proof.
induction a as [|x a IH]; [done|]. by rewrite !append_cons, IH.
Qed.

Lemma append_nil_r (a : string) : a +:+ "" = a.
Proof. induction a as [|x a IH]; [done|]. by rewrite append_cons, IH. Qed.

Lemma isEmpty_append_l s x : isEmpty s = false -> isEmpty (s +:+ x) = false.
Proof. by destruct s. Qed.

Lemma isEmpty_append_r s c x : isEmpty (s +:+ String c x) = false.
Proof. by destruct s. Qed.

Lemma open_tag_append s name a :
  open_tag s name a = s +:+ "<" +:+ name +:+ attributes_text a +:+ ">".
Proof.
unfold open_tag.
assert (H : forall a s, fold_left (fun s x => s +:+ attribute_text x) a s
                        = s +:+ attributes_text a).
{ clear. induction a as [|x a IH]; intros s; simpl.
  - by rewrite append_nil_r.
  - by rewrite IH, append_assoc. }
rewrite H. rewrite !append_assoc. reflexivity.
Qed.

Lemma open_tag_not_empty s name a : isEmpty (open_tag s name a) = false.
Proof. rewrite open_tag_append. apply isEmpty_append_r. Qed.

Lemma tokens_element name a cs (r : Reader) :
  tokens (Element name a cs) ++ r
  = StartElement name a :: flat_map tokens cs ++ EndElement name :: r.
Proof. simpl. by rewrite <- app_assoc. Qed.

Section NodeInduction.
Variable P : Node -> Prop.
Hypothesis HE : forall name a cs, Forall P cs -> P (Element name a cs).
Hypothesis HT : forall t ws, P (Text t ws).
Hypothesis HC : forall t, P (CommentNode t).

Lemma Node_forall_ind : forall n, P n.
Proof.
fix IH 1. intros [name a cs|t ws|t]; [apply HE | apply HT | apply HC].
induction cs as [|c cs IHcs]; constructor; [apply IH | apply IHcs].
Qed.
End NodeInduction.

Section Facts.
Variable toHtmlEscaped : QString -> QString.

Local Abbreviation loop := (htmlToString_loop toHtmlEscaped).
Local Abbreviation top := (readXml_loop toHtmlEscaped).
Local Abbreviation markup := (Markup.markup toHtmlEscaped).
Local Abbreviation markups := (Markup.markups toHtmlEscaped).

Lemma loop_mono fuel : forall fuel' level s r x,
  (fuel <= fuel')%nat -> loop fuel level s r = Some x ->
  loop fuel' level s r = Some x.
Proof.
induction fuel as [|fuel IH]; intros fuel' level s r x Hle; [done|].
destruct fuel' as [|fuel']; [lia|]. assert (Hle' : (fuel <= fuel')%nat) by lia.
simpl. destruct (readNext r) as [[name a|name|text ws|text|] r']; try done.
- destruct (htmlToString_loop toHtmlEscaped fuel (level + 1) _ r')
    as [[s1 r1]|] eqn:E; [|done].
  rewrite (IH fuel' _ _ _ _ Hle' E). by apply IH.
- destruct (negb (isEmpty s) || negb ws); by apply IH.
- by apply IH.
Qed.

Lemma top_mono fuel : forall fuel' s r x,
  (fuel <= fuel')%nat -> top fuel s r = Some x -> top fuel' s r = Some x.
Proof.
induction fuel as [|fuel IH]; intros fuel' s r x Hle; [done|].
destruct fuel' as [|fuel']; [lia|]. assert (Hle' : (fuel <= fuel')%nat) by lia.
simpl. destruct (readNext r) as [[name a|name|text ws|text|] r']; try done.
- unfold htmlToString.
  destruct (htmlToString_loop toHtmlEscaped fuel _ _ r') as [[s1 r1]|] eqn:E;
    [|done].
  rewrite (loop_mono fuel fuel' _ _ _ _ Hle' E). by apply IH.
- by apply IH.
- by apply IH.
Qed.

Lemma loop_total fuel : forall level s r,
  (length r < fuel)%nat ->
  exists s' r', loop fuel level s r = Some (s', r') /\ r' `suffix_of` r.
Proof.
induction fuel as [|fuel IH]; intros level s r Hlt; [lia|].
simpl. destruct r as [|[name a|name|text ws|text|] r']; simpl in *.
- by exists s, [].
- destruct (IH (level + 1) (open_tag s name a) r') as (s1 & r1 & -> & H1);
    [lia|].
  pose proof (suffix_length _ _ H1).
  destruct (IH level s1 r1) as (s2 & r2 & -> & H2); [lia|].
  exists s2, r2. split; [done|]. apply suffix_cons_r. by trans r1.
- eexists _, r'. split; [done | by apply suffix_cons_r].
- destruct (negb (isEmpty s) || negb ws).
  + destruct (IH level (s +:+ toHtmlEscaped text) r') as (s1 & r1 & -> & H1);
      [lia|]. exists s1, r1. split; [done | by apply suffix_cons_r].
  + destruct (IH level s r') as (s1 & r1 & -> & H1); [lia|].
    exists s1, r1. split; [done | by apply suffix_cons_r].
- destruct (IH level s r') as (s1 & r1 & -> & H1); [lia|].
  exists s1, r1. split; [done | by apply suffix_cons_r].
- exists s, r'. split; [done | by apply suffix_cons_r].
Qed.

Lemma top_total fuel : forall s r,
  (length r < fuel)%nat ->
  exists s' r', top fuel s r = Some (s', r') /\ r' `suffix_of` r.
Proof.
induction fuel as [|fuel IH]; intros s r Hlt; [lia|].
simpl. destruct r as [|[name a|name|text ws|text|] r']; simpl in *.
- by exists s, [].
- unfold htmlToString.
  destruct (loop_total fuel (1 + 1) (open_tag s name a) r')
    as (s1 & r1 & E & H1); [lia|]. rewrite E.
  pose proof (suffix_length _ _ H1).
  destruct (IH s1 r1) as (s2 & r2 & -> & H2); [lia|].
  exists s2, r2. split; [done|]. apply suffix_cons_r. by trans r1.
- exists s, r'. split; [done | by apply suffix_cons_r].
- destruct (IH (s +:+ toHtmlEscaped text) r') as (s1 & r1 & -> & H1); [lia|].
  exists s1, r1. split; [done | by apply suffix_cons_r].
- destruct (IH s r') as (s1 & r1 & -> & H1); [lia|].
  exists s1, r1. split; [done | by apply suffix_cons_r].
- exists s, r'. split; [done | by apply suffix_cons_r].
Qed.

(** One round more than there are tokens is enough for [readXml]. *)
Lemma readXml_fuel_enough (r : Reader) :
  exists s r', readXml toHtmlEscaped r = Some (s, r') /\ r' `suffix_of` r.
Proof. apply (top_total (S (length r)) EmptyString r). lia. Qed.

(** Inside an element the text gathered so far is never empty. *)
Definition inside (n : Node) : Prop :=
  forall fuel level s r x,
    isEmpty s = false ->
    loop fuel level (s +:+ markup n) r = Some x ->
    exists fuel', loop fuel' level s (tokens n ++ r) = Some x.

Lemma inside_children cs :
  Forall inside cs ->
  forall level s name r, isEmpty s = false ->
  exists fuel,
    loop fuel level s (flat_map tokens cs ++ EndElement name :: r)
    = Some (s +:+ markups cs +:+ close_tag name, r).
Proof.
induction 1 as [|c cs Hc Hcs IH]; intros level s name r Hs.
- exists 1%nat. reflexivity.
- destruct (IH level (s +:+ markup c) name r) as [fuel Hfuel];
    [by apply isEmpty_append_l|].
  simpl flat_map. rewrite <- app_assoc.
  destruct (Hc fuel level s (flat_map tokens cs ++ EndElement name :: r)
              (s +:+ markups (c :: cs) +:+ close_tag name, r) Hs)
    as [fuel' Hfuel'].
  + rewrite Hfuel. f_equal. f_equal.
    unfold Markup.markups. simpl.
    by rewrite !append_assoc.
  + by exists fuel'.
Qed.

Lemma element_inside name a cs level s r :
  Forall inside cs ->
  exists fuel,
    htmlToString toHtmlEscaped fuel level name a s
      (flat_map tokens cs ++ EndElement name :: r)
    = Some (s +:+ markup (Element name a cs), r).
Proof.
intros Hcs. unfold htmlToString.
destruct (inside_children cs Hcs (level + 1) (open_tag s name a) name r)
  as [fuel Hfuel]; [apply open_tag_not_empty|].
exists fuel. rewrite Hfuel. f_equal. f_equal.
rewrite open_tag_append. unfold Markup.markups. simpl.
by rewrite !append_assoc.
Qed.

Lemma all_inside n : inside n.
Proof.
induction n as [name a cs Hcs|t ws|t] using Node_forall_ind;
  intros fuel level s r x Hs Hx.
- destruct (element_inside name a cs level s r Hcs) as [f1 Hf1].
  exists (S (Nat.max f1 fuel)). rewrite tokens_element.
  simpl.
  unfold htmlToString in Hf1.
  rewrite (loop_mono f1 (Nat.max f1 fuel) _ _ _ _ (Nat.le_max_l _ _) Hf1).
  by apply (loop_mono fuel (Nat.max f1 fuel) _ _ _ _ (Nat.le_max_r _ _)).
- exists (S fuel). simpl. by rewrite Hs.
- exists (S fuel). simpl in *.
  by rewrite append_nil_r in Hx.
Qed.

Lemma top_node n : forall fuel s r x,
  top fuel (s +:+ markup n) r = Some x ->
  exists fuel', top fuel' s (tokens n ++ r) = Some x.
Proof.
destruct n as [name a cs|t ws|t]; intros fuel s r x Hx.
- destruct (element_inside name a cs 1 s r) as [f1 Hf1].
  { apply Forall_forall. intros c _. apply all_inside. }
  exists (S (Nat.max f1 fuel)). rewrite tokens_element.
  simpl.
  unfold htmlToString in *.
  rewrite (loop_mono f1 (Nat.max f1 fuel) _ _ _ _ (Nat.le_max_l _ _) Hf1).
  by apply (top_mono fuel (Nat.max f1 fuel) _ _ _ (Nat.le_max_r _ _)).
- exists (S fuel). by simpl.
- exists (S fuel). simpl in *.
  by rewrite append_nil_r in Hx.
Qed.

Lemma top_content cs : forall s name r,
  exists fuel,
    top fuel s (flat_map tokens cs ++ EndElement name :: r)
    = Some (s +:+ markups cs, r).
Proof.
induction cs as [|c cs IH]; intros s name r.
- exists 1%nat. simpl. by rewrite append_nil_r.
- destruct (IH (s +:+ markup c) name r) as [fuel Hfuel].
  simpl flat_map. rewrite <- app_assoc.
  destruct (top_node c fuel s (flat_map tokens cs ++ EndElement name :: r)
              (s +:+ markups (c :: cs), r)) as [fuel' Hfuel'].
  + rewrite Hfuel. f_equal. f_equal.
    unfold Markup.markups. simpl.
    by rewrite append_assoc.
  + by exists fuel'.
Qed.

Lemma inside_until_other cs :
  forall level s r, isEmpty s = false ->
  exists fuel,
    loop fuel level s (flat_map tokens cs ++ OtherToken :: r)
    = Some (s +:+ markups cs, r).
Proof.
induction cs as [|c cs IH]; intros level s r Hs.
- exists 1%nat. simpl. by rewrite append_nil_r.
- destruct (IH level (s +:+ markup c) r) as [fuel Hfuel];
    [by apply isEmpty_append_l|].
  simpl flat_map. rewrite <- app_assoc.
  destruct (all_inside c fuel level s (flat_map tokens cs ++ OtherToken :: r)
              (s +:+ markups (c :: cs), r) Hs) as [fuel' Hfuel'].
  + rewrite Hfuel. f_equal. f_equal. unfold Markup.markups. simpl.
    by rewrite append_assoc.
  + by exists fuel'.
Qed.

(** X26: [readXml] always returns, on any stream of tokens, well-formed or
    not, and the reader it leaves is the one it was given with some tokens
    taken from the front. *)
Theorem readXml_returns (r : Reader) :
  exists s r', readXml toHtmlEscaped r = Some (s, r') /\ r' `suffix_of` r.
Proof. exact (readXml_fuel_enough r). Qed.

(** X27: Called after a start tag, [readXml] gives the element's content back
    as markup and leaves the reader behind the element's end tag: start
    and end tags are written out again with their attributes, text is
    HTML-escaped, whitespace is kept and comments are dropped. *)
Theorem readXml_markup (content : list Node) (name : QString) (r : Reader) :
  readXml toHtmlEscaped (flat_map tokens content ++ EndElement name :: r)
  = Some (markups content, r).
Proof.
destruct (top_content content EmptyString name r) as [fuel Hfuel].
destruct (readXml_fuel_enough (flat_map tokens content ++ EndElement name :: r))
  as (s' & r' & Hs' & _).
rewrite Hs'. unfold readXml in Hs'. 
pose proof (top_mono _ (Nat.max fuel
              (S (length (flat_map tokens content ++ EndElement name :: r))))
              _ _ _ (Nat.le_max_l _ _) Hfuel) as H1.
pose proof (top_mono _ (Nat.max fuel
              (S (length (flat_map tokens content ++ EndElement name :: r))))
              _ _ _ (Nat.le_max_r _ _) Hs') as H2.
rewrite H1 in H2. by rewrite <- H2.
Qed.

(** X28: [htmlToString] appends the markup of the element whose start tag has
    just been read, whatever has been gathered before, and leaves the
    reader behind its end tag; text made of whitespace is kept like any
    other. *)
Theorem htmlToString_markup fuel level name a cs s r :
  (length (flat_map tokens cs ++ EndElement name :: r) < fuel)%nat ->
  htmlToString toHtmlEscaped fuel level name a s
    (flat_map tokens cs ++ EndElement name :: r)
  = Some (s +:+ markup (Element name a cs), r).
Proof.
intros Hfuel.
destruct (element_inside name a cs level s r) as [f1 Hf1].
{ apply Forall_forall. intros c _. apply all_inside. }
unfold htmlToString in *.
destruct (loop_total fuel (level + 1) (open_tag s name a)
            (flat_map tokens cs ++ EndElement name :: r) Hfuel)
  as (s' & r' & Hs' & _).
rewrite Hs'.
pose proof (loop_mono _ (Nat.max f1 fuel) _ _ _ _ (Nat.le_max_l _ _) Hf1) as H1.
pose proof (loop_mono _ (Nat.max f1 fuel) _ _ _ _ (Nat.le_max_r _ _) Hs') as H2.
rewrite H1 in H2. by rewrite <- H2.
Qed.

(** X29: A token of another kind inside a child element ends the child's
    [htmlToString] only.  [readXml] goes on one level too deep: the child
    is never closed in the result, and reading stops at the next end tag,
    which is the child's. *)
Theorem readXml_child_cut_short name a before after name' r :
  readXml toHtmlEscaped
    (StartElement name a :: flat_map tokens before
       ++ OtherToken :: flat_map tokens after ++ EndElement name' :: r)
  = Some ("<" +:+ name +:+ attributes_text a +:+ ">"
          +:+ markups before +:+ markups after, r).
Proof.
set (ts := StartElement name a :: flat_map tokens before
             ++ OtherToken :: flat_map tokens after ++ EndElement name' :: r).
destruct (inside_until_other before (1 + 1) (open_tag EmptyString name a)
            (flat_map tokens after ++ EndElement name' :: r))
  as [f1 Hf1]; [apply open_tag_not_empty|].
destruct (top_content after
            (open_tag EmptyString name a +:+ markups before) name' r)
  as [f2 Hf2].
destruct (readXml_fuel_enough ts) as (s' & r' & Hs' & _).
rewrite Hs'. unfold readXml in Hs'.
remember (Nat.max (Nat.max f1 f2) (length ts)) as F eqn:HF.
assert (H1 : (f1 <= F)%nat) by lia.
assert (H2 : (f2 <= F)%nat) by lia.
assert (H3 : (S (length ts) <= S F)%nat) by lia.
pose proof (top_mono _ (S F) _ _ _ H3 Hs') as H.
clear HF H3 Hs'. subst ts. simpl in H. unfold htmlToString in H.
rewrite (loop_mono f1 F _ _ _ _ H1 Hf1) in H.
rewrite (top_mono f2 F _ _ _ H2 Hf2) in H.
rewrite <- H. f_equal. f_equal.
rewrite open_tag_append. simpl. by rewrite !append_assoc.
Qed.

End Facts.

Lemma htmlToString_markup_witness :
  htmlToString (fun s => s) 9 1 "p" [("k", "v")] "x"
    [Characters " " true; Comment "c"; EndElement "p"; EndElement "q"]
  = Some ("x<p k=" +:+ quote +:+ "v" +:+ quote +:+ "> </p>", [EndElement "q"]).
Proof.
apply (htmlToString_markup (fun s => s) 9 1 "p" [("k", "v")]
         [Text " " true; CommentNode "c"] "x" [EndElement "q"]).
simpl. lia.
Defined.

End MarkupFacts.

Module BoolFacts.
Import Qt Markup.

Fixpoint occurs (c : ascii) (s : string) : Prop :=
  match s with
  | EmptyString => False
  | String d s' => d = c \/ occurs c s'
  end.

Lemma skip_space_occurs c s :
  is_space c = false -> occurs c s -> occurs c (skip_space s).
Proof.
intros Hc. induction s as [|d s IH]; simpl; [done|].
destruct (is_space d) eqn:Hd.
- intros [-> | H]; [congruence | by apply IH].
- done.
Qed.

Lemma rev_string_occurs c s : forall acc,
  occurs c (rev_string acc s) <-> occurs c acc \/ occurs c s.
Proof.
induction s as [|d s IH]; intros acc; simpl; [tauto|].
rewrite IH. simpl. tauto.
Qed.

Lemma trimmed_occurs c s :
  is_space c = false -> occurs c s -> occurs c (trimmed s).
Proof.
intros Hc H. unfold trimmed.
apply rev_string_occurs. right. apply skip_space_occurs; [done|].
apply rev_string_occurs. right. by apply skip_space_occurs.
Qed.

Lemma digits_occurs c s : forall acc,
  digit_of c = None -> occurs c s -> digits acc s = None.
Proof.
induction s as [|d s IH]; intros acc Hc; simpl; [done|].
intros [-> | H]; [by rewrite Hc|].
destruct (digit_of d); [by apply IH | done].
Qed.

Lemma unsigned_or_zero_occurs c neg body :
  digit_of c = None -> occurs c body -> unsigned_or_zero neg body = 0.
Proof.
intros Hc H. unfold unsigned_or_zero.
rewrite (digits_occurs c body 0 Hc H). by destruct body.
Qed.

(** [toInt] of a text with a character that no number has is 0. *)
Lemma toInt_not_a_number c s :
  is_space c = false -> digit_of c = None ->
  c <> "-"%char -> c <> "+"%char -> occurs c s -> toInt s = 0.
Proof.
intros Hs Hd Hm Hp H. apply (trimmed_occurs c s Hs) in H.
unfold toInt. destruct (trimmed s) as [|d body]; [done|].
assert (Hbody : d = "-"%char \/ d = "+"%char -> occurs c body).
{ intros [-> | ->]; destruct H as [H | H]; congruence. }
destruct d as [[] [] [] [] [] [] [] []];
  solve [ apply (unsigned_or_zero_occurs c); [done | exact H]
        | apply (unsigned_or_zero_occurs c); [done | apply Hbody; auto] ].
Qed.

(** X30: An element whose text is not a number reads as [false], the words
    true and yes included; the reader is left behind the token that
    follows the text. *)
Theorem readBool_not_a_number c text ws t r :
  is_space c = false -> digit_of c = None ->
  c <> "-"%char -> c <> "+"%char -> occurs c text ->
  readBool (Characters text ws :: t :: r) = (false, r).
Proof.
intros Hs Hd Hm Hp H. unfold readBool. simpl.
by rewrite (toInt_not_a_number c text Hs Hd Hm Hp H).
Qed.

Lemma readBool_not_a_number_witness :
  readBool [Characters "true" false; EndElement "visible"] = (false, []).
Proof.
apply (readBool_not_a_number "t" "true" false (EndElement "visible") []);
  try reflexivity; try discriminate.
simpl. by left.
Defined.

(** Whitespace around a number is trimmed, the no-break space included. *)
Lemma readBool_trims_no_break_space :
  readBool [Characters (String (ascii_of_nat 160) "1") false;
            EndElement "visible"] = (true, []).
Proof. reflexivity. Qed.

End BoolFacts.
